(** * Event queues (src/events.c): a shallow embedding and its properties

    The queue of [src/events.c] is embedded as a state-passing program over a
    [world]: the queue object, the store of event records the queue points
    into, the millisecond clock and a log of the calls the queue makes to its
    collaborators (event sources, mutex, condition variable, destructor
    registry).  A computation that fails an [ASSERT], dereferences a pointer
    with no record behind it, or blocks for ever, has no result ([None]). *)

From stdpp Require Import gmap list.
From Stdlib Require Import ZArith Lia.

Local Open Scope Z_scope.

(** ** Data model *)

(** [ALLEGRO_EVENT *] and [ALLEGRO_EVENT_SOURCE *]: non-null addresses. *)
Abbreviation event_ptr := positive.
Abbreviation source_ptr := positive.

(** [#define MAX_QUEUE_SIZE 512] *)
Definition MAX_QUEUE_SIZE : nat := 512.

(** Modelled from the spec: the declaration of [ALLEGRO_EVENT] (a header that
    is not part of the sources at hand).  The spec gives a record with a
    [kind] tag, the originating [source] (identity only), a [timestamp], a
    fixed-size [payload] and an integer [ref_count]; [_al_copy_event] names
    the internal linkage fields [_next] and [_next_free] besides. *)
Record ALLEGRO_EVENT : Type := mkEvent {
  any_type : Z;
  any_source : source_ptr;
  any_timestamp : Z;
  any_refcount : Z;
  any_next : option event_ptr;
  any_next_free : option event_ptr;
  payload : list Z
}.

Definition set_refcount (rc : Z) (ev : ALLEGRO_EVENT) : ALLEGRO_EVENT :=
  mkEvent (any_type ev) (any_source ev) (any_timestamp ev) rc
          (any_next ev) (any_next_free ev) (payload ev).

(** The field [_refcount] is an [int] (the header that declares it is not part
    of the sources at hand): 32 bits in two's complement, as on the platforms
    of the library.  [to_int z] is what [z] becomes when it is stored in an
    [int]: past [INT_MAX] the value wraps around to the negative numbers. *)
Definition INT_MAX : Z := 2147483647.
Definition INT_MIN : Z := -2147483648.
Definition to_int (z : Z) : Z := (z - INT_MIN) mod 2 ^ 32 + INT_MIN.

Global Arguments to_int : simpl never.

(** [struct ALLEGRO_EVENT_QUEUE]: the two vectors (of event pointers and of
    source pointers) and the mutex ([true] when held).  The condition
    variable carries no data of its own; its uses appear in the call log. *)
Record ALLEGRO_EVENT_QUEUE : Type := mkQueue {
  events : list event_ptr;
  sources : list source_ptr;
  mutex : bool
}.

(** Calls that leave [events.c]. *)
Inductive call : Type :=
| Call_register_destructor
| Call_unregister_destructor
| Call_on_registration_to_queue (s : source_ptr)
| Call_on_unregistration_from_queue (s : source_ptr)
| Call_release_event (e : event_ptr)
| Call_source_release_hook (e : event_ptr)
| Call_mutex_lock
| Call_mutex_unlock
| Call_cond_broadcast
| Call_cond_wait
| Call_cond_timedwait (deadline : Z)
| Call_current_time
| Call_free_queue.

Global Instance call_eq_dec : EqDecision call.
Proof. solve_decision. Defined.

(** The state a call runs in.  Every entry of [trace] pairs a call with the
    queue as it was at the moment of the call. *)
Record world : Type := mkWorld {
  queue : ALLEGRO_EVENT_QUEUE;
  heap : gmap event_ptr ALLEGRO_EVENT;
  clock : Z;
  trace : list (call * ALLEGRO_EVENT_QUEUE)
}.

Definition set_queue (q : ALLEGRO_EVENT_QUEUE) (w : world) : world :=
  mkWorld q (heap w) (clock w) (trace w).
Definition set_heap (h : gmap event_ptr ALLEGRO_EVENT) (w : world) : world :=
  mkWorld (queue w) h (clock w) (trace w).
Definition set_clock (c : Z) (w : world) : world :=
  mkWorld (queue w) (heap w) c (trace w).
Definition set_trace (t : list (call * ALLEGRO_EVENT_QUEUE)) (w : world) : world :=
  mkWorld (queue w) (heap w) (clock w) t.

(** ** The monad of queue operations *)

Definition M (A : Type) : Type := world → option (A * world).

Global Instance M_ret : MRet M := λ A a w, Some (a, w).
Global Instance M_bind : MBind M :=
  λ A B f m w, match m w with Some (a, w') => f a w' | None => None end.

Definition abort {A : Type} : M A := λ _, None.
Definition get_world : M world := λ w, Some (w, w).
Definition modify (f : world → world) : M unit := λ w, Some (tt, f w).

(** [ASSERT(cond)]: a failed assertion stops the program. *)
Definition ASSERT (cond : bool) : M unit := if cond then mret tt else abort.

Definition log (c : call) : M unit :=
  modify (λ w, set_trace (trace w ++ [(c, queue w)]) w).

Definition set_mutex (b : bool) : M unit :=
  modify (λ w, set_queue (mkQueue (events (queue w)) (sources (queue w)) b) w).

(** The two vectors of the queue, as in [&queue->events] and
    [&queue->sources]. *)
Inductive queue_vector : Type := Events | Sources.

Definition vec_get (v : queue_vector) (q : ALLEGRO_EVENT_QUEUE) : list positive :=
  match v with Events => events q | Sources => sources q end.
Definition vec_set (v : queue_vector) (l : list positive)
    (q : ALLEGRO_EVENT_QUEUE) : ALLEGRO_EVENT_QUEUE :=
  match v with
  | Events => mkQueue l (sources q) (mutex q)
  | Sources => mkQueue (events q) l (mutex q)
  end.
Definition read_vector (v : queue_vector) : M (list positive) :=
  λ w, Some (vec_get v (queue w), w).
Definition write_vector (v : queue_vector) (l : list positive) : M unit :=
  modify (λ w, set_queue (vec_set v l (queue w)) w).

(** [*p] for an event pointer: there must be a record behind it. *)
Definition load (p : event_ptr) : M ALLEGRO_EVENT :=
  λ w, match heap w !! p with Some ev => Some (ev, w) | None => None end.
Definition store (p : event_ptr) (ev : ALLEGRO_EVENT) : M unit :=
  modify (λ w, set_heap (<[p := ev]> (heap w)) w).

(** [while (cond) body], unrolled at most [fuel] times. *)
Fixpoint while (fuel : nat) (cond : M bool) (body : M unit) : M unit :=
  b ← cond;
  if b : bool then
    match fuel with
    | O => abort
    | S fuel' => body ;; while fuel' cond body
    end
  else mret tt.

(** ** Collaborators of the queue *)

(** Modelled from the spec: [_AL_VECTOR] and its operations (vector.c is not
    part of the sources at hand).  The spec describes the buffer as an
    ordered sequence with removal at an index ([delete_at(i)]) and the
    sources as a membership list.  Every operation works in place on one of
    the two vectors of the queue. *)
Definition _al_vector_size (v : queue_vector) : M nat :=
  l ← read_vector v; mret (length l).
Definition _al_vector_is_empty (v : queue_vector) : M bool :=
  l ← read_vector v; mret (match l with [] => true | _ => false end).
Definition _al_vector_is_nonempty (v : queue_vector) : M bool :=
  b ← _al_vector_is_empty v; mret (negb b).
Definition _al_vector_ref (v : queue_vector) (i : nat) : M positive :=
  l ← read_vector v;
  match l !! i with Some x => mret x | None => abort end.
Definition _al_vector_ref_front (v : queue_vector) : M positive :=
  _al_vector_ref v 0.
Definition _al_vector_ref_back (v : queue_vector) : M positive :=
  n ← _al_vector_size v; _al_vector_ref v (n - 1)%nat.
(** [slot = _al_vector_alloc_back(v); *slot = x;] *)
Definition _al_vector_alloc_back (v : queue_vector) (x : positive) : M unit :=
  l ← read_vector v; write_vector v (l ++ [x]).
Definition _al_vector_delete_at (v : queue_vector) (i : nat) : M unit :=
  l ← read_vector v; write_vector v (delete i l).
(** Index of the first slot that holds [x]. *)
Fixpoint find_index (l : list positive) (x : positive) : option nat :=
  match l with
  | [] => None
  | y :: l' => if decide (y = x) then Some O else S <$> find_index l' x
  end.
Definition _al_vector_find (v : queue_vector) (x : positive) : M (option nat) :=
  l ← read_vector v; mret (find_index l x).
Definition _al_vector_contains (v : queue_vector) (x : positive) : M bool :=
  r ← _al_vector_find v x;
  mret (match r with Some _ => true | None => false end).
Definition _al_vector_find_and_delete (v : queue_vector) (x : positive) : M bool :=
  r ← _al_vector_find v x;
  match r with
  | Some i => _al_vector_delete_at v i ;; mret true
  | None => mret false
  end.
Definition _al_vector_free (v : queue_vector) : M unit := write_vector v [].

(** Modelled from the spec: the mutex is mutual exclusion around the buffer
    and the membership list; locking and unlocking are logged. *)
Definition _al_mutex_lock : M unit := log Call_mutex_lock ;; set_mutex true.
Definition _al_mutex_unlock : M unit := log Call_mutex_unlock ;; set_mutex false.
Definition _al_cond_broadcast : M unit := log Call_cond_broadcast.

(** Modelled from the spec: the hooks [on_registered] and [on_unregistered]
    of an event source are notifications only. *)
Definition _al_event_source_on_registration_to_queue (source : source_ptr) : M unit :=
  log (Call_on_registration_to_queue source).
Definition _al_event_source_on_unregistration_from_queue (source : source_ptr) : M unit :=
  log (Call_on_unregistration_from_queue source).

(** Modelled from the spec: [release(record)] decrements [ref_count]; when it
    reaches zero it delegates to the originating source's release hook (what
    the source then does with the record is its own business). *)
Definition _al_release_event (event : event_ptr) : M unit :=
  log (Call_release_event event) ;;
  ev ← load event;
  let rc := any_refcount ev - 1 in
  store event (set_refcount rc ev) ;;
  if decide (rc = 0) then log (Call_source_release_hook event) else mret tt.

(** ** The functions of events.c *)

Definition new_queue : ALLEGRO_EVENT_QUEUE := mkQueue [] [] false.

(** [al_create_event_queue]: [malloc_ok] tells whether [_AL_MALLOC] gave
    memory; without it there is no queue ([NULL]).  The store of event
    records and the clock are those of the program that creates the queue. *)
Definition al_create_event_queue (malloc_ok : bool)
    (h : gmap event_ptr ALLEGRO_EVENT) (now : Z) : option world :=
  if malloc_ok then
    Some (mkWorld new_queue h now [(Call_register_destructor, new_queue)])
  else None.

(** [al_register_event_source] *)
Definition al_register_event_source (source : source_ptr) : M unit :=
  member ← _al_vector_contains Sources source;
  if member : bool then mret tt
  else
    _al_event_source_on_registration_to_queue source ;;
    _al_vector_alloc_back Sources source.

(** The loop of [al_unregister_event_source] over the buffer, with its index
    [i]; every turn either deletes a record or advances [i]. *)
Fixpoint unregister_scan (fuel : nat) (source : source_ptr) (i : nat) : M unit :=
  n ← _al_vector_size Events;
  if bool_decide (i < n)%nat then
    match fuel with
    | O => abort
    | S fuel' =>
        event ← _al_vector_ref Events i;
        ev ← load event;
        if decide (any_source ev = source) then
          _al_release_event event ;;
          _al_vector_delete_at Events i ;;
          unregister_scan fuel' source i
        else unregister_scan fuel' source (S i)
    end
  else mret tt.

(** [al_unregister_event_source] *)
Definition al_unregister_event_source (source : source_ptr) : M unit :=
  found ← _al_vector_find_and_delete Sources source;
  if negb found then mret tt
  else
    _al_event_source_on_unregistration_from_queue source ;;
    n ← _al_vector_size Events;
    unregister_scan n source 0.

(** One turn of the loop of [al_destroy_event_queue]. *)
Definition destroy_body : M unit :=
  slot ← _al_vector_ref_back Sources;
  al_unregister_event_source slot.

(** [al_destroy_event_queue] *)
Definition al_destroy_event_queue : M unit :=
  log Call_unregister_destructor ;;
  n ← _al_vector_size Sources;
  while n (_al_vector_is_nonempty Sources) destroy_body ;;
  b ← _al_vector_is_empty Events;
  ASSERT b ;;
  b ← _al_vector_is_empty Sources;
  ASSERT b ;;
  _al_vector_free Events ;;
  _al_vector_free Sources ;;
  log Call_free_queue.

(** [al_event_queue_is_empty] *)
Definition al_event_queue_is_empty : M bool := _al_vector_is_empty Events.

(** [get_next_event_if_any]: the next event of the queue or [NULL]. *)
Definition get_next_event_if_any (delete : bool) : M (option event_ptr) :=
  b ← _al_vector_is_empty Events;
  if b : bool then mret None
  else
    event ← _al_vector_ref_front Events;
    (if delete then _al_vector_delete_at Events 0 (* inefficient *) else mret tt) ;;
    mret (Some event).

(** [_al_copy_event]: [*dest = *src] and the internal fields reset. *)
Definition _al_copy_event (dest src : ALLEGRO_EVENT) : ALLEGRO_EVENT :=
  mkEvent (any_type src) (any_source src) (any_timestamp src) 0 None None
          (payload src).

(** [get_peek_or_drop_next_event].  [do_copy] is the caller's record
    ([None] for a [NULL] pointer); the second component of the result is that
    record as the call leaves it. *)
Definition get_peek_or_drop_next_event (do_copy : option ALLEGRO_EVENT)
    (do_release : bool) : M (bool * option ALLEGRO_EVENT) :=
  _al_mutex_lock ;;
  next_event ← get_next_event_if_any do_release;
  _al_mutex_unlock ;;
  match next_event with
  | None => mret (false, do_copy)
  | Some event =>
      ret ← match do_copy with
            | Some dest => src ← load event; mret (Some (_al_copy_event dest src))
            | None => mret None
            end;
      (if do_release then _al_release_event event else mret tt) ;;
      mret (true, ret)
  end.

Definition al_get_next_event (ret_event : ALLEGRO_EVENT)
  : M (bool * option ALLEGRO_EVENT) :=
  get_peek_or_drop_next_event (Some ret_event) true.

Definition al_peek_next_event (ret_event : ALLEGRO_EVENT)
  : M (bool * option ALLEGRO_EVENT) :=
  get_peek_or_drop_next_event (Some ret_event) false.

Definition al_drop_next_event : M unit :=
  get_peek_or_drop_next_event None true ;; mret tt.

(** One turn of the loop of [al_flush_event_queue]: the last record is taken
    out under the lock and released with the lock dropped. *)
Definition flush_body : M unit :=
  n ← _al_vector_size Events;
  let i := (n - 1)%nat in
  event ← _al_vector_ref Events i;
  _al_vector_delete_at Events i ;;
  (* must release while queue is unlocked *)
  _al_mutex_unlock ;;
  _al_release_event event ;;
  _al_mutex_lock.

(** [al_flush_event_queue] *)
Definition al_flush_event_queue : M unit :=
  _al_mutex_lock ;;
  n ← _al_vector_size Events;
  while n (_al_vector_is_nonempty Events) flush_body ;;
  _al_mutex_unlock.

(** [_al_event_queue_push_event]; [event->any._refcount++] is an increment of
    an [int]. *)
Definition _al_event_queue_push_event (event : event_ptr) : M unit :=
  _al_mutex_lock ;;
  n ← _al_vector_size Events;
  (if bool_decide (n < MAX_QUEUE_SIZE)%nat then
     ev ← load event;
     let rc := to_int (any_refcount ev + 1) in
     store event (set_refcount rc ev) ;;
     ASSERT (bool_decide (rc > 0)) ;;
     _al_vector_alloc_back Events event ;;
     _al_cond_broadcast
   else mret tt) ;;
  _al_mutex_unlock.

(** ** The wait protocol *)

(** What happens while the consumer sleeps on the condition variable with the
    mutex released: time passes, producers push events, and the wait returns
    a result code. *)
Record wakeup : Type := mkWakeup {
  wk_elapsed : Z;
  wk_pushed : list event_ptr;
  wk_result : Z
}.

Fixpoint push_all (es : list event_ptr) : M unit :=
  match es with
  | [] => mret tt
  | e :: es' => _al_event_queue_push_event e ;; push_all es'
  end.

(** The producers' part of a wake-up. *)
Definition producers (wk : wakeup) : M unit :=
  modify (λ w, set_clock (clock w + wk_elapsed wk) w) ;;
  push_all (wk_pushed wk).

(** Modelled from the spec: [al_current_time] reads the monotonic clock. *)
Definition al_current_time : M Z :=
  log Call_current_time ;; w ← get_world; mret (clock w).

(** Modelled from the spec: [cond_wait(not_empty, lock)] releases the mutex,
    sleeps, and holds the mutex again when it returns. *)
Definition _al_cond_wait (wk : wakeup) : M unit :=
  log Call_cond_wait ;;
  set_mutex false ;; producers wk ;; set_mutex true.

(** Modelled from the spec: [cond_timedwait(not_empty, lock, deadline)] does the
    same and reports how it woke up; [-1] is a time-out. *)
Definition _al_cond_timedwait (wk : wakeup) (timeout : Z) : M Z :=
  log (Call_cond_timedwait timeout) ;;
  set_mutex false ;; producers wk ;; set_mutex true ;;
  mret (wk_result wk).

(** A timed wait that nothing interrupts ends by the deadline passing. *)
Definition expiry : wakeup := mkWakeup 0 [] (-1).

Section Wait.

(** Width of [unsigned long] and the value of the macro
    [ALLEGRO_WAIT_FOREVER]: both come from headers of the platform and of
    the library. *)
Variable ulong_bits : Z.
Variable ALLEGRO_WAIT_FOREVER : Z.

(** Conversion to [unsigned long]. *)
Definition to_ulong (z : Z) : Z := z mod 2 ^ ulong_bits.

(** The loop of [wait_on_queue_forever]; [env] scripts the wake-ups.  With
    the script used up and the queue still empty the wait never returns. *)
Fixpoint forever_loop (env : list wakeup) : M unit :=
  b ← _al_vector_is_empty Events;
  if b : bool then
    match env with
    | [] => abort
    | wk :: env' => _al_cond_wait wk ;; forever_loop env'
    end
  else mret tt.

(** [wait_on_queue_forever] *)
Definition wait_on_queue_forever (env : list wakeup)
    (ret_event : option ALLEGRO_EVENT) : M (option ALLEGRO_EVENT) :=
  _al_mutex_lock ;;
  forever_loop env ;;
  next_event ← match ret_event with
               | Some _ => get_next_event_if_any true
               | None => mret None
               end;
  _al_mutex_unlock ;;
  match ret_event with
  | Some dest =>
      match next_event with
      | Some event =>
          src ← load event;
          _al_release_event event ;;
          mret (Some (_al_copy_event dest src))
      | None => abort   (* ASSERT(next_event) *)
      end
  | None => mret None
  end.

(** The loop of [wait_on_queue_timed], with its variable [result]. *)
Fixpoint timed_loop (env : list wakeup) (timeout result : Z) : M Z :=
  b ← _al_vector_is_empty Events;
  if b && bool_decide (result ≠ -1) then
    match env with
    | [] => _al_cond_timedwait expiry timeout
    | wk :: env' =>
        result' ← _al_cond_timedwait wk timeout;
        timed_loop env' timeout result'
    end
  else mret result.

(** [wait_on_queue_timed] *)
Definition wait_on_queue_timed (env : list wakeup)
    (ret_event : option ALLEGRO_EVENT) (msecs : Z)
  : M (bool * option ALLEGRO_EVENT) :=
  now ← al_current_time;
  let timeout := to_ulong (now + msecs) in
  _al_mutex_lock ;;
  result ← timed_loop env timeout 0;
  let timed_out := bool_decide (result = -1) in
  next_event ← (if timed_out then mret None
                else match ret_event with
                     | Some _ => get_next_event_if_any true
                     | None => mret None
                     end);
  _al_mutex_unlock ;;
  if timed_out then mret (false, ret_event)
  else
    match ret_event with
    | Some dest =>
        match next_event with
        | Some event =>
            src ← load event;
            _al_release_event event ;;
            mret (true, Some (_al_copy_event dest src))
        | None => abort   (* ASSERT(next_event) *)
        end
    | None => mret (true, None)
    end.

(** [al_wait_for_event] *)
Definition al_wait_for_event (env : list wakeup)
    (ret_event : option ALLEGRO_EVENT) (msecs : Z)
  : M (bool * option ALLEGRO_EVENT) :=
  ASSERT (bool_decide (msecs = ALLEGRO_WAIT_FOREVER) || bool_decide (msecs >= 0)) ;;
  if bool_decide (msecs = ALLEGRO_WAIT_FOREVER) then
    ret ← wait_on_queue_forever env ret_event; mret (true, ret)
  else wait_on_queue_timed env ret_event msecs.

End Wait.

(** ** Vocabulary of the statements *)

(** Running the straight-line part of a computation. *)
Ltac mrun :=
  cbv beta iota zeta delta
    [_al_vector_size _al_vector_is_empty _al_vector_is_nonempty
     _al_vector_ref_front _al_vector_ref_back _al_vector_ref
     _al_vector_alloc_back _al_vector_delete_at _al_vector_find_and_delete
     _al_vector_contains _al_vector_find _al_vector_free
     _al_mutex_lock _al_mutex_unlock _al_cond_broadcast
     _al_event_source_on_registration_to_queue
     _al_event_source_on_unregistration_from_queue
     read_vector write_vector log set_mutex store load modify get_world
     abort ASSERT mbind M_bind mret M_ret];
  simpl.

(** The event pointers a stretch of the log hands to [_al_release_event]. *)
Definition released (t : list (call * ALLEGRO_EVENT_QUEUE)) : list event_ptr :=
  omap (λ x, match x.1 with Call_release_event e => Some e | _ => None end) t.

(** What one call of [_al_release_event] on record [ev] at [e] logs. *)
Definition release_calls (e : event_ptr) (ev : ALLEGRO_EVENT)
    (q : ALLEGRO_EVENT_QUEUE) : list (call * ALLEGRO_EVENT_QUEUE) :=
  (Call_release_event e, q) ::
  (if decide (any_refcount ev - 1 = 0) then [(Call_source_release_hook e, q)] else []).

Global Arguments release_calls : simpl never.

(** A record on which [k] more holds can be taken: it exists, its count is
    not negative and [k] increments do not take it past [INT_MAX]. *)
Definition headroom (k : nat) (h : gmap event_ptr ALLEGRO_EVENT) (e : event_ptr) : bool :=
  match h !! e with
  | Some ev => bool_decide (0 ≤ any_refcount ev ∧ any_refcount ev + Z.of_nat k ≤ INT_MAX)
  | None => false
  end.

(** A record the queue can take, however full or empty the buffer is: there
    is room in its count for one hold per slot of the buffer. *)
Definition pushable (h : gmap event_ptr ALLEGRO_EVENT) (e : event_ptr) : bool :=
  headroom MAX_QUEUE_SIZE h e.

Definition allocated (h : gmap event_ptr ALLEGRO_EVENT) (e : event_ptr) : bool :=
  match h !! e with Some _ => true | None => false end.

Fixpoint get_n (n : nat) (ret_event : ALLEGRO_EVENT)
  : M (list (bool * option ALLEGRO_EVENT)) :=
  match n with
  | O => mret []
  | S n' =>
      r ← al_get_next_event ret_event;
      rs ← get_n n' ret_event;
      mret (r :: rs)
  end.

Fixpoint drain (fuel : nat) (ret_event : ALLEGRO_EVENT) : M (list ALLEGRO_EVENT) :=
  match fuel with
  | O => abort
  | S fuel' =>
      r ← al_get_next_event ret_event;
      match r with
      | (true, Some ev) => evs ← drain fuel' ret_event; mret (ev :: evs)
      | _ => mret []
      end
  end.

(** Two stores that hold the same records up to the reference counts. *)
Definition same_contents (h1 h2 : gmap event_ptr ALLEGRO_EVENT) : Prop :=
  ∀ p, set_refcount 0 <$> h1 !! p = set_refcount 0 <$> h2 !! p.

(** Calls a producer's push logs. *)
Definition producer_call (c : call) : bool :=
  match c with
  | Call_mutex_lock | Call_mutex_unlock | Call_cond_broadcast => true
  | _ => false
  end.

Ltac gpd_unfold :=
  unfold al_get_next_event, al_peek_next_event, al_drop_next_event,
    get_peek_or_drop_next_event, get_next_event_if_any.

(** The log of a lock/unlock pair around the buffer becoming [evs]. *)
Definition lock_unlock (q : ALLEGRO_EVENT_QUEUE) (evs : list event_ptr)
  : list (call * ALLEGRO_EVENT_QUEUE) :=
  [(Call_mutex_lock, q); (Call_mutex_unlock, mkQueue evs (sources q) true)].

Definition release_or_hook (c : call) : bool :=
  match c with
  | Call_release_event _ | Call_source_release_hook _ => true
  | _ => false
  end.

(** The record at [e] names [s] as its source. *)
Definition came_from (h : gmap event_ptr ALLEGRO_EVENT) (s : source_ptr)
    (e : event_ptr) : Prop :=
  any_source <$> h !! e = Some s.

Global Instance came_from_dec h s e : Decision (came_from h s e).
Proof. unfold came_from. apply _. Defined.

(** [m] never leaves the relation [R] between the world it starts in and the
    world it ends in. *)
Definition respects (R : world → world → Prop) {A : Type} (m : M A) : Prop :=
  ∀ w a w', m w = Some (a, w') → R w w'.

(** The producers' part of a series of wake-ups, with no consumer around. *)
Fixpoint producers_only (ws : list wakeup) : M unit :=
  match ws with
  | [] => mret tt
  | wk :: ws' => producers wk ;; producers_only ws'
  end.

(** The variable [result] of [wait_on_queue_timed] after the wake-ups [ws]. *)
Definition final_result (r : Z) (ws : list wakeup) : Z :=
  foldl (λ _ wk, wk_result wk) r ws.

Definition env_pushable (h : gmap event_ptr ALLEGRO_EVENT) (env : list wakeup) : bool :=
  forallb (λ wk, forallb (pushable h) (wk_pushed wk)) env.

Definition quiet (env : list wakeup) : bool :=
  forallb (λ wk, bool_decide (wk_pushed wk = [])) env.

(** Wake-ups without cause: nothing was pushed and no time-out is reported. *)
Definition spurious (env : list wakeup) : bool :=
  forallb (λ wk, bool_decide (wk_pushed wk = []) && bool_decide (wk_result wk ≠ -1)) env.

(** A wake-up that ends the loop of [wait_on_queue_timed]: it reports a
    time-out, or producers pushed while the consumer slept. *)
Definition ends_sleep (wk : wakeup) : bool :=
  bool_decide (wk_result wk = -1) || negb (bool_decide (wk_pushed wk = [])).

(** The wake-ups of a script up to the first that ends the loop. *)
Fixpoint until_woken (l : list wakeup) : list wakeup :=
  match l with
  | [] => []
  | wk :: l' => if ends_sleep wk then [wk] else wk :: until_woken l'
  end.

(** The wake-ups the loop of [wait_on_queue_timed] goes through when it is
    entered with the buffer [evs], the variable [result] at [r] and the
    script [env]: none when the buffer holds an event or [r] is a time-out;
    otherwise those of the script up to the first that ends the loop, the
    deadline passing at the end of a script that has none. *)
Definition slept (evs : list event_ptr) (r : Z) (env : list wakeup) : list wakeup :=
  if bool_decide (evs = []) && bool_decide (r ≠ -1)
  then until_woken (env ++ [expiry]) else [].

(** Two worlds that differ in the log and the state of the mutex only. *)
Definition same_state (w v : world) : Prop :=
  events (queue w) = events (queue v) ∧ sources (queue w) = sources (queue v) ∧
  heap w = heap v ∧ clock w = clock v.

(** The deadlines a stretch of the log hands to [_al_cond_timedwait]. *)
Definition deadlines (t : list (call * ALLEGRO_EVENT_QUEUE)) : list Z :=
  omap (λ x, match x.1 with Call_cond_timedwait d => Some d | _ => None end) t.

(** The record at the head of the buffer exists. *)
Definition head_allocated (w : world) : bool :=
  match events (queue w) with
  | e :: _ => allocated (heap w) e
  | [] => true
  end.

(** The operations of the queue, as a client can issue them. *)
Inductive op : Type :=
| Op_push (e : event_ptr)
| Op_get_next (ret_event : ALLEGRO_EVENT)
| Op_peek_next (ret_event : ALLEGRO_EVENT)
| Op_drop_next
| Op_flush
| Op_is_empty
| Op_wait (env : list wakeup) (ret_event : option ALLEGRO_EVENT) (msecs : Z)
| Op_register (s : source_ptr)
| Op_unregister (s : source_ptr)
| Op_destroy.

Definition run_op (ulong_bits forever : Z) (o : op) : M unit :=
  match o with
  | Op_push e => _al_event_queue_push_event e
  | Op_get_next ret_event => al_get_next_event ret_event ;; mret tt
  | Op_peek_next ret_event => al_peek_next_event ret_event ;; mret tt
  | Op_drop_next => al_drop_next_event
  | Op_flush => al_flush_event_queue
  | Op_is_empty => al_event_queue_is_empty ;; mret tt
  | Op_wait env ret_event msecs =>
      al_wait_for_event ulong_bits forever env ret_event msecs ;; mret tt
  | Op_register s => al_register_event_source s
  | Op_unregister s => al_unregister_event_source s
  | Op_destroy => al_destroy_event_queue
  end.

Definition modifies_sources (o : op) : bool :=
  match o with
  | Op_register _ | Op_unregister _ | Op_destroy => true
  | _ => false
  end.

(** The bound on the buffer. *)
Definition buffer_bounded (w : world) : Prop :=
  (length (events (queue w)) ≤ MAX_QUEUE_SIZE)%nat.

(** Sample data. *)
Definition sample_event (s : source_ptr) (t : Z) : ALLEGRO_EVENT :=
  mkEvent 1 s t 0 None None [t].

Definition sample_heap : gmap event_ptr ALLEGRO_EVENT :=
  list_to_map
    [(1%positive, sample_event 7 10); (2%positive, sample_event 8 20);
     (3%positive, sample_event 7 30); (4%positive, sample_event 8 40);
     (5%positive, sample_event 7 50)].

Definition sample_world (evs : list event_ptr) (srcs : list source_ptr) : world :=
  mkWorld (mkQueue evs srcs false) sample_heap 100 [].

Definition many_events (n : nat) : list event_ptr :=
  map Pos.of_succ_nat (seq 0 n).

Definition many_heap (n : nat) : gmap event_ptr ALLEGRO_EVENT :=
  list_to_map (map (λ e, (e, sample_event 7 (Z.pos e))) (many_events n)).

Definition keeps_sources (w w' : world) : Prop :=
  sources (queue w') = sources (queue w).

Definition keeps_bound (w w' : world) : Prop :=
  buffer_bounded w → buffer_bounded w'.

(** The calls of a stretch of the log that tell a source it was
    unregistered. *)
Definition unregistrations (t : list (call * ALLEGRO_EVENT_QUEUE)) : list source_ptr :=
  omap (λ x, match x.1 with
             | Call_on_unregistration_from_queue s => Some s
             | _ => None
             end) t.

(** ** Further vocabulary: kinds of calls, holds on records, the mutex *)

(** Calls on the mutex. *)
Definition mutex_call (c : call) : bool :=
  match c with
  | Call_mutex_lock | Call_mutex_unlock => true
  | _ => false
  end.

(** Calls on the condition variable by a consumer that waits. *)
Definition wait_call (c : call) : bool :=
  match c with
  | Call_cond_wait | Call_cond_timedwait _ => true
  | _ => false
  end.

(** The calls of a stretch of the log that signal the condition variable,
    each with the buffer as it was then. *)
Definition broadcasts (t : list (call * ALLEGRO_EVENT_QUEUE)) : list (list event_ptr) :=
  omap (λ x, match x.1 with
             | Call_cond_broadcast => Some (events x.2)
             | _ => None
             end) t.

(** Calls that tell a collaborator of a change of the queue. *)
Definition notice_call (c : call) : bool :=
  match c with
  | Call_register_destructor | Call_unregister_destructor
  | Call_on_registration_to_queue _ | Call_on_unregistration_from_queue _
  | Call_free_queue => true
  | _ => false
  end.

(** Calls of a consumer that waits, and of a producer that wakes it. *)
Definition signal_call (c : call) : bool :=
  match c with
  | Call_cond_wait | Call_cond_timedwait _ | Call_cond_broadcast
  | Call_current_time => true
  | _ => false
  end.

(** The store after one release of the record at [e], and after one more
    hold on it. *)
Definition unretain (h : gmap event_ptr ALLEGRO_EVENT) (e : event_ptr)
  : gmap event_ptr ALLEGRO_EVENT :=
  match h !! e with
  | Some ev => <[e := set_refcount (any_refcount ev - 1) ev]> h
  | None => h
  end.

Definition retain (h : gmap event_ptr ALLEGRO_EVENT) (e : event_ptr)
  : gmap event_ptr ALLEGRO_EVENT :=
  match h !! e with
  | Some ev => <[e := set_refcount (any_refcount ev + 1) ev]> h
  | None => h
  end.

(** Operations through which records enter the queue. *)
Definition produces (o : op) : bool :=
  match o with
  | Op_push _ | Op_wait _ _ _ => true
  | _ => false
  end.

(** Operations that work under the mutex of the queue. *)
Definition takes_lock (o : op) : bool :=
  match o with
  | Op_register _ | Op_unregister _ | Op_destroy | Op_is_empty => false
  | _ => true
  end.

(** Relations between the world an operation finds and the world it leaves:
    the records are the same up to their counts; the store changed by the
    releases of the log and nothing else; the mutex was left alone. *)
Definition keeps_contents (w w' : world) : Prop :=
  same_contents (heap w) (heap w').

Definition releases_only (w w' : world) : Prop :=
  ∃ new, trace w' = trace w ++ new ∧
         heap w' = foldl unretain (heap w) (released new).

Definition leaves_mutex (w w' : world) : Prop :=
  mutex (queue w') = mutex (queue w) ∧
  ∃ new, trace w' = trace w ++ new ∧
         Forall (λ x, mutex_call x.1 = false ∧ mutex x.2 = mutex (queue w)) new.

(** The number of times a stretch of the log goes to sleep on the condition
    variable. *)
Definition waits (t : list (call * ALLEGRO_EVENT_QUEUE)) : nat :=
  length (filter (λ x, wait_call x.1 = true) t).

(** Whether call [c] may be made with the mutex of the queue held ([held]) or
    free: the mutex is locked when free and unlocked when held, the
    condition variable is used with the mutex held, and records are
    released with the mutex free. *)
Definition fits (c : call) (held : bool) : bool :=
  match c with
  | Call_mutex_lock => negb held
  | Call_mutex_unlock => held
  | Call_cond_broadcast | Call_cond_wait | Call_cond_timedwait _ => held
  | Call_release_event _ | Call_source_release_hook _ => negb held
  | _ => true
  end.

Definition mutex_protocol (t : list (call * ALLEGRO_EVENT_QUEUE)) : Prop :=
  Forall (λ x, fits x.1 (mutex x.2) = true) t.

(** [m], started with the mutex in state [b], ends with it in state [b'] and
    keeps to the protocol. *)
Definition locks (b b' : bool) {A : Type} (m : M A) : Prop :=
  ∀ w a w', mutex (queue w) = b → m w = Some (a, w') →
    mutex (queue w') = b' ∧
    ∃ new, trace w' = trace w ++ new ∧ mutex_protocol new.

(** The record at [e] names none of [srcs] as its source. *)
Definition foreign (h : gmap event_ptr ALLEGRO_EVENT) (srcs : list source_ptr)
    (e : event_ptr) : Prop :=
  Forall (λ s, ¬ came_from h s e) srcs.

Global Instance foreign_dec h srcs e : Decision (foreign h srcs e).
Proof. unfold foreign. apply _. Defined.

(** The records of [evs] by source, the sources taken in the order of [srcs]. *)
Definition by_source (h : gmap event_ptr ALLEGRO_EVENT) (srcs : list source_ptr)
    (evs : list event_ptr) : list event_ptr :=
  flat_map (λ s, filter (came_from h s) evs) srcs.

(** How often [p] occurs in [es]. *)
Definition occurrences (es : list event_ptr) (p : event_ptr) : Z :=
  Z.of_nat (length (filter (λ x, x = p) es)).

(** The record [ev] with [k] more holds on it. *)
Definition add_holds (k : Z) (ev : ALLEGRO_EVENT) : ALLEGRO_EVENT :=
  set_refcount (any_refcount ev + k) ev.


(** [n] calls of [al_drop_next_event]. *)
Fixpoint drop_n (n : nat) : M unit :=
  match n with
  | O => mret tt
  | S n' => al_drop_next_event ;; drop_n n'
  end.

(** ** Running computations *)

Lemma world_eq (w1 w2 : world) :
  queue w1 = queue w2 → heap w1 = heap w2 → clock w1 = clock w2 →
  trace w1 = trace w2 → w1 = w2.
Proof. destruct w1, w2; simpl; congruence. Qed.

Lemma bind_Some {A B : Type} (m : M A) (f : A → M B) (w w1 : world) (a : A) :
  m w = Some (a, w1) → (m ≫= f) w = f a w1.
Proof. intros H. unfold mbind, M_bind. by rewrite H. Qed.

Lemma bind_inv {A B : Type} (m : M A) (f : A → M B) (w w2 : world) (b : B) :
  (m ≫= f) w = Some (b, w2) →
  ∃ a w1, m w = Some (a, w1) ∧ f a w1 = Some (b, w2).
Proof.
  unfold mbind, M_bind. destruct (m w) as [[a w1]|] eqn:E; [|done].
  intros H. by exists a, w1.
Qed.

(** ** Release and push *)

Lemma released_app t1 t2 : released (t1 ++ t2) = released t1 ++ released t2.
Proof. unfold released. apply omap_app. Qed.

Lemma released_cons c q t :
  released ((c, q) :: t) =
  match c with Call_release_event e => e :: released t | _ => released t end.
Proof. by destruct c. Qed.

Lemma released_release_calls e ev q : released (release_calls e ev q) = [e].
Proof. unfold release_calls. by destruct (decide _). Qed.

Lemma release_spec e ev w :
  heap w !! e = Some ev →
  ∃ w', _al_release_event e w = Some (tt, w') ∧
        queue w' = queue w ∧
        heap w' = <[e := set_refcount (any_refcount ev - 1) ev]> (heap w) ∧
        clock w' = clock w ∧
        trace w' = trace w ++ release_calls e ev (queue w).
Proof.
  intros He. unfold _al_release_event, release_calls. mrun. rewrite He. simpl.
  destruct (decide _); mrun; eexists; (split; [reflexivity|]); simpl;
    rewrite <- ?app_assoc; done.
Qed.

Lemma release_None e w : heap w !! e = None → _al_release_event e w = None.
Proof. intros He. unfold _al_release_event. mrun. by rewrite He. Qed.

Lemma push_full_spec e w :
  (MAX_QUEUE_SIZE ≤ length (events (queue w)))%nat →
  ∃ w', _al_event_queue_push_event e w = Some (tt, w') ∧
        events (queue w') = events (queue w) ∧
        sources (queue w') = sources (queue w) ∧
        mutex (queue w') = false ∧
        heap w' = heap w ∧
        clock w' = clock w ∧
        trace w' = trace w ++
          [(Call_mutex_lock, queue w);
           (Call_mutex_unlock, mkQueue (events (queue w)) (sources (queue w)) true)].
Proof.
  intros H.
  unfold _al_event_queue_push_event. mrun. rewrite bool_decide_eq_false_2 by lia. simpl.
  eexists; split; [reflexivity|]. simpl. rewrite <- ?app_assoc. done.
Qed.

Lemma to_int_small z : INT_MIN ≤ z ≤ INT_MAX → to_int z = z.
Proof.
  unfold to_int, INT_MIN, INT_MAX. intros H.
  rewrite Z.mod_small by lia. lia.
Qed.

Lemma push_room_spec e ev w :
  (length (events (queue w)) < MAX_QUEUE_SIZE)%nat →
  heap w !! e = Some ev → 0 ≤ any_refcount ev < INT_MAX →
  ∃ w', _al_event_queue_push_event e w = Some (tt, w') ∧
        events (queue w') = events (queue w) ++ [e] ∧
        sources (queue w') = sources (queue w) ∧
        mutex (queue w') = false ∧
        heap w' = <[e := set_refcount (any_refcount ev + 1) ev]> (heap w) ∧
        clock w' = clock w ∧
        trace w' = trace w ++
          [(Call_mutex_lock, queue w);
           (Call_cond_broadcast,
            mkQueue (events (queue w) ++ [e]) (sources (queue w)) true);
           (Call_mutex_unlock,
            mkQueue (events (queue w) ++ [e]) (sources (queue w)) true)].
Proof.
  intros H He Hrc.
  unfold _al_event_queue_push_event. mrun. rewrite bool_decide_eq_true_2 by lia. simpl. rewrite He.
  rewrite to_int_small by (unfold INT_MIN; lia).
  rewrite bool_decide_eq_true_2 by lia. simpl.
  eexists; split; [reflexivity|]. simpl. rewrite <- ?app_assoc. done.
Qed.


Lemma same_contents_refl h : same_contents h h.
Proof. done. Qed.

Lemma same_contents_trans h1 h2 h3 :
  same_contents h1 h2 → same_contents h2 h3 → same_contents h1 h3.
Proof. intros H12 H23 p. by rewrite H12. Qed.

Lemma same_contents_insert h e ev rc :
  h !! e = Some ev → same_contents h (<[e := set_refcount rc ev]> h).
Proof.
  intros He p. destruct (decide (e = p)) as [->|Hne].
  - rewrite lookup_insert_eq, He. done.
  - by rewrite lookup_insert_ne.
Qed.

Lemma same_contents_copy h1 h2 p ret :
  same_contents h1 h2 →
  _al_copy_event ret <$> h1 !! p = _al_copy_event ret <$> h2 !! p.
Proof.
  intros H. specialize (H p).
  destruct (h1 !! p) as [a|], (h2 !! p) as [b|]; simpl in *; try done.
  destruct a as [t1 s1 ts1 r1 n1 f1 p1], b as [t2 s2 ts2 r2 n2 f2 p2].
  unfold set_refcount in H. simpl in H. inversion H; subst. reflexivity.
Qed.

Lemma same_contents_source h1 h2 p :
  same_contents h1 h2 → any_source <$> h1 !! p = any_source <$> h2 !! p.
Proof.
  intros H. specialize (H p).
  destruct (h1 !! p) as [a|], (h2 !! p) as [b|]; simpl in *; try done.
  destruct a as [t1 s1 ts1 r1 n1 f1 p1], b as [t2 s2 ts2 r2 n2 f2 p2].
  unfold set_refcount in H. simpl in H. inversion H; subst. reflexivity.
Qed.

Lemma allocated_insert h e ev p :
  allocated h p = true → allocated (<[e := ev]> h) p = true.
Proof.
  unfold allocated. destruct (decide (e = p)) as [->|Hne].
  - by rewrite lookup_insert_eq.
  - by rewrite lookup_insert_ne.
Qed.

Lemma headroom_inv k h p :
  headroom k h p = true →
  ∃ ev, h !! p = Some ev ∧ 0 ≤ any_refcount ev ∧ any_refcount ev + Z.of_nat k ≤ INT_MAX.
Proof.
  unfold headroom. destruct (h !! p) as [ev|]; [|done].
  intros H%bool_decide_eq_true. eauto.
Qed.

Lemma headroom_le k k' h p :
  (k' ≤ k)%nat → headroom k h p = true → headroom k' h p = true.
Proof.
  unfold headroom. intros Hk. destruct (h !! p) as [ev|]; [|done].
  intros H%bool_decide_eq_true. apply bool_decide_eq_true. lia.
Qed.

(** A hold taken uses up one unit of the room of every record. *)
Lemma headroom_insert k h e ev p :
  h !! e = Some ev →
  headroom (S k) h p = true →
  headroom k (<[e := set_refcount (any_refcount ev + 1) ev]> h) p = true.
Proof.
  intros He. unfold headroom. destruct (decide (e = p)) as [->|Hne].
  - rewrite lookup_insert_eq, He. intros H%bool_decide_eq_true.
    apply bool_decide_eq_true. simpl. lia.
  - rewrite lookup_insert_ne by done. destruct (h !! p) as [ev'|]; [|done].
    intros H%bool_decide_eq_true. apply bool_decide_eq_true. lia.
Qed.

Lemma headroom_allocated k h p : headroom k h p = true → allocated h p = true.
Proof. unfold headroom, allocated. by destruct (h !! p). Qed.

Lemma pushable_allocated h p : pushable h p = true → allocated h p = true.
Proof. apply headroom_allocated. Qed.

Lemma pushable_inv h p :
  pushable h p = true → ∃ ev, h !! p = Some ev ∧ 0 ≤ any_refcount ev.
Proof.
  intros H. destruct (headroom_inv _ _ _ H) as (ev & Hev & Hrc & _). eauto.
Qed.

Lemma pushable_headroom k h p :
  (k ≤ MAX_QUEUE_SIZE)%nat → pushable h p = true → headroom k h p = true.
Proof. apply headroom_le. Qed.

Lemma forallb_impl {A} (f g : A → bool) (l : list A) :
  (∀ x, f x = true → g x = true) → forallb f l = true → forallb g l = true.
Proof.
  intros Hfg. induction l as [|x l IH]; simpl; [done|].
  intros [Hx Hl]%andb_true_iff. apply andb_true_iff. auto.
Qed.

(** Pushes of records that have room in their counts for one hold per free
    slot of the buffer. *)
Lemma push_all_headroom es : ∀ w,
  (length (events (queue w)) ≤ MAX_QUEUE_SIZE)%nat →
  forallb (headroom (MAX_QUEUE_SIZE - length (events (queue w))) (heap w)) es = true →
  ∃ w' new, push_all es w = Some (tt, w') ∧
        events (queue w') = take MAX_QUEUE_SIZE (events (queue w) ++ es) ∧
        sources (queue w') = sources (queue w) ∧
        same_contents (heap w) (heap w') ∧
        (∀ p, headroom (MAX_QUEUE_SIZE - length (events (queue w))) (heap w) p = true →
              headroom (MAX_QUEUE_SIZE - length (events (queue w'))) (heap w') p = true) ∧
        (es = [] → w' = w) ∧
        clock w' = clock w ∧
        trace w' = trace w ++ new ∧
        Forall (λ x, producer_call x.1 = true) new.
Proof.
  induction es as [|e es IH]; intros w Hlen Hes.
  - exists w, []. simpl. rewrite !app_nil_r, take_ge by done.
    repeat split; auto using same_contents_refl.
  - simpl in Hes. apply andb_true_iff in Hes as [He Hes].
    destruct (decide (length (events (queue w)) < MAX_QUEUE_SIZE)%nat) as [Hlt|Hge].
    + destruct (headroom_inv _ _ _ He) as (ev & Hev & Hrc & Hmax).
      destruct (push_room_spec e ev w Hlt Hev)
        as (w1 & Hrun & Hevs & Hsrc & _ & Hheap & Hclk & Htr); [lia|].
      assert (∀ p, headroom (MAX_QUEUE_SIZE - length (events (queue w))) (heap w) p = true →
                   headroom (MAX_QUEUE_SIZE - length (events (queue w1))) (heap w1) p = true)
        as Hstep.
      { intros p Hp. rewrite Hheap, Hevs, length_app. simpl. apply headroom_insert; [done|].
        eapply headroom_le; [|exact Hp]. lia. }
      destruct (IH w1) as (w' & new & Hrun' & Hevs' & Hsrc' & Hsim & Hmono & _ & Hclk' & Htr' & Hnew).
      { rewrite Hevs, length_app. simpl. lia. }
      { eapply forallb_impl; [|exact Hes]. exact Hstep. }
      exists w'. eexists. simpl. rewrite (bind_Some _ _ _ _ _ Hrun).
      split; [exact Hrun'|].
      split. { by rewrite Hevs', Hevs, <- app_assoc. }
      split; [congruence|].
      split. { eapply same_contents_trans; [|exact Hsim]. rewrite Hheap.
               by apply same_contents_insert. }
      split. { intros p Hp. apply Hmono. by apply Hstep. }
      split; [done|]. split; [congruence|].
      split. { rewrite Htr', Htr, <- app_assoc. reflexivity. }
      apply Forall_app. split; [|done]. repeat constructor.
    + destruct (push_full_spec e w) as (w1 & Hrun & Hevs & Hsrc & _ & Hheap & Hclk & Htr); [lia|].
      destruct (IH w1) as (w' & new & Hrun' & Hevs' & Hsrc' & Hsim & Hmono & _ & Hclk' & Htr' & Hnew).
      { rewrite Hevs. done. }
      { by rewrite Hheap, Hevs. }
      exists w'. eexists. simpl. rewrite (bind_Some _ _ _ _ _ Hrun).
      split; [exact Hrun'|].
      split. { rewrite Hevs', Hevs, !take_app_le by lia. done. }
      split; [congruence|].
      split; [by rewrite <- Hheap|].
      split. { intros p Hp. apply Hmono. by rewrite Hheap, Hevs. }
      split; [done|]. split; [congruence|].
      split. { rewrite Htr', Htr, <- app_assoc. reflexivity. }
      apply Forall_app. split; [|done]. repeat constructor.
Qed.

Lemma same_contents_allocated h1 h2 p :
  same_contents h1 h2 → allocated h1 p = allocated h2 p.
Proof.
  intros H. specialize (H p). unfold allocated.
  by destruct (h1 !! p), (h2 !! p).
Qed.

Lemma push_all_spec es : ∀ w,
  (length (events (queue w)) ≤ MAX_QUEUE_SIZE)%nat →
  forallb (pushable (heap w)) es = true →
  ∃ w' new, push_all es w = Some (tt, w') ∧
        events (queue w') = take MAX_QUEUE_SIZE (events (queue w) ++ es) ∧
        sources (queue w') = sources (queue w) ∧
        same_contents (heap w) (heap w') ∧
        (∀ p, allocated (heap w) p = true → allocated (heap w') p = true) ∧
        (es = [] → w' = w) ∧
        clock w' = clock w ∧
        trace w' = trace w ++ new ∧
        Forall (λ x, producer_call x.1 = true) new.
Proof.
  intros w Hlen Hes.
  destruct (push_all_headroom es w Hlen)
    as (w' & new & Hrun & Hevs & Hsrc & Hsim & _ & Hnil & Hclk & Htr & Hnew).
  { eapply forallb_impl; [|exact Hes]. intros p. apply pushable_headroom. lia. }
  exists w', new. repeat split; try done.
  intros p Hp. by rewrite <- (same_contents_allocated _ _ p Hsim).
Qed.


(** ** Get, peek and drop *)

Lemma get_empty_spec ret w :
  events (queue w) = [] →
  ∃ w', al_get_next_event ret w = Some ((false, Some ret), w') ∧
        queue w' = mkQueue [] (sources (queue w)) false ∧
        heap w' = heap w ∧ clock w' = clock w ∧
        trace w' = trace w ++ lock_unlock (queue w) [].
Proof.
  intros He. gpd_unfold. mrun. rewrite He. simpl.
  eexists; split; [reflexivity|]. simpl. rewrite <- ?app_assoc, ?He. done.
Qed.

Lemma peek_empty_spec ret w :
  events (queue w) = [] →
  ∃ w', al_peek_next_event ret w = Some ((false, Some ret), w') ∧
        queue w' = mkQueue [] (sources (queue w)) false ∧
        heap w' = heap w ∧ clock w' = clock w ∧
        trace w' = trace w ++ lock_unlock (queue w) [].
Proof.
  intros He. gpd_unfold. mrun. rewrite He. simpl.
  eexists; split; [reflexivity|]. simpl. rewrite <- ?app_assoc, ?He. done.
Qed.

Lemma drop_empty_spec w :
  events (queue w) = [] →
  ∃ w', al_drop_next_event w = Some (tt, w') ∧
        queue w' = mkQueue [] (sources (queue w)) false ∧
        heap w' = heap w ∧ clock w' = clock w ∧
        trace w' = trace w ++ lock_unlock (queue w) [].
Proof.
  intros He. gpd_unfold. mrun. rewrite He. simpl.
  eexists; split; [reflexivity|]. simpl. rewrite <- ?app_assoc, ?He. done.
Qed.

Lemma get_cons_spec ret w e rest ev :
  events (queue w) = e :: rest → heap w !! e = Some ev →
  ∃ w', al_get_next_event ret w = Some ((true, Some (_al_copy_event ret ev)), w') ∧
        queue w' = mkQueue rest (sources (queue w)) false ∧
        heap w' = <[e := set_refcount (any_refcount ev - 1) ev]> (heap w) ∧
        clock w' = clock w ∧
        trace w' = trace w ++ lock_unlock (queue w) rest ++
                   release_calls e ev (mkQueue rest (sources (queue w)) false).
Proof.
  intros He Hev. gpd_unfold. mrun. rewrite He. simpl. rewrite Hev.
  match goal with |- context [_al_release_event e ?w1] =>
    destruct (release_spec e ev w1 Hev) as (w' & -> & Hq & Hh & Hc & Ht) end.
  simpl in *. eexists; split; [reflexivity|].
  rewrite Ht, Hq, Hh, Hc, <- ?app_assoc. done.
Qed.

Lemma get_cons_None ret w e rest :
  events (queue w) = e :: rest → heap w !! e = None →
  al_get_next_event ret w = None.
Proof. intros He Hev. gpd_unfold. mrun. rewrite He. simpl. by rewrite Hev. Qed.

Lemma drop_cons_spec w e rest ev :
  events (queue w) = e :: rest → heap w !! e = Some ev →
  ∃ w', al_drop_next_event w = Some (tt, w') ∧
        queue w' = mkQueue rest (sources (queue w)) false ∧
        heap w' = <[e := set_refcount (any_refcount ev - 1) ev]> (heap w) ∧
        clock w' = clock w ∧
        trace w' = trace w ++ lock_unlock (queue w) rest ++
                   release_calls e ev (mkQueue rest (sources (queue w)) false).
Proof.
  intros He Hev. gpd_unfold. mrun. rewrite He. simpl.
  match goal with |- context [_al_release_event e ?w1] =>
    destruct (release_spec e ev w1 Hev) as (w' & -> & Hq & Hh & Hc & Ht) end.
  simpl in *. eexists; split; [reflexivity|].
  rewrite Ht, Hq, Hh, Hc, <- ?app_assoc. done.
Qed.

Lemma drop_cons_None w e rest :
  events (queue w) = e :: rest → heap w !! e = None →
  al_drop_next_event w = None.
Proof.
  intros He Hev. gpd_unfold. mrun. rewrite He. simpl.
  rewrite release_None; done.
Qed.

Lemma peek_cons_spec ret w e rest ev :
  events (queue w) = e :: rest → heap w !! e = Some ev →
  ∃ w', al_peek_next_event ret w = Some ((true, Some (_al_copy_event ret ev)), w') ∧
        queue w' = mkQueue (e :: rest) (sources (queue w)) false ∧
        heap w' = heap w ∧ clock w' = clock w ∧
        trace w' = trace w ++ lock_unlock (queue w) (e :: rest).
Proof.
  intros He Hev. gpd_unfold. mrun. rewrite He. simpl. rewrite Hev.
  eexists; split; [reflexivity|]. simpl. rewrite <- ?app_assoc, ?He. done.
Qed.

Lemma peek_cons_None ret w e rest :
  events (queue w) = e :: rest → heap w !! e = None →
  al_peek_next_event ret w = None.
Proof. intros He Hev. gpd_unfold. mrun. rewrite He. simpl. by rewrite Hev. Qed.

Lemma get_n_spec ret l : ∀ w h0,
  events (queue w) = l → same_contents h0 (heap w) →
  forallb (allocated (heap w)) l = true →
  ∃ w', get_n (length l) ret w =
          Some (map (λ e, (true, _al_copy_event ret <$> h0 !! e)) l, w') ∧
        events (queue w') = [] ∧
        sources (queue w') = sources (queue w) ∧
        same_contents h0 (heap w').
Proof.
  induction l as [|e l IH]; intros w h0 Hl Hsim Hal.
  - exists w. simpl. done.
  - simpl in Hal. apply andb_true_iff in Hal as [He Hal].
    unfold allocated in He. destruct (heap w !! e) as [ev|] eqn:Hev; [|done].
    destruct (get_cons_spec ret w e l ev Hl Hev) as (w1 & Hrun & Hq & Hh & _ & _).
    destruct (IH w1 h0) as (w' & Hrun' & Hevs & Hsrc & Hsim').
    { by rewrite Hq. }
    { rewrite Hh. eapply same_contents_trans; [exact Hsim|].
      by apply same_contents_insert. }
    { rewrite Hh. eapply forallb_impl; [|exact Hal]. intros p. apply allocated_insert. }
    exists w'. simpl. rewrite (bind_Some _ _ _ _ _ Hrun), (bind_Some _ _ _ _ _ Hrun').
    split.
    { unfold mret, M_ret. do 3 f_equal.
      rewrite (same_contents_copy _ _ e ret Hsim), Hev. done. }
    rewrite Hsrc, Hq. done.
Qed.

Lemma drain_spec ret l : ∀ fuel w h0,
  (length l < fuel)%nat →
  events (queue w) = l → same_contents h0 (heap w) →
  forallb (allocated (heap w)) l = true →
  ∃ w', drain fuel ret w = Some (omap (λ e, _al_copy_event ret <$> h0 !! e) l, w') ∧
        events (queue w') = [] ∧
        sources (queue w') = sources (queue w) ∧
        same_contents h0 (heap w').
Proof.
  induction l as [|e l IH]; intros fuel w h0 Hfuel Hl Hsim Hal.
  - destruct fuel as [|fuel]; [simpl in Hfuel; lia|].
    destruct (get_empty_spec ret w Hl) as (w1 & Hrun & Hq & Hh & _ & _).
    exists w1. simpl. rewrite (bind_Some _ _ _ _ _ Hrun).
    rewrite Hq, Hh. done.
  - destruct fuel as [|fuel]; [simpl in Hfuel; lia|].
    simpl in Hal. apply andb_true_iff in Hal as [He Hal].
    unfold allocated in He. destruct (heap w !! e) as [ev|] eqn:Hev; [|done].
    destruct (get_cons_spec ret w e l ev Hl Hev) as (w1 & Hrun & Hq & Hh & _ & _).
    destruct (IH fuel w1 h0) as (w' & Hrun' & Hevs & Hsrc & Hsim').
    { simpl in Hfuel. lia. }
    { by rewrite Hq. }
    { rewrite Hh. eapply same_contents_trans; [exact Hsim|].
      by apply same_contents_insert. }
    { rewrite Hh. eapply forallb_impl; [|exact Hal]. intros p. apply allocated_insert. }
    exists w'. simpl. rewrite (bind_Some _ _ _ _ _ Hrun), (bind_Some _ _ _ _ _ Hrun').
    split.
    { rewrite (same_contents_copy _ _ e ret Hsim), Hev. done. }
    rewrite Hsrc, Hq. done.
Qed.


(** ** Unregistering and flushing *)

Lemma came_from_same_contents h1 h2 s e :
  same_contents h1 h2 → came_from h1 s e ↔ came_from h2 s e.
Proof. intros H. unfold came_from. by rewrite (same_contents_source _ _ e H). Qed.

Lemma find_index_None v x : find_index v x = None ↔ x ∉ v.
Proof.
  induction v as [|y v IH]; simpl.
  - split; [intros _; apply not_elem_of_nil|done].
  - destruct (decide (y = x)) as [->|Hne].
    + split; [done|]. intros H. exfalso. apply H. left.
    + rewrite fmap_None, IH, not_elem_of_cons.
      split; [intros H; split; [congruence|done]|intros [_ H]; done].
Qed.

Lemma find_index_Some v x i :
  find_index v x = Some i →
  ∃ l1 l2, v = l1 ++ x :: l2 ∧ (x ∉ l1) ∧ i = length l1.
Proof.
  revert i. induction v as [|y v IH]; intros i; simpl; [done|].
  destruct (decide (y = x)) as [->|Hne].
  - intros [= <-]. exists [], v. split; [done|]. split; [apply not_elem_of_nil|done].
  - intros (j & Hj & ->)%fmap_Some. destruct (IH j Hj) as (l1 & l2 & -> & Hn & ->).
    exists (y :: l1), l2. split; [done|]. split; [|done].
    apply not_elem_of_cons. done.
Qed.

Lemma unregister_scan_done fuel s i w :
  (length (events (queue w)) ≤ i)%nat → unregister_scan fuel s i w = Some (tt, w).
Proof.
  intros H. destruct fuel; simpl; mrun; rewrite bool_decide_eq_false_2 by lia; done.
Qed.

Lemma unregister_scan_step fuel s i w e ev :
  events (queue w) !! i = Some e → heap w !! e = Some ev →
  unregister_scan (S fuel) s i w =
  if decide (any_source ev = s) then
    (_al_release_event e ;; _al_vector_delete_at Events i ;;
     unregister_scan fuel s i) w
  else unregister_scan fuel s (S i) w.
Proof.
  intros Hi He. simpl. mrun.
  rewrite bool_decide_eq_true_2 by (by eapply lookup_lt_Some).
  rewrite Hi. simpl. rewrite He. by destruct (decide _).
Qed.

Lemma unregister_scan_spec s todo : ∀ fuel done w,
  events (queue w) = done ++ todo →
  (length todo ≤ fuel)%nat →
  forallb (allocated (heap w)) todo = true →
  ∃ w' new,
    unregister_scan fuel s (length done) w = Some (tt, w') ∧
    events (queue w') = done ++ filter (λ e, ¬ came_from (heap w) s e) todo ∧
    sources (queue w') = sources (queue w) ∧
    mutex (queue w') = mutex (queue w) ∧
    same_contents (heap w) (heap w') ∧
    (∀ p, allocated (heap w) p = true → allocated (heap w') p = true) ∧
    clock w' = clock w ∧
    trace w' = trace w ++ new ∧
    released new = filter (came_from (heap w) s) todo ∧
    Forall (λ x, release_or_hook x.1 = true ∧ x.2 = mkQueue (events x.2) (sources (queue w)) (mutex (queue w))) new.
Proof.
  induction todo as [|e todo IH]; intros fuel done w Hevs Hfuel Hal.
  - exists w, []. rewrite app_nil_r in Hevs.
    rewrite unregister_scan_done by (rewrite Hevs; lia).
    rewrite Hevs, app_nil_r, filter_nil. repeat split; auto using same_contents_refl.
    by rewrite app_nil_r.
  - destruct fuel as [|fuel]; [simpl in Hfuel; lia|].
    simpl in Hal. apply andb_true_iff in Hal as [He Hal].
    unfold allocated in He. destruct (heap w !! e) as [ev|] eqn:Hev; [|done].
    rewrite (unregister_scan_step fuel s (length done) w e ev)
      by (by rewrite ?Hevs, ?list_lookup_middle).
    destruct (decide (any_source ev = s)) as [Hs|Hs].
    + destruct (release_spec e ev w Hev) as (w1 & Hrun & Hq & Hh & Hc & Ht).
      rewrite (bind_Some _ _ _ _ _ Hrun). mrun. rewrite Hq, Hevs, delete_middle.
      match goal with |- context [unregister_scan fuel s (length done) ?w2] =>
        destruct (IH fuel done w2) as (w' & new & Hrun' & Hevs' & Hsrc' & Hmx' & Hsim' & Hal' & Hc' & Ht' & Hrel' & Hnew')
      end.
      { done. }
      { simpl in Hfuel. lia. }
      { simpl. rewrite Hh. eapply forallb_impl; [|exact Hal]. intros p. apply allocated_insert. }
      assert (same_contents (heap w) (heap w1)) as Hsim1.
      { rewrite Hh. by apply same_contents_insert. }
      assert (∀ p, came_from (heap w1) s p ↔ came_from (heap w) s p) as Hcf.
      { intros p. symmetry. by apply came_from_same_contents. }
      simpl in *. exists w'. eexists. split; [exact Hrun'|].
      rewrite filter_cons_False.
      2:{ intros Hn. apply Hn. unfold came_from. rewrite Hev. simpl. congruence. }
      rewrite filter_cons_True.
      2:{ unfold came_from. rewrite Hev. simpl. congruence. }
      split. { rewrite Hevs'. f_equal. apply list_filter_iff. intros p.
               by rewrite Hcf. }
      split; [done|]. split; [done|].
      split. { eapply same_contents_trans; [exact Hsim1|]. done. }
      split. { intros p Hp. apply Hal'. rewrite Hh. by apply allocated_insert. }
      split; [congruence|].
      split. { rewrite Ht', Ht, <- app_assoc. reflexivity. }
      split. { rewrite released_app, released_release_calls, Hrel'. simpl. f_equal.
               apply list_filter_iff. intros p. by rewrite Hcf. }
      apply Forall_app. split; [|done]. unfold release_calls.
      destruct (decide _); repeat constructor; simpl; by destruct (queue w).
    + destruct (IH fuel (done ++ [e]) w) as (w' & new & Hrun' & Hevs' & Hsrc' & Hmx' & Hsim' & Hal' & Hc' & Ht' & Hrel' & Hnew').
      { by rewrite <- app_assoc. }
      { simpl in Hfuel. lia. }
      { done. }
      rewrite length_app in Hrun'. simpl in Hrun'. rewrite Nat.add_1_r in Hrun'.
      exists w', new. split; [exact Hrun'|].
      rewrite filter_cons_True.
      2:{ unfold came_from. rewrite Hev. simpl. congruence. }
      rewrite filter_cons_False.
      2:{ intros Hn. unfold came_from in Hn. rewrite Hev in Hn. simpl in Hn. congruence. }
      split. { rewrite Hevs', <- app_assoc. done. }
      done.
Qed.


Lemma unregister_not_member s w :
  s ∉ sources (queue w) → al_unregister_event_source s w = Some (tt, w).
Proof.
  intros Hs. apply find_index_None in Hs. unfold al_unregister_event_source.
  mrun. by rewrite Hs.
Qed.

Lemma unregister_member s w :
  s ∈ sources (queue w) →
  forallb (allocated (heap w)) (events (queue w)) = true →
  ∃ w' l1 l2 new,
    al_unregister_event_source s w = Some (tt, w') ∧
    sources (queue w) = l1 ++ s :: l2 ∧ (s ∉ l1) ∧
    sources (queue w') = l1 ++ l2 ∧
    events (queue w') = filter (λ e, ¬ came_from (heap w) s e) (events (queue w)) ∧
    mutex (queue w') = mutex (queue w) ∧
    same_contents (heap w) (heap w') ∧
    (∀ p, allocated (heap w) p = true → allocated (heap w') p = true) ∧
    clock w' = clock w ∧
    trace w' = trace w ++
      (Call_on_unregistration_from_queue s,
       mkQueue (events (queue w)) (l1 ++ l2) (mutex (queue w))) :: new ∧
    released new = filter (came_from (heap w) s) (events (queue w)) ∧
    Forall (λ x, release_or_hook x.1 = true) new.
Proof.
  intros Hs Hal.
  destruct (find_index (sources (queue w)) s) as [i|] eqn:Hfind.
  2:{ apply find_index_None in Hfind. done. }
  destruct (find_index_Some _ _ _ Hfind) as (l1 & l2 & Hsrc & Hl1 & ->).
  unfold al_unregister_event_source. mrun.
  rewrite Hfind. simpl. rewrite Hsrc, delete_middle.
  match goal with |- context [unregister_scan _ s 0 ?w2] =>
    destruct (unregister_scan_spec s (events (queue w)) (length (events (queue w))) [] w2)
      as (w' & new & Hrun' & Hevs' & Hsrc' & Hmx' & Hsim' & Hal' & Hc' & Ht' & Hrel' & Hnew')
  end; [done|done|done|].
  simpl in *. exists w', l1, l2, new. split; [exact Hrun'|].
  rewrite Ht', <- app_assoc. repeat split; try done.
  eapply Forall_impl; [exact Hnew'|]. by intros x [? _].
Qed.

Lemma register_member s w :
  s ∈ sources (queue w) → al_register_event_source s w = Some (tt, w).
Proof.
  intros Hs. unfold al_register_event_source. mrun.
  destruct (find_index (sources (queue w)) s) eqn:Hfind; [done|].
  apply find_index_None in Hfind. done.
Qed.

Lemma register_not_member s w :
  s ∉ sources (queue w) →
  ∃ w', al_register_event_source s w = Some (tt, w') ∧
        queue w' = mkQueue (events (queue w)) (sources (queue w) ++ [s]) (mutex (queue w)) ∧
        heap w' = heap w ∧ clock w' = clock w ∧
        trace w' = trace w ++ [(Call_on_registration_to_queue s, queue w)].
Proof.
  intros Hs. apply find_index_None in Hs.
  unfold al_register_event_source. mrun.
  rewrite Hs. eexists. split; [reflexivity|]. done.
Qed.

Lemma while_true fuel cond body w w1 :
  cond w = Some (true, w1) →
  while (S fuel) cond body w = (body ;; while fuel cond body) w1.
Proof. intros H. simpl. by rewrite (bind_Some _ _ _ _ _ H). Qed.

Lemma while_false fuel cond body w w1 :
  cond w = Some (false, w1) → while fuel cond body w = Some (tt, w1).
Proof. intros H. destruct fuel; simpl; by rewrite (bind_Some _ _ _ _ _ H). Qed.

Lemma flush_body_spec w l e ev :
  events (queue w) = l ++ [e] → heap w !! e = Some ev →
  ∃ w', flush_body w = Some (tt, w') ∧
        queue w' = mkQueue l (sources (queue w)) true ∧
        heap w' = <[e := set_refcount (any_refcount ev - 1) ev]> (heap w) ∧
        clock w' = clock w ∧
        trace w' = trace w ++
          (Call_mutex_unlock, mkQueue l (sources (queue w)) (mutex (queue w))) ::
          release_calls e ev (mkQueue l (sources (queue w)) false) ++
          [(Call_mutex_lock, mkQueue l (sources (queue w)) false)].
Proof.
  intros Hevs Hev. unfold flush_body. mrun.
  rewrite Hevs, length_app. simpl. rewrite Nat.add_sub, list_lookup_middle by done.
  simpl. rewrite ?Hevs, delete_middle, app_nil_r.
  match goal with |- context [_al_release_event e ?w1] =>
    destruct (release_spec e ev w1 Hev) as (w' & -> & Hq & Hh & Hc & Ht) end.
  simpl in *. eexists; split; [reflexivity|]. simpl.
  rewrite Ht, Hq, Hh, Hc, <- ?app_assoc. done.
Qed.

Lemma flush_loop_spec l : ∀ fuel w,
  events (queue w) = l → (length l ≤ fuel)%nat →
  mutex (queue w) = true →
  forallb (allocated (heap w)) l = true →
  ∃ w' new,
    while fuel (_al_vector_is_nonempty Events) flush_body w
      = Some (tt, w') ∧
    events (queue w') = [] ∧
    sources (queue w') = sources (queue w) ∧
    mutex (queue w') = true ∧
    same_contents (heap w) (heap w') ∧
    clock w' = clock w ∧
    trace w' = trace w ++ new ∧
    released new = reverse l ∧
    Forall (λ x, release_or_hook x.1 = true → mutex x.2 = false) new.
Proof.
  induction l as [|e l IH] using rev_ind; intros fuel w Hevs Hfuel Hmx Hal.
  - exists w, []. destruct fuel; simpl; mrun; rewrite Hevs; simpl;
      rewrite app_nil_r; repeat split; auto using same_contents_refl.
  - rewrite length_app in Hfuel. simpl in Hfuel.
    destruct fuel as [|fuel]; [lia|].
    rewrite forallb_app in Hal. apply andb_true_iff in Hal as [Hal He].
    simpl in He. unfold allocated in He at 1.
    destruct (heap w !! e) as [ev|] eqn:Hev; [|done].
    destruct (flush_body_spec w l e ev Hevs Hev) as (w1 & Hrun & Hq & Hh & Hc & Ht).
    destruct (IH fuel w1) as (w' & new & Hrun' & Hevs' & Hsrc' & Hmx' & Hsim' & Hc' & Ht' & Hrel' & Hnew').
    { by rewrite Hq. }
    { lia. }
    { by rewrite Hq. }
    { rewrite Hh. eapply forallb_impl; [|exact Hal]. intros p. apply allocated_insert. }
    exists w'. eexists.
    rewrite (while_true _ _ _ _ w), (bind_Some _ _ _ _ _ Hrun)
      by (mrun; rewrite Hevs; by destruct l).
    split; [exact Hrun'|].
    split; [done|]. split; [by rewrite Hsrc', Hq|]. split; [done|].
    split. { eapply same_contents_trans; [|exact Hsim']. rewrite Hh.
             by apply same_contents_insert. }
    split; [congruence|].
    split. { rewrite Ht', Ht, <- app_assoc. reflexivity. }
    split. { rewrite reverse_snoc, released_app, released_cons. cbv beta iota.
             rewrite released_app, released_release_calls, Hrel'. done. }
    apply Forall_cons. split; [done|]. apply Forall_app. split; [|done].
    apply Forall_app. split; [|by repeat constructor].
    unfold release_calls. destruct (decide _); repeat constructor; done.
Qed.

Lemma mutex_lock_run w :
  _al_mutex_lock w =
  Some (tt, mkWorld (mkQueue (events (queue w)) (sources (queue w)) true)
                    (heap w) (clock w) (trace w ++ [(Call_mutex_lock, queue w)])).
Proof. reflexivity. Qed.

Lemma mutex_unlock_run w :
  _al_mutex_unlock w =
  Some (tt, mkWorld (mkQueue (events (queue w)) (sources (queue w)) false)
                    (heap w) (clock w) (trace w ++ [(Call_mutex_unlock, queue w)])).
Proof. reflexivity. Qed.

Lemma vector_size_run v w :
  _al_vector_size v w = Some (length (vec_get v (queue w)), w).
Proof. reflexivity. Qed.

Lemma flush_spec w :
  forallb (allocated (heap w)) (events (queue w)) = true →
  ∃ w' new,
    al_flush_event_queue w = Some (tt, w') ∧
    events (queue w') = [] ∧
    sources (queue w') = sources (queue w) ∧
    mutex (queue w') = false ∧
    same_contents (heap w) (heap w') ∧
    clock w' = clock w ∧
    trace w' = trace w ++ new ∧
    released new = reverse (events (queue w)) ∧
    Forall (λ x, release_or_hook x.1 = true → mutex x.2 = false) new.
Proof.
  intros Hal. unfold al_flush_event_queue.
  rewrite (bind_Some _ _ _ _ _ (mutex_lock_run w)).
  rewrite (bind_Some _ _ _ _ _ (vector_size_run Events _)).
  match goal with |- context [(while _ _ _ ≫= _) ?w1] =>
    destruct (flush_loop_spec (events (queue w)) (length (events (queue w))) w1)
      as (w' & new & Hrun' & Hevs' & Hsrc' & Hmx' & Hsim' & Hc' & Ht' & Hrel' & Hnew')
  end; [done|done|done|done|].
  simpl in *. rewrite (bind_Some _ _ _ _ _ Hrun'), mutex_unlock_run.
  eexists. eexists. split; [reflexivity|]. simpl.
  rewrite Hevs', Hsrc', Ht', <- !app_assoc. repeat split; try done.
  - rewrite !released_app, Hrel'. simpl. by rewrite app_nil_r.
  - apply Forall_app. split; [by repeat constructor|]. apply Forall_app. split; [done|].
    by repeat constructor.
Qed.


(** ** Relations that every step of a computation respects *)

Section Respects.

Variable R : world → world → Prop.
Hypothesis R_refl : ∀ w, R w w.
Hypothesis R_trans : ∀ w1 w2 w3, R w1 w2 → R w2 w3 → R w1 w3.

Lemma respects_ret {A : Type} (a : A) : respects R (mret a).
Proof. intros w a' w' [= _ <-]. apply R_refl. Qed.

Lemma respects_abort {A : Type} : respects R (@abort A).
Proof. intros w a w' [=]. Qed.

Lemma respects_bind {A B : Type} (m : M A) (f : A → M B) :
  respects R m → (∀ a, respects R (f a)) → respects R (m ≫= f).
Proof.
  intros Hm Hf w b w2 H. apply bind_inv in H as (a & w1 & H1 & H2).
  eapply R_trans; [by eapply Hm|by eapply Hf].
Qed.

Lemma respects_modify (f : world → world) :
  (∀ w, R w (f w)) → respects R (modify f).
Proof. intros Hf w a w' [= _ <-]. apply Hf. Qed.

Lemma respects_while fuel cond body :
  respects R cond → respects R body → respects R (while fuel cond body).
Proof.
  intros Hc Hb. induction fuel as [|fuel IH]; simpl.
  - apply respects_bind; [done|]. intros [|]; [apply respects_abort|apply respects_ret].
  - apply respects_bind; [done|]. intros [|]; [|apply respects_ret].
    apply respects_bind; [done|]. intros _. exact IH.
Qed.

(** Steps that leave both vectors as they are. *)
Hypothesis R_frame : ∀ w w',
  events (queue w') = events (queue w) →
  sources (queue w') = sources (queue w) → R w w'.

Lemma respects_log c : respects R (log c).
Proof. apply respects_modify. intros w. by apply R_frame. Qed.

Lemma respects_set_mutex b : respects R (set_mutex b).
Proof. apply respects_modify. intros w. by apply R_frame. Qed.

Lemma respects_store p ev : respects R (store p ev).
Proof. apply respects_modify. intros w. by apply R_frame. Qed.

Lemma respects_load p : respects R (load p).
Proof.
  intros w a w'. unfold load. destruct (heap w !! p); [|done].
  intros [= _ <-]. apply R_refl.
Qed.

Lemma respects_read_vector v : respects R (read_vector v).
Proof. intros w a w' [= _ <-]. apply R_refl. Qed.

Lemma respects_get_world : respects R get_world.
Proof. intros w a w' [= _ <-]. apply R_refl. Qed.

Local Hint Resolve respects_log respects_set_mutex respects_store
  respects_load respects_read_vector respects_get_world : core.

(** Break a computation into its steps. *)
Ltac steps :=
  repeat match goal with
    | |- respects R (mret _) => apply respects_ret
    | |- respects R abort => apply respects_abort
    | |- respects R (_ ≫= _) => apply respects_bind; [|intros ?]
    | |- respects R (if ?b then _ else _) => destruct b
    | |- respects R (match ?x with _ => _ end) => destruct x
    | |- respects R (let _ := _ in _) => progress (cbv zeta)
    | |- _ => solve [auto]
    end.

Lemma respects_size v : respects R (_al_vector_size v).
Proof. unfold _al_vector_size. steps. Qed.

Lemma respects_is_empty v : respects R (_al_vector_is_empty v).
Proof. unfold _al_vector_is_empty. steps. Qed.

Local Hint Resolve respects_size respects_is_empty : core.

Lemma respects_is_nonempty v : respects R (_al_vector_is_nonempty v).
Proof. unfold _al_vector_is_nonempty. steps. Qed.

Lemma respects_ref v i : respects R (_al_vector_ref v i).
Proof. unfold _al_vector_ref. steps. Qed.

Local Hint Resolve respects_is_nonempty respects_ref : core.

Lemma respects_ref_front v : respects R (_al_vector_ref_front v).
Proof. unfold _al_vector_ref_front. steps. Qed.

Lemma respects_ref_back v : respects R (_al_vector_ref_back v).
Proof. unfold _al_vector_ref_back. steps. Qed.

Lemma respects_contains v x : respects R (_al_vector_contains v x).
Proof. unfold _al_vector_contains, _al_vector_find. steps. Qed.

Lemma respects_mutex_lock : respects R _al_mutex_lock.
Proof. unfold _al_mutex_lock. steps. Qed.

Lemma respects_mutex_unlock : respects R _al_mutex_unlock.
Proof. unfold _al_mutex_unlock. steps. Qed.

Lemma respects_release e : respects R (_al_release_event e).
Proof. unfold _al_release_event. steps. Qed.

Lemma respects_ASSERT b : respects R (ASSERT b).
Proof. unfold ASSERT. steps. Qed.

Local Hint Resolve respects_ref_front respects_ref_back respects_contains
  respects_mutex_lock respects_mutex_unlock respects_release
  respects_ASSERT : core.

(** Taking a record out of the buffer. *)
Hypothesis R_delete_event : ∀ w i,
  R w (set_queue (vec_set Events (delete i (events (queue w))) (queue w)) w).

Lemma respects_delete_event i : respects R (_al_vector_delete_at Events i).
Proof.
  unfold _al_vector_delete_at. intros w a w' [= _ <-]. apply R_delete_event.
Qed.

Local Hint Resolve respects_delete_event : core.

Lemma respects_get_next_event_if_any b : respects R (get_next_event_if_any b).
Proof. unfold get_next_event_if_any. steps. Qed.

Local Hint Resolve respects_get_next_event_if_any : core.

Lemma respects_get_peek_or_drop c r :
  respects R (get_peek_or_drop_next_event c r).
Proof. unfold get_peek_or_drop_next_event. steps. Qed.

Lemma respects_get ret : respects R (al_get_next_event ret).
Proof. apply respects_get_peek_or_drop. Qed.

Lemma respects_peek ret : respects R (al_peek_next_event ret).
Proof. apply respects_get_peek_or_drop. Qed.

Lemma respects_drop : respects R al_drop_next_event.
Proof. unfold al_drop_next_event. steps. apply respects_get_peek_or_drop. Qed.

Lemma respects_flush : respects R al_flush_event_queue.
Proof.
  unfold al_flush_event_queue. steps. apply respects_while; [auto|].
  unfold flush_body. steps.
Qed.

Lemma respects_unregister_scan fuel s : ∀ i, respects R (unregister_scan fuel s i).
Proof. induction fuel as [|fuel IH]; intros i; simpl; steps. Qed.

(** Producers. *)
Hypothesis R_push : ∀ e, respects R (_al_event_queue_push_event e).

Lemma respects_push_all es : respects R (push_all es).
Proof. induction es as [|e es IH]; simpl; steps. Qed.

Lemma respects_producers wk : respects R (producers wk).
Proof.
  unfold producers. steps; [|apply respects_push_all].
  apply respects_modify. intros w. by apply R_frame.
Qed.

Local Hint Resolve respects_producers : core.

Lemma respects_cond_wait wk : respects R (_al_cond_wait wk).
Proof. unfold _al_cond_wait. steps. Qed.

Lemma respects_cond_timedwait wk t : respects R (_al_cond_timedwait wk t).
Proof. unfold _al_cond_timedwait. steps. Qed.

Local Hint Resolve respects_cond_wait respects_cond_timedwait : core.

Lemma respects_forever_loop env : respects R (forever_loop env).
Proof. induction env as [|wk env IH]; simpl; steps. Qed.

Lemma respects_timed_loop env t : ∀ r, respects R (timed_loop env t r).
Proof. induction env as [|wk env IH]; intros r; simpl; steps. Qed.

Local Hint Resolve respects_forever_loop respects_timed_loop : core.

Lemma respects_wait_forever env ret : respects R (wait_on_queue_forever env ret).
Proof. unfold wait_on_queue_forever. steps. Qed.

Lemma respects_wait_timed bits env ret msecs :
  respects R (wait_on_queue_timed bits env ret msecs).
Proof. unfold wait_on_queue_timed, al_current_time. steps. Qed.

Lemma respects_wait bits forever env ret msecs :
  respects R (al_wait_for_event bits forever env ret msecs).
Proof.
  unfold al_wait_for_event. steps.
  - apply respects_wait_forever.
  - apply respects_wait_timed.
Qed.

(** Steps on the membership list, and freeing the buffer. *)
Hypothesis R_sources : ∀ w l,
  R w (set_queue (vec_set Sources l (queue w)) w).
Hypothesis R_free_events : ∀ w,
  R w (set_queue (vec_set Events [] (queue w)) w).

Lemma respects_write_sources l : respects R (write_vector Sources l).
Proof. apply respects_modify. intros w. apply R_sources. Qed.

Local Hint Resolve respects_write_sources : core.

Lemma respects_register s : respects R (al_register_event_source s).
Proof.
  unfold al_register_event_source, _al_event_source_on_registration_to_queue,
    _al_vector_alloc_back.
  steps.
Qed.

Lemma respects_unregister s : respects R (al_unregister_event_source s).
Proof.
  unfold al_unregister_event_source, _al_vector_find_and_delete,
    _al_vector_find, _al_vector_delete_at,
    _al_event_source_on_unregistration_from_queue.
  steps. apply respects_unregister_scan.
Qed.

Lemma respects_destroy : respects R al_destroy_event_queue.
Proof.
  unfold al_destroy_event_queue, _al_vector_free. steps.
  - apply respects_while; [auto|]. unfold destroy_body. steps.
    apply respects_unregister.
  - apply respects_modify. intros w. apply R_free_events.
Qed.

End Respects.


(** ** The timed wait *)

Lemma same_state_refl w : same_state w w.
Proof. done. Qed.

Lemma push_sim e w v :
  same_state w v →
  headroom (MAX_QUEUE_SIZE - length (events (queue w))) (heap w) e = true →
  ∃ w' v', _al_event_queue_push_event e w = Some (tt, w') ∧
           _al_event_queue_push_event e v = Some (tt, v') ∧
           same_state w' v'.
Proof.
  intros (Hevs & Hsrc & Hh & Hc) He.
  destruct (decide (length (events (queue w)) < MAX_QUEUE_SIZE)%nat) as [Hlt|Hge].
  - destruct (headroom_inv _ _ _ He) as (ev & Hev & Hrc0 & Hmax).
    assert (0 ≤ any_refcount ev < INT_MAX) as Hrc by lia.
    destruct (push_room_spec e ev w Hlt Hev Hrc) as (w' & -> & H1 & H2 & _ & H3 & H4 & _).
    destruct (push_room_spec e ev v) as (v' & -> & G1 & G2 & _ & G3 & G4 & _);
      [by rewrite <- Hevs|by rewrite <- Hh|done|].
    exists w', v'. repeat split; congruence.
  - destruct (push_full_spec e w) as (w' & -> & H1 & H2 & _ & H3 & H4 & _); [lia|].
    destruct (push_full_spec e v) as (v' & -> & G1 & G2 & _ & G3 & G4 & _);
      [rewrite <- Hevs; lia|].
    exists w', v'. repeat split; congruence.
Qed.

Lemma push_all_sim es : ∀ w v,
  same_state w v →
  (length (events (queue w)) ≤ MAX_QUEUE_SIZE)%nat →
  forallb (headroom (MAX_QUEUE_SIZE - length (events (queue w))) (heap w)) es = true →
  ∃ w' v', push_all es w = Some (tt, w') ∧ push_all es v = Some (tt, v') ∧
           same_state w' v'.
Proof.
  induction es as [|e es IH]; intros w v Hs Hlen Hes.
  - by exists w, v.
  - simpl in Hes. apply andb_true_iff in Hes as [He Hes].
    destruct (push_sim e w v Hs He) as (w1 & v1 & Hw & Hv & Hs1).
    destruct (push_all_headroom [e] w Hlen) as (w1' & new & Hrun & Hevs & _ & _ & Hmono & _).
    { simpl. by rewrite He. }
    simpl in Hrun. rewrite (bind_Some _ _ _ _ _ Hw) in Hrun. injection Hrun as <-.
    destruct (IH w1 v1 Hs1) as (w' & v' & Hw' & Hv' & Hs').
    { rewrite Hevs, length_take. lia. }
    { eapply forallb_impl; [|exact Hes]. apply Hmono. }
    exists w', v'. simpl.
    by rewrite (bind_Some _ _ _ _ _ Hw), (bind_Some _ _ _ _ _ Hv).
Qed.

Lemma producers_spec wk w v :
  same_state w v →
  (length (events (queue w)) ≤ MAX_QUEUE_SIZE)%nat →
  forallb (pushable (heap w)) (wk_pushed wk) = true →
  ∃ w' v' new,
    producers wk w = Some (tt, w') ∧ producers wk v = Some (tt, v') ∧
    same_state w' v' ∧
    events (queue w') = take MAX_QUEUE_SIZE (events (queue w) ++ wk_pushed wk) ∧
    sources (queue w') = sources (queue w) ∧
    same_contents (heap w) (heap w') ∧
    (∀ p, allocated (heap w) p = true → allocated (heap w') p = true) ∧
    (wk_pushed wk = [] → heap w' = heap w) ∧
    trace w' = trace w ++ new ∧
    Forall (λ x, producer_call x.1 = true) new.
Proof.
  intros Hs Hlen Hes. unfold producers.
  set (w0 := set_clock (clock w + wk_elapsed wk) w).
  set (v0 := set_clock (clock v + wk_elapsed wk) v).
  assert (same_state w0 v0) as Hs0.
  { destruct Hs as (? & ? & ? & Hc). repeat split; simpl; congruence. }
  destruct (push_all_sim (wk_pushed wk) w0 v0 Hs0 Hlen) as (w' & v' & Hw & Hv & Hs').
  { eapply forallb_impl; [|exact Hes]. intros p. apply pushable_headroom. lia. }
  destruct (push_all_spec (wk_pushed wk) w0 Hlen Hes)
    as (w'' & new & Hrun & Hevs & Hsrc & Hsim & Hmono & Hnil & _ & Htr & Hnew).
  rewrite Hw in Hrun. injection Hrun as <-.
  exists w', v', new.
  assert (modify (λ w, set_clock (clock w + wk_elapsed wk) w) w = Some (tt, w0)) as Hm by done.
  assert (modify (λ w, set_clock (clock w + wk_elapsed wk) w) v = Some (tt, v0)) as Hm' by done.
  rewrite (bind_Some _ _ _ _ _ Hm), (bind_Some _ _ _ _ _ Hm').
  split; [done|]. split; [done|]. split; [done|].
  repeat split; try done.
  intros Hq. by rewrite (Hnil Hq).
Qed.

Lemma forallb_take {A} (f : A → bool) n (l : list A) :
  forallb f l = true → forallb f (take n l) = true.
Proof.
  revert n. induction l as [|x l IH]; intros [|n]; simpl; try done.
  intros [Hx Hl]%andb_true_iff. rewrite Hx. simpl. by apply IH.
Qed.

Lemma cond_timedwait_spec wk t w v :
  same_state w v →
  (length (events (queue w)) ≤ MAX_QUEUE_SIZE)%nat →
  forallb (pushable (heap w)) (wk_pushed wk) = true →
  ∃ w' v' new,
    _al_cond_timedwait wk t w = Some (wk_result wk, w') ∧
    producers wk v = Some (tt, v') ∧
    same_state w' v' ∧
    events (queue w') = take MAX_QUEUE_SIZE (events (queue w) ++ wk_pushed wk) ∧
    sources (queue w') = sources (queue w) ∧
    mutex (queue w') = true ∧
    same_contents (heap w) (heap w') ∧
    (∀ p, allocated (heap w) p = true → allocated (heap w') p = true) ∧
    (wk_pushed wk = [] → heap w' = heap w) ∧
    trace w' = trace w ++ (Call_cond_timedwait t, queue w) :: new ∧
    Forall (λ x, producer_call x.1 = true) new.
Proof.
  intros Hs Hlen Hes. unfold _al_cond_timedwait.
  set (w0 := mkWorld (mkQueue (events (queue w)) (sources (queue w)) false)
                     (heap w) (clock w) (trace w ++ [(Call_cond_timedwait t, queue w)])).
  assert ((log (Call_cond_timedwait t) ;; set_mutex false) w = Some (tt, w0)) as H0 by done.
  assert (same_state w0 v) as Hs0 by done.
  destruct (producers_spec wk w0 v Hs0 Hlen Hes)
    as (w1 & v' & new & Hw & Hv & Hs1 & Hevs & Hsrc & Hsim & Hmono & Hnil & Htr & Hnew).
  exists (mkWorld (mkQueue (events (queue w1)) (sources (queue w1)) true)
                  (heap w1) (clock w1) (trace w1)), v', new.
  split.
  { change (log (Call_cond_timedwait t) ;; set_mutex false ;; producers wk ;;
            set_mutex true ;; mret (wk_result wk))
      with ((log (Call_cond_timedwait t) ;; set_mutex false) ≫=
            (λ _, producers wk ;; set_mutex true ;; mret (wk_result wk))).
    rewrite (bind_Some _ _ _ _ _ H0), (bind_Some _ _ _ _ _ Hw). done. }
  simpl. rewrite Htr. simpl. rewrite <- app_assoc. done.
Qed.

Lemma final_result_snoc r ws wk :
  final_result r (ws ++ [wk]) = wk_result wk.
Proof. unfold final_result. by rewrite foldl_app. Qed.

Lemma until_woken_prefix l : until_woken l `prefix_of` l.
Proof.
  induction l as [|wk l IH]; simpl; [done|].
  destruct (ends_sleep wk).
  - apply prefix_cons, prefix_nil.
  - by apply prefix_cons.
Qed.

Lemma slept_prefix evs r env : slept evs r env `prefix_of` env ++ [expiry].
Proof.
  unfold slept. destruct (_ && _); [apply until_woken_prefix|apply prefix_nil].
Qed.

Lemma env_pushable_prefix h ws env :
  ws `prefix_of` env → env_pushable h env = true → env_pushable h ws = true.
Proof.
  intros [k ->]. unfold env_pushable. rewrite forallb_app.
  by intros [H _]%andb_true_iff.
Qed.

Lemma env_pushable_slept h evs r env :
  env_pushable h env = true → env_pushable h (slept evs r env) = true.
Proof.
  intros H. apply (env_pushable_prefix h _ (env ++ [expiry])); [apply slept_prefix|].
  unfold env_pushable in *. rewrite forallb_app, H. done.
Qed.

(** One turn of the loop: the wake-up [wk] from an empty buffer. *)
Lemma slept_step r wk env evs1 :
  r ≠ -1 →
  evs1 = take MAX_QUEUE_SIZE (wk_pushed wk) →
  slept [] r (wk :: env) = wk :: slept evs1 (wk_result wk) env.
Proof.
  intros Hr ->. unfold slept at 1.
  rewrite !bool_decide_eq_true_2 by done. simpl. unfold ends_sleep, slept.
  destruct (wk_pushed wk) as [|e es] eqn:Hp; simpl.
  - rewrite orb_false_r.
    destruct (decide (wk_result wk = -1)) as [Heq|Hne].
    + rewrite (bool_decide_eq_true_2 _ Heq), bool_decide_eq_false_2 by tauto. done.
    + rewrite (bool_decide_eq_false_2 _ Hne), bool_decide_eq_true_2 by done. done.
  - by rewrite orb_true_r.
Qed.

Lemma is_empty_run v w :
  _al_vector_is_empty v w = Some (bool_decide (vec_get v (queue w) = []), w).
Proof. mrun. by destruct (vec_get v (queue w)). Qed.

Lemma timed_loop_unfold env t r w :
  timed_loop env t r w =
  if bool_decide (events (queue w) = []) && bool_decide (r ≠ -1) then
    match env with
    | [] => _al_cond_timedwait expiry t w
    | wk :: env' =>
        (result' ← _al_cond_timedwait wk t; timed_loop env' t result') w
    end
  else Some (r, w).
Proof.
  destruct env; simpl; rewrite (bind_Some _ _ _ _ _ (is_empty_run Events w));
    simpl; by destruct (_ && _).
Qed.

Lemma deadlines_app t1 t2 : deadlines (t1 ++ t2) = deadlines t1 ++ deadlines t2.
Proof. unfold deadlines. apply omap_app. Qed.

Lemma deadlines_cons c q t :
  deadlines ((c, q) :: t) =
  match c with Call_cond_timedwait d => d :: deadlines t | _ => deadlines t end.
Proof. by destruct c. Qed.

Lemma deadlines_producers new :
  Forall (λ x, producer_call x.1 = true) new → deadlines new = [].
Proof.
  induction 1 as [|[c q] new Hc _ IH]; [done|].
  rewrite deadlines_cons. by destruct c.
Qed.

Lemma producer_calls_other new :
  Forall (λ x, producer_call x.1 = true) new →
  Forall (λ x, x.1 ≠ Call_current_time ∧ released [x] = []) new.
Proof. intros H. eapply Forall_impl; [exact H|]. intros [c q] Hc. by destruct c. Qed.

Lemma timed_loop_spec env : ∀ t r w v,
  same_state w v →
  forallb (allocated (heap w)) (events (queue w)) = true →
  env_pushable (heap w) (slept (events (queue w)) r env) = true →
  ∃ w1 v1 new,
    timed_loop env t r w =
      Some (final_result r (slept (events (queue w)) r env), w1) ∧
    producers_only (slept (events (queue w)) r env) v = Some (tt, v1) ∧
    same_state w1 v1 ∧
    sources (queue w1) = sources (queue w) ∧
    (mutex (queue w) = true → mutex (queue w1) = true) ∧
    (final_result r (slept (events (queue w)) r env) ≠ -1 → events (queue w1) ≠ []) ∧
    forallb (allocated (heap w1)) (events (queue w1)) = true ∧
    (quiet (slept (events (queue w)) r env) = true →
       events (queue w1) = events (queue w) ∧ heap w1 = heap w) ∧
    trace w1 = trace w ++ new ∧
    deadlines new = replicate (length (slept (events (queue w)) r env)) t ∧
    Forall (λ x, x.1 ≠ Call_current_time ∧ released [x] = []) new.
Proof.
  induction env as [|wk env IH]; intros t r w v Hs Hal Henv;
    rewrite timed_loop_unfold;
    destruct (bool_decide (events (queue w) = []) && bool_decide (r ≠ -1)) eqn:Hb.
  - (* the script is used up: the deadline passes *)
    apply andb_true_iff in Hb as [Hevs%bool_decide_eq_true Hr%bool_decide_eq_true].
    assert (slept (events (queue w)) r [] = [expiry]) as ->.
    { unfold slept. rewrite Hevs, !bool_decide_eq_true_2 by done. reflexivity. }
    destruct (cond_timedwait_spec expiry t w v Hs)
      as (w1 & v1 & new & Hw & Hv & Hs1 & Hevs1 & Hsrc & Hmx & Hsim & Hmono & Hnil & Htr & Hnew);
      [by rewrite Hevs; simpl; lia|done|].
    exists w1, v1. eexists. simpl.
    split; [exact Hw|].
    split. { by rewrite (bind_Some _ _ _ _ _ Hv). }
    split; [done|]. split; [done|]. split; [done|].
    split; [done|].
    split. { simpl in Hevs1. rewrite Hevs1, Hevs. done. }
    split. { intros _. simpl in Hevs1. rewrite Hevs1, Hevs, (Hnil eq_refl). done. }
    split; [exact Htr|].
    split. { rewrite deadlines_cons, (deadlines_producers _ Hnew). done. }
    apply Forall_cons. split; [done|]. by apply producer_calls_other.
  - assert (slept (events (queue w)) r [] = []) as -> by (unfold slept; by rewrite Hb).
    exists w, v, []. simpl. rewrite app_nil_r.
    repeat (split; [done|]).
    split; [|done]. intros Hr.
    apply andb_false_iff in Hb as [Hb|Hb]; apply bool_decide_eq_false in Hb; [done|].
    exfalso. by apply Hb.
  - apply andb_true_iff in Hb as [Hevs%bool_decide_eq_true Hr%bool_decide_eq_true].
    destruct (cond_timedwait_spec wk t w v Hs)
      as (w1 & v1 & new & Hw & Hv & Hs1 & Hevs1 & Hsrc & Hmx & Hsim & Hmono & Hnil & Htr & Hnew).
    { rewrite Hevs. simpl. lia. }
    { rewrite ?Hevs, (slept_step r wk env _ Hr eq_refl) in Henv. simpl in Henv.
      by apply andb_true_iff in Henv as [Hwk _]. }
    rewrite Hevs in Hevs1. simpl in Hevs1.
    rewrite ?Hevs, (slept_step r wk env _ Hr Hevs1) in Henv |- *.
    simpl in Henv. apply andb_true_iff in Henv as [Hwk Henv].
    assert (forallb (allocated (heap w1)) (events (queue w1)) = true) as Hal1.
    { rewrite Hevs1. apply forallb_take.
      eapply forallb_impl; [|exact Hwk]. intros p Hp.
      apply Hmono. by apply pushable_allocated. }
    destruct (IH t (wk_result wk) w1 v1 Hs1 Hal1)
      as (w2 & v2 & new2 & Hw2 & Hv2 & Hs2 & Hsrc2 & Hmx2 & Hne2 & Hal2 & Hq2 & Htr2 & Hdl2 & Hnew2).
    { destruct (slept (events (queue w1)) (wk_result wk) env) as [|wk2 ws2] eqn:Hsl; [done|].
      (* the loop goes on: nothing was pushed, the store is as it was *)
      unfold slept in Hsl.
      destruct (bool_decide (events (queue w1) = [])) eqn:He1; [|done].
      apply bool_decide_eq_true in He1. rewrite He1 in Hevs1.
      destruct (wk_pushed wk) as [|e es] eqn:Hp; [|done].
      by rewrite (Hnil eq_refl). }
    exists w2, v2. eexists.
    split. { rewrite (bind_Some _ _ _ _ _ Hw). exact Hw2. }
    split. { simpl. by rewrite (bind_Some _ _ _ _ _ Hv). }
    split; [done|]. split; [congruence|]. split; [auto|]. split; [done|].
    split; [done|].
    split. { simpl. intros [Hq1 Hq]%andb_true_iff. apply bool_decide_eq_true in Hq1.
             destruct (Hq2 Hq) as [-> ->]. rewrite Hevs1, (Hnil Hq1), Hq1. done. }
    split. { rewrite Htr2, Htr, <- app_assoc. reflexivity. }
    split. { rewrite deadlines_app, deadlines_cons, (deadlines_producers _ Hnew), Hdl2.
             done. }
    apply Forall_app. split; [|done]. apply Forall_cons. split; [done|].
    by apply producer_calls_other.
  - assert (slept (events (queue w)) r (wk :: env) = []) as ->
      by (unfold slept; by rewrite Hb).
    exists w, v, []. simpl. rewrite app_nil_r.
    repeat (split; [done|]).
    split; [|done]. intros Hr.
    apply andb_false_iff in Hb as [Hb|Hb]; apply bool_decide_eq_false in Hb; [done|].
    exfalso. by apply Hb.
Qed.


Lemma al_current_time_run w :
  al_current_time w =
  Some (clock w, mkWorld (queue w) (heap w) (clock w)
                         (trace w ++ [(Call_current_time, queue w)])).
Proof. reflexivity. Qed.

Lemma release_calls_other e ev q :
  Forall (λ x, x.1 ≠ Call_current_time) (release_calls e ev q) ∧
  deadlines (release_calls e ev q) = [].
Proof. unfold release_calls. destruct (decide _); split; by repeat constructor. Qed.

Lemma wait_timed_spec (bits : Z) env ret msecs w :
  0 ≤ msecs →
  forallb (allocated (heap w)) (events (queue w)) = true →
  env_pushable (heap w) env = true →
  ∃ b r w' w_env rest,
    wait_on_queue_timed bits env ret msecs w = Some ((b, r), w') ∧
    producers_only (slept (events (queue w)) 0 env) w = Some (tt, w_env) ∧
    trace w' = trace w ++ (Call_current_time, queue w) :: rest ∧
    Forall (λ x, x.1 ≠ Call_current_time) rest ∧
    deadlines rest = replicate (length (slept (events (queue w)) 0 env))
                               (to_ulong bits (clock w + msecs)) ∧
    (0 ≤ clock w → clock w + msecs < 2 ^ bits →
     to_ulong bits (clock w + msecs) = clock w + msecs) ∧
    b = negb (bool_decide (final_result 0 (slept (events (queue w)) 0 env) = -1)) ∧
    (b = false →
       r = ret ∧ events (queue w') = events (queue w_env) ∧
       sources (queue w') = sources (queue w) ∧ heap w' = heap w_env ∧
       released rest = []) ∧
    (b = false → quiet (slept (events (queue w)) 0 env) = true →
       events (queue w') = events (queue w) ∧ heap w' = heap w) ∧
    (b = true → events (queue w_env) ≠ []).
Proof.
  intros Hms Hal Henv. unfold wait_on_queue_timed.
  set (ws := slept (events (queue w)) 0 env).
  rewrite (bind_Some _ _ _ _ _ (al_current_time_run w)). cbv zeta.
  rewrite (bind_Some _ _ _ _ _ (mutex_lock_run _)).
  set (t := to_ulong bits (clock w + msecs)).
  match goal with |- context [(timed_loop env t 0 ≫= _) ?wb] =>
    destruct (timed_loop_spec env t 0 wb w)
      as (w1 & v1 & new & Hloop & Hprod & Hs1 & Hsrc & Hmx & Hne & Hal1 & Hq & Htr & Hdl & Hnew)
  end; [done|done|by apply env_pushable_slept|].
  simpl in Hloop, Hprod, Hne, Hq, Hdl. fold ws in Hloop, Hprod, Hne, Hq, Hdl.
  simpl in Hsrc, Hq, Htr. rewrite (bind_Some _ _ _ _ _ Hloop).
  destruct Hs1 as (Hevs1 & _ & Hh1 & _).
  assert (Forall (λ x : call * ALLEGRO_EVENT_QUEUE, x.1 ≠ Call_current_time) new) as Hnew1.
  { eapply Forall_impl; [exact Hnew|]. by intros x [? _]. }
  assert (0 ≤ clock w → clock w + msecs < 2 ^ bits → t = clock w + msecs) as Hsmall.
  { intros ??. unfold t, to_ulong. apply Z.mod_small. lia. }
  assert (released new = []) as Hrel.
  { clear -Hnew. induction Hnew as [|x new [_ Hx] _ IH]; [done|].
    change (x :: new) with ([x] ++ new). by rewrite released_app, Hx, IH. }
  destruct (bool_decide (final_result 0 ws = -1)) eqn:Hto.
  - (* the wait reported a time-out *)
    mrun. exists false, ret. eexists. exists v1. eexists.
    split; [reflexivity|]. simpl. split; [done|].
    split. { rewrite Htr, <- !app_assoc. simpl. reflexivity. }
    split. { apply Forall_cons. split; [done|]. apply Forall_app. split; [done|].
             by repeat constructor. }
    split. { rewrite deadlines_cons, deadlines_app, Hdl. cbv beta iota. simpl.
             by rewrite app_nil_r. }
    split; [done|]. split; [done|].
    split. { intros _. repeat (split; [done|]).
             rewrite released_cons, released_app, Hrel. done. }
    split; [|done]. intros _ Hquiet. by apply Hq.
  - assert (final_result 0 ws ≠ -1) as Hto' by (by apply bool_decide_eq_false in Hto).
    specialize (Hne Hto').
    destruct ret as [dest|].
    + destruct (events (queue w1)) as [|e l] eqn:Hevs; [done|].
      simpl in Hal1. apply andb_true_iff in Hal1 as [He _].
      unfold allocated in He. destruct (heap w1 !! e) as [ev|] eqn:Hev; [|done].
      unfold get_next_event_if_any. mrun.
      repeat (progress (rewrite ?Hevs, ?Hev; simpl)).
      match goal with |- context [_al_release_event e ?w2] =>
        destruct (release_spec e ev w2 Hev) as (w' & -> & Hq' & Hh' & Hc' & Ht') end.
      simpl in *. exists true. eexists. exists w', v1. eexists.
      split; [reflexivity|]. split; [done|].
      split. { rewrite Ht', Htr, <- !app_assoc. simpl. reflexivity. }
      destruct (release_calls_other e ev
                  {| events := l; sources := sources (queue w1); mutex := false |})
        as [Hrel1 Hrel2].
      split. { apply Forall_cons. split; [done|]. apply Forall_app. split; [done|].
               apply Forall_cons. split; [done|]. done. }
      split. { rewrite deadlines_cons, deadlines_app, Hdl, deadlines_cons, Hrel2.
               cbv beta iota. by rewrite app_nil_r. }
      split; [done|]. split; [done|]. split; [done|]. split; [done|].
      intros _. by rewrite <- Hevs1.
    + mrun. exists true, None. eexists. exists v1. eexists.
      split; [reflexivity|]. simpl. split; [done|].
      split. { rewrite Htr, <- !app_assoc. simpl. reflexivity. }
      split. { apply Forall_cons. split; [done|]. apply Forall_app. split; [done|].
               by repeat constructor. }
      split. { rewrite deadlines_cons, deadlines_app, Hdl. cbv beta iota. simpl.
               by rewrite app_nil_r. }
      split; [done|]. split; [done|]. split; [done|]. split; [done|].
      intros _. by rewrite <- Hevs1.
Qed.


(** ** Invariants of the operations *)

Lemma push_inv e w w' :
  _al_event_queue_push_event e w = Some (tt, w') →
  sources (queue w') = sources (queue w) ∧
  (events (queue w') = events (queue w) ∨
   ((length (events (queue w)) < MAX_QUEUE_SIZE)%nat ∧
    events (queue w') = events (queue w) ++ [e])).
Proof.
  unfold _al_event_queue_push_event. mrun.
  destruct (bool_decide (length (events (queue w)) < MAX_QUEUE_SIZE)%nat) eqn:Hlt; simpl.
  - apply bool_decide_eq_true in Hlt. destruct (heap w !! e) as [ev|]; [|done].
    destruct (bool_decide (to_int (any_refcount ev + 1) > 0)); simpl; [|done].
    intros [= <-]. simpl. auto.
  - intros [= <-]. simpl. auto.
Qed.

Lemma run_op_keeps_sources bits forever o :
  modifies_sources o = false → respects keeps_sources (run_op bits forever o).
Proof.
  assert (∀ w, keeps_sources w w) as Hrefl by done.
  assert (∀ w1 w2 w3, keeps_sources w1 w2 → keeps_sources w2 w3 → keeps_sources w1 w3)
    as Htrans by (unfold keeps_sources; congruence).
  assert (∀ w w', events (queue w') = events (queue w) →
                  sources (queue w') = sources (queue w) → keeps_sources w w')
    as Hframe by done.
  assert (∀ w i, keeps_sources w
            (set_queue (vec_set Events (delete i (events (queue w))) (queue w)) w))
    as Hdel by done.
  assert (∀ e, respects keeps_sources (_al_event_queue_push_event e)) as Hpush.
  { intros e w [] w' H. by destruct (push_inv e w w' H). }
  destruct o; simpl; intros Hm; try discriminate Hm; clear Hm.
  - apply Hpush.
  - apply respects_bind; [assumption| |intros ?; by apply respects_ret].
    apply respects_get; assumption.
  - apply respects_bind; [assumption| |intros ?; by apply respects_ret].
    apply respects_peek; assumption.
  - apply respects_drop; assumption.
  - apply respects_flush; assumption.
  - apply respects_bind; [assumption| |intros ?; by apply respects_ret].
    apply respects_is_empty; assumption.
  - apply respects_bind; [assumption| |intros ?; by apply respects_ret].
    apply respects_wait; assumption.
Qed.

Lemma run_op_keeps_bound bits forever o :
  respects keeps_bound (run_op bits forever o).
Proof.
  assert (∀ w, keeps_bound w w) as Hrefl by (by intros w H).
  assert (∀ w1 w2 w3, keeps_bound w1 w2 → keeps_bound w2 w3 → keeps_bound w1 w3)
    as Htrans by (unfold keeps_bound; auto).
  assert (∀ w w', events (queue w') = events (queue w) →
                  sources (queue w') = sources (queue w) → keeps_bound w w')
    as Hframe.
  { intros w w' He _. unfold keeps_bound, buffer_bounded. by rewrite He. }
  assert (∀ w i, keeps_bound w
            (set_queue (vec_set Events (delete i (events (queue w))) (queue w)) w))
    as Hdel.
  { intros w i. unfold keeps_bound, buffer_bounded. simpl.
    rewrite delete_take_drop, length_app, length_take, length_drop. lia. }
  assert (∀ e, respects keeps_bound (_al_event_queue_push_event e)) as Hpush.
  { intros e w [] w' H. unfold keeps_bound, buffer_bounded.
    destruct (push_inv e w w' H) as [_ [He|[Hlt He]]]; rewrite He.
    - done.
    - rewrite length_app. simpl. lia. }
  assert (∀ w l, keeps_bound w (set_queue (vec_set Sources l (queue w)) w)) as Hsrc.
  { intros w l Hb. exact Hb. }
  assert (∀ w, keeps_bound w (set_queue (vec_set Events [] (queue w)) w)) as Hfree.
  { intros w _. unfold buffer_bounded. simpl. lia. }
  destruct o; simpl.
  - apply Hpush.
  - apply respects_bind; [assumption| |intros ?; by apply respects_ret].
    apply respects_get; assumption.
  - apply respects_bind; [assumption| |intros ?; by apply respects_ret].
    apply respects_peek; assumption.
  - apply respects_drop; assumption.
  - apply respects_flush; assumption.
  - apply respects_bind; [assumption| |intros ?; by apply respects_ret].
    apply respects_is_empty; assumption.
  - apply respects_bind; [assumption| |intros ?; by apply respects_ret].
    apply respects_wait; assumption.
  - apply respects_register; assumption.
  - apply respects_unregister; assumption.
  - apply respects_destroy; assumption.
Qed.


(** ** The properties of the queue *)

Lemma forallb_allocated_Forall h l :
  forallb (allocated h) l = true → Forall (λ e, is_Some (h !! e)) l.
Proof.
  induction l as [|e l IH]; simpl; [constructor|].
  intros [He Hl]%andb_true_iff. constructor; [|by apply IH].
  unfold allocated in He. by destruct (h !! e).
Qed.

Lemma forallb_pushable_allocated h l :
  forallb (pushable h) l = true → forallb (allocated h) l = true.
Proof. apply forallb_impl. apply pushable_allocated. Qed.

Lemma contents_Forall2 h ret l :
  forallb (allocated h) l = true →
  Forall2 (λ e r, ∃ ev, h !! e = Some ev ∧ r = _al_copy_event ret ev)
          l (omap (λ e, _al_copy_event ret <$> h !! e) l).
Proof.
  induction l as [|e l IH]; simpl; [constructor|].
  intros [He Hl]%andb_true_iff. unfold allocated in He.
  destruct (h !! e) as [ev|] eqn:Hev; [|done]. simpl.
  constructor; [by exists ev|by apply IH].
Qed.

(** C1.  Events pushed onto an empty queue, no more of them than the queue
    can hold, come back from as many calls of [al_get_next_event] in the
    order of the pushes: every call returns true and leaves in the caller's
    record the contents of the record that was pushed. *)
Theorem fifo_order (es : list event_ptr) (ret_event : ALLEGRO_EVENT) (w : world) :
  events (queue w) = [] →
  (length es ≤ MAX_QUEUE_SIZE)%nat →
  forallb (pushable (heap w)) es = true →
  ∃ w1 w2,
    push_all es w = Some (tt, w1) ∧
    events (queue w1) = es ∧
    get_n (length es) ret_event w1 =
      Some (map (λ e, (true, _al_copy_event ret_event <$> heap w !! e)) es, w2) ∧
    Forall (λ e, is_Some (heap w !! e)) es ∧
    events (queue w2) = [].
Proof.
  intros Hemp Hlen Hes.
  destruct (push_all_spec es w) as (w1 & new & Hrun & Hevs & _ & Hsim & Hmono & _);
    [rewrite Hemp; simpl; lia|done|].
  rewrite Hemp in Hevs. simpl in Hevs. rewrite take_ge in Hevs by done.
  destruct (get_n_spec ret_event es w1 (heap w) Hevs Hsim) as (w2 & Hget & Hevs2 & _).
  { eapply forallb_impl; [|exact Hes]. intros p Hp.
    apply Hmono. by apply pushable_allocated. }
  exists w1, w2. repeat split; try done.
  by apply forallb_allocated_Forall, forallb_pushable_allocated.
Qed.

Lemma fifo_order_witness :
  ∃ w1 w2,
    push_all [2; 1; 3]%positive (sample_world [] []) = Some (tt, w1) ∧
    get_n 3 (sample_event 1 0) w1 =
      Some ([(true, Some (sample_event 8 20)); (true, Some (sample_event 7 10));
             (true, Some (sample_event 7 30))], w2).
Proof.
  destruct (fifo_order [2; 1; 3]%positive (sample_event 1 0) (sample_world [] []))
    as (w1 & w2 & Hpush & _ & Hget & _).
  - reflexivity.
  - vm_compute. lia.
  - vm_compute. reflexivity.
  - exists w1, w2. split; [exact Hpush|exact Hget].
Defined.

(** C2.  A push onto a queue that holds [MAX_QUEUE_SIZE] = 512 events returns
    normally and leaves the buffer, the membership list and every record
    (hence every reference count) as they were; nobody is woken up.  So of
    513 events pushed onto a fresh queue the first 512 are what draining the
    queue yields: the last one pushed is the one lost. *)
Theorem push_at_capacity_drops_newest :
  (∀ (e : event_ptr) (w : world),
     length (events (queue w)) = MAX_QUEUE_SIZE →
     ∃ w', _al_event_queue_push_event e w = Some (tt, w') ∧
           events (queue w') = events (queue w) ∧
           sources (queue w') = sources (queue w) ∧
           heap w' = heap w ∧
           trace w' = trace w ++ lock_unlock (queue w) (events (queue w))) ∧
  (∀ (h : gmap event_ptr ALLEGRO_EVENT) (now : Z) (w0 : world)
     (es : list event_ptr) (ret_event : ALLEGRO_EVENT) (fuel : nat),
     al_create_event_queue true h now = Some w0 →
     length es = S MAX_QUEUE_SIZE →
     forallb (pushable h) es = true →
     (MAX_QUEUE_SIZE < fuel)%nat →
     ∃ w1 w2 drained,
       push_all es w0 = Some (tt, w1) ∧
       events (queue w1) = take MAX_QUEUE_SIZE es ∧
       drain fuel ret_event w1 = Some (drained, w2) ∧
       Forall2 (λ e r, ∃ ev, h !! e = Some ev ∧ r = _al_copy_event ret_event ev)
               (take MAX_QUEUE_SIZE es) drained ∧
       events (queue w2) = []).
Proof.
  split.
  - intros e w Hlen.
    destruct (push_full_spec e w) as (w' & Hrun & Hevs & Hsrc & _ & Hh & _ & Htr); [lia|].
    exists w'. by repeat split.
  - intros h now w0 es ret fuel [= <-] Hlen Hes Hfuel.
    match goal with |- context [push_all es ?w] => set (w0 := w) end.
    destruct (push_all_spec es w0) as (w1 & new & Hrun & Hevs & _ & Hsim & Hmono & _);
      [simpl; lia|done|].
    simpl in Hevs.
    assert (forallb (allocated (heap w1)) (take MAX_QUEUE_SIZE es) = true) as Hal.
    { apply forallb_take. eapply forallb_impl; [|exact Hes]. intros p Hp.
      apply Hmono. by apply pushable_allocated. }
    destruct (drain_spec ret (take MAX_QUEUE_SIZE es) fuel w1 h) as (w2 & Hdr & Hevs2 & _);
      [rewrite length_take; lia|done|done|done|].
    exists w1, w2. eexists. split; [done|]. split; [done|]. split; [exact Hdr|].
    split; [|done]. apply contents_Forall2, forallb_take.
    by apply forallb_pushable_allocated.
Qed.

Lemma push_at_capacity_drops_newest_witness :
  (∃ w', _al_event_queue_push_event 2
           (sample_world (replicate 512 1%positive) []) = Some (tt, w') ∧
         events (queue w') = replicate 512 1%positive ∧ heap w' = sample_heap) ∧
  (∃ w1 w2 drained,
     push_all (many_events 513)
       (mkWorld new_queue (many_heap 513) 0 [(Call_register_destructor, new_queue)])
       = Some (tt, w1) ∧
     events (queue w1) = many_events 512 ∧
     drain 600 (sample_event 1 0) w1 = Some (drained, w2) ∧
     length drained = 512%nat).
Proof.
  split.
  - destruct (proj1 push_at_capacity_drops_newest 2%positive
                (sample_world (replicate 512 1%positive) []))
      as (w' & Hrun & Hevs & _ & Hh & _).
    + vm_compute. reflexivity.
    + exists w'. split; [exact Hrun|]. split; [exact Hevs|exact Hh].
  - destruct (proj2 push_at_capacity_drops_newest (many_heap 513) 0
                (mkWorld new_queue (many_heap 513) 0 [(Call_register_destructor, new_queue)])
                (many_events 513) (sample_event 1 0) 600%nat)
      as (w1 & w2 & drained & Hpush & Hevs & Hdr & Hall & _).
    + reflexivity.
    + vm_compute. reflexivity.
    + vm_compute. reflexivity.
    + vm_compute. lia.
    + exists w1, w2, drained. split; [exact Hpush|]. split; [exact Hevs|].
      split; [exact Hdr|]. apply Forall2_length in Hall. rewrite <- Hall.
      vm_compute. reflexivity.
Defined.


Lemma until_woken_spurious sp wk l :
  spurious sp = true → wk_result wk = -1 →
  until_woken (sp ++ wk :: l) = sp ++ [wk].
Proof.
  intros Hsp Hwk. induction sp as [|wk0 sp IH]; simpl.
  - unfold ends_sleep. by rewrite (bool_decide_eq_true_2 _ Hwk).
  - simpl in Hsp. apply andb_true_iff in Hsp as [H0 Hsp].
    apply andb_true_iff in H0 as [Hp Hr].
    unfold ends_sleep at 1. rewrite Hp. apply bool_decide_eq_true in Hr.
    rewrite bool_decide_eq_false_2 by done. simpl. by rewrite IH.
Qed.

(** C3.  A timed wait reads the clock once, first thing, and hands every
    [_al_cond_timedwait] of the call the one deadline [now + msecs] (as an
    [unsigned long]), whatever time the wake-ups in between take.  It sleeps
    through the wake-ups of the script up to the first that reports a
    time-out or finds events pushed, the deadline passing when the script
    has none, and through no other ([slept]).  It returns false exactly when
    the last of these reported a time-out: so, after wake-ups without cause,
    at the first wake-up that reports a time-out, whatever the script holds
    after it.  Then it releases nothing, and the caller's record, the buffer
    and the store of records are what the producers alone made of them: with
    no producer around, what they were before the call. *)
Theorem timed_wait_deadline_and_timeout (ulong_bits : Z) (env : list wakeup)
    (ret_event : option ALLEGRO_EVENT) (msecs : Z) (w : world) :
  0 ≤ msecs →
  forallb (allocated (heap w)) (events (queue w)) = true →
  env_pushable (heap w) env = true →
  ∃ b r w' w_env rest,
    wait_on_queue_timed ulong_bits env ret_event msecs w = Some ((b, r), w') ∧
    slept (events (queue w)) 0 env `prefix_of` env ++ [expiry] ∧
    producers_only (slept (events (queue w)) 0 env) w = Some (tt, w_env) ∧
    trace w' = trace w ++ (Call_current_time, queue w) :: rest ∧
    Forall (λ x, x.1 ≠ Call_current_time) rest ∧
    deadlines rest = replicate (length (slept (events (queue w)) 0 env))
                               (to_ulong ulong_bits (clock w + msecs)) ∧
    (0 ≤ clock w → clock w + msecs < 2 ^ ulong_bits →
     to_ulong ulong_bits (clock w + msecs) = clock w + msecs) ∧
    b = negb (bool_decide (final_result 0 (slept (events (queue w)) 0 env) = -1)) ∧
    (∀ sp wk after,
       events (queue w) = [] → env = sp ++ wk :: after →
       spurious sp = true → wk_result wk = -1 →
       b = false ∧ slept (events (queue w)) 0 env = sp ++ [wk]) ∧
    (b = false →
       r = ret_event ∧ events (queue w') = events (queue w_env) ∧
       sources (queue w') = sources (queue w) ∧ heap w' = heap w_env ∧
       released rest = []) ∧
    (b = false → quiet (slept (events (queue w)) 0 env) = true →
       events (queue w') = events (queue w) ∧ heap w' = heap w) ∧
    (b = true → events (queue w_env) ≠ []).
Proof.
  intros Hms Hal Henv.
  destruct (wait_timed_spec ulong_bits env ret_event msecs w Hms Hal Henv)
    as (b & r & w' & w_env & rest & Hrun & Hprod & Htr & Hnew & Hdl & Hsmall & Hb & Hfalse
        & Hquiet & Htrue).
  exists b, r, w', w_env, rest.
  split; [done|]. split; [apply slept_prefix|]. split; [done|]. split; [done|].
  split; [done|]. split; [done|]. split; [done|]. split; [done|].
  split; [|done].
  intros sp wk after Hevs -> Hsp Hwk.
  assert (slept (events (queue w)) 0 ((sp ++ wk :: after)) = sp ++ [wk]) as Hsl.
  { unfold slept. rewrite Hevs, !bool_decide_eq_true_2 by done. simpl.
    rewrite <- app_assoc. simpl. by apply until_woken_spurious. }
  split; [|done]. rewrite Hb, Hsl, final_result_snoc.
  by rewrite (bool_decide_eq_true_2 _ Hwk).
Qed.

Lemma timed_wait_deadline_and_timeout_witness :
  ∃ w' rest,
    wait_on_queue_timed 32
      [mkWakeup 5 [] 0; mkWakeup 7 [] (-1); mkWakeup 3 [2%positive] 0]
      (Some (sample_event 1 0)) 50 (sample_world [] []) =
      Some ((false, Some (sample_event 1 0)), w') ∧
    trace w' = (Call_current_time, queue (sample_world [] [])) :: rest ∧
    deadlines rest = [150; 150] ∧
    released rest = [] ∧
    events (queue w') = [] ∧
    heap w' = sample_heap.
Proof.
  destruct (timed_wait_deadline_and_timeout 32
              [mkWakeup 5 [] 0; mkWakeup 7 [] (-1); mkWakeup 3 [2%positive] 0]
              (Some (sample_event 1 0)) 50 (sample_world [] []))
    as (b & r & w' & w_env & rest & Hrun & _ & _ & Htr & _ & Hdl & _ & _ & Hfirst & Hto
        & Hq & _).
  - lia.
  - reflexivity.
  - vm_compute. reflexivity.
  - destruct (Hfirst [mkWakeup 5 [] 0] (mkWakeup 7 [] (-1)) [mkWakeup 3 [2%positive] 0])
      as [-> Hsl]; [reflexivity|reflexivity|reflexivity|reflexivity|].
    destruct (Hto eq_refl) as (-> & _ & _ & _ & Hrel).
    destruct (Hq eq_refl) as [Hevs Hheap]; [by rewrite Hsl|].
    exists w', rest. split; [exact Hrun|]. split; [exact Htr|].
    split. { rewrite Hdl, Hsl. vm_compute. reflexivity. }
    split; [exact Hrel|]. split; [exact Hevs|exact Hheap].
Defined.


Lemma unregistrations_release new :
  Forall (λ x, release_or_hook x.1 = true) new → unregistrations new = [].
Proof.
  induction 1 as [|[c q] new Hc _ IH]; [done|].
  unfold unregistrations in *. simpl. by destruct c.
Qed.

Lemma filter_remove_NoDup (s : source_ptr) l1 l2 :
  NoDup (l1 ++ s :: l2) → filter (λ x, x ≠ s) (l1 ++ s :: l2) = l1 ++ l2.
Proof.
  intros Hnd. apply NoDup_app in Hnd as (_ & Hl1 & Hl2).
  apply NoDup_cons in Hl2 as [Hs2 _].
  assert (∀ l : list source_ptr, s ∉ l → filter (λ x, x ≠ s) l = l) as Hid.
  { induction l as [|y l IH]; [done|]. intros [Hy Hl]%not_elem_of_cons.
    rewrite filter_cons_True by congruence. by rewrite IH. }
  rewrite filter_app, filter_cons_False by (by intros H; apply H).
  rewrite !Hid; [done|done|]. intros H. by apply (Hl1 s H); left.
Qed.

Lemma filter_disjoint_length {A} (P Q : A → Prop)
    `{∀ x, Decision (P x)} `{∀ x, Decision (Q x)} (l : list A) :
  (∀ x, P x → Q x → False) →
  (length (filter P l) + length (filter Q l) ≤ length l)%nat.
Proof.
  intros Hd. induction l as [|x l IH]; [done|].
  rewrite !filter_cons. destruct (decide (P x)), (decide (Q x)); simpl; try lia.
  exfalso. eauto.
Qed.

Lemma filter_cover {A} (P Q : A → Prop)
    `{∀ x, Decision (P x)} `{∀ x, Decision (Q x)} (l : list A) :
  (∀ x, P x → Q x → False) →
  (length (filter P l) + length (filter Q l) = length l)%nat →
  filter (λ x, ¬ P x) l = filter Q l.
Proof.
  intros Hd. induction l as [|x l IH]; [done|].
  rewrite !filter_cons.
  pose proof (filter_disjoint_length P Q l Hd) as Hle.
  destruct (decide (P x)), (decide (Q x)), (decide (¬ P x)); simpl;
    intros Hlen; try done; try (exfalso; eauto; fail); try lia.
  - apply IH. lia.
  - f_equal. apply IH. lia.
Qed.

(** C4.  Unregistering a source that is not a member changes nothing.
    Unregistering a member takes it out of the membership list, then tells
    the source once, then takes out of the buffer every record that names
    the source, releasing each of them once, and keeps the other records in
    their order.  So with three events of [s] and two of another source
    pushed after [s] was registered, unregistering [s] leaves the two events
    of the other source, in the order they were pushed. *)
Theorem unregister_purges_source :
  (∀ (s : source_ptr) (w : world),
     s ∉ sources (queue w) → al_unregister_event_source s w = Some (tt, w)) ∧
  (∀ (s : source_ptr) (w : world),
     s ∈ sources (queue w) →
     NoDup (sources (queue w)) →
     forallb (allocated (heap w)) (events (queue w)) = true →
     ∃ w' new,
       al_unregister_event_source s w = Some (tt, w') ∧
       sources (queue w') = filter (λ x, x ≠ s) (sources (queue w)) ∧
       (s ∉ sources (queue w')) ∧
       events (queue w') =
         filter (λ e, ¬ came_from (heap w) s e) (events (queue w)) ∧
       same_contents (heap w) (heap w') ∧
       trace w' = trace w ++ new ∧
       unregistrations new = [s] ∧
       released new = filter (came_from (heap w) s) (events (queue w))) ∧
  (∀ (h : gmap event_ptr ALLEGRO_EVENT) (now : Z) (w0 : world)
     (s s2 : source_ptr) (es : list event_ptr),
     al_create_event_queue true h now = Some w0 →
     s2 ≠ s →
     forallb (pushable h) es = true →
     length es = 5%nat →
     length (filter (came_from h s) es) = 3%nat →
     length (filter (came_from h s2) es) = 2%nat →
     ∃ w1 w2 w3,
       al_register_event_source s w0 = Some (tt, w1) ∧
       push_all es w1 = Some (tt, w2) ∧
       al_unregister_event_source s w2 = Some (tt, w3) ∧
       events (queue w3) = filter (came_from h s2) es ∧
       length (events (queue w3)) = 2%nat).
Proof.
  split; [|split].
  - apply unregister_not_member.
  - intros s w Hs Hnd Hal.
    destruct (unregister_member s w Hs Hal)
      as (w' & l1 & l2 & new & Hrun & Hsrc & Hl1 & Hsrc' & Hevs & _ & Hsim & _ & _ & Htr & Hrel & Hnew).
    exists w'. eexists. split; [exact Hrun|].
    rewrite Hsrc in Hnd. pose proof (filter_remove_NoDup s l1 l2 Hnd) as Hf.
    split; [by rewrite Hsrc, Hf|].
    split. { rewrite Hsrc'. apply NoDup_app in Hnd as (_ & _ & Hl2).
             apply NoDup_cons in Hl2 as [Hs2 _]. rewrite elem_of_app. tauto. }
    split; [done|]. split; [done|]. split; [exact Htr|].
    split; [|done]. transitivity (s :: unregistrations new); [reflexivity|].
    by rewrite (unregistrations_release _ Hnew).
  - intros h now w0 s s2 es [= <-] Hne Hes Hlen Hs Hs2.
    match goal with |- context [al_register_event_source s ?w] => set (w0 := w) end.
    destruct (register_not_member s w0) as (w1 & Hreg & Hq1 & Hh1 & _);
      [apply not_elem_of_nil|].
    destruct (push_all_spec es w1) as (w2 & new & Hpush & Hevs2 & Hsrc2 & Hsim2 & Hmono2 & _).
    { rewrite Hq1. simpl. lia. }
    { by rewrite Hh1. }
    rewrite Hq1 in Hevs2, Hsrc2. simpl in Hevs2, Hsrc2.
    rewrite take_ge in Hevs2 by (rewrite Hlen; unfold MAX_QUEUE_SIZE; lia).
    rewrite Hh1 in Hsim2, Hmono2. simpl in Hsim2, Hmono2.
    destruct (unregister_member s w2)
      as (w3 & l1 & l2 & new3 & Hrun & _ & _ & _ & Hevs3 & _).
    { rewrite Hsrc2. apply list_elem_of_here. }
    { rewrite Hevs2. eapply forallb_impl; [|exact Hes]. intros p Hp.
      apply Hmono2. by apply pushable_allocated. }
    assert (events (queue w3) = filter (came_from h s2) es) as Hres.
    { rewrite Hevs3, Hevs2.
      transitivity (filter (λ e, ¬ came_from h s e) es).
      - apply list_filter_iff. intros p.
        pose proof (came_from_same_contents _ _ s p Hsim2) as Hiff. tauto.
      - apply filter_cover; [|lia].
        unfold came_from. intros p H1 H2. rewrite H1 in H2.
        apply Hne. by injection H2. }
    exists w1, w2, w3. repeat split; try done. by rewrite Hres.
Qed.

Lemma unregister_purges_source_witness :
  al_unregister_event_source 9 (sample_world [1; 2]%positive [7]%positive) =
    Some (tt, sample_world [1; 2]%positive [7]%positive) ∧
  (∃ w', al_unregister_event_source 7
           (sample_world [1; 2; 3]%positive [8; 7]%positive) = Some (tt, w') ∧
         sources (queue w') = [8]%positive ∧ events (queue w') = [2]%positive) ∧
  (∃ w1 w2 w3,
     al_register_event_source 7
       (mkWorld new_queue sample_heap 0 [(Call_register_destructor, new_queue)])
       = Some (tt, w1) ∧
     push_all [1; 2; 3; 4; 5]%positive w1 = Some (tt, w2) ∧
     al_unregister_event_source 7 w2 = Some (tt, w3) ∧
     events (queue w3) = [2; 4]%positive).
Proof.
  destruct unregister_purges_source as (H1 & H2 & H3).
  split; [|split].
  - apply H1. apply (bool_decide_unpack _). vm_compute. exact I.
  - destruct (H2 7%positive (sample_world [1; 2; 3]%positive [8; 7]%positive))
      as (w' & new & Hrun & Hsrc & _ & Hevs & _).
    + apply (bool_decide_unpack _). vm_compute. exact I.
    + apply (bool_decide_unpack _). vm_compute. exact I.
    + vm_compute. reflexivity.
    + exists w'. split; [exact Hrun|]. split; [exact Hsrc|exact Hevs].
  - destruct (H3 sample_heap 0
                (mkWorld new_queue sample_heap 0 [(Call_register_destructor, new_queue)])
                7%positive 8%positive [1; 2; 3; 4; 5]%positive)
      as (w1 & w2 & w3 & Hreg & Hpush & Hun & Hevs & _).
    + reflexivity.
    + discriminate.
    + vm_compute. reflexivity.
    + reflexivity.
    + vm_compute. reflexivity.
    + vm_compute. reflexivity.
    + exists w1, w2, w3. split; [exact Hreg|]. split; [exact Hpush|].
      split; [exact Hun|exact Hevs].
Defined.


Lemma filter_eq_not_elem (s : source_ptr) l :
  s ∉ l → filter (λ x, x = s) l = [].
Proof.
  induction l as [|y l IH]; [done|]. intros [Hy Hl]%not_elem_of_cons.
  rewrite filter_cons_False by (intros ->; by apply Hy). by apply IH.
Qed.

(** C5.  Registering a member does nothing at all: no call, the same list.
    Registering a source that is not a member calls its registration hook
    while the list is still without it, and only then appends it: afterwards
    the list holds it exactly once. *)
Theorem register_notifies_then_adds (s : source_ptr) (w : world) :
  (s ∈ sources (queue w) → al_register_event_source s w = Some (tt, w)) ∧
  (s ∉ sources (queue w) →
   ∃ w', al_register_event_source s w = Some (tt, w') ∧
         trace w' = trace w ++ [(Call_on_registration_to_queue s, queue w)] ∧
         sources (queue w') = sources (queue w) ++ [s] ∧
         events (queue w') = events (queue w) ∧
         heap w' = heap w ∧
         length (filter (λ x, x = s) (sources (queue w'))) = 1%nat).
Proof.
  split; [apply register_member|]. intros Hs.
  destruct (register_not_member s w Hs) as (w' & Hrun & Hq & Hh & _ & Htr).
  exists w'. rewrite Hq. simpl. repeat split; try done.
  rewrite filter_app, filter_cons_True, filter_nil by done.
  rewrite length_app. simpl.
  by rewrite (filter_eq_not_elem s _ Hs).
Qed.

Lemma register_notifies_then_adds_witness :
  al_register_event_source 7 (sample_world [] [7]%positive) =
    Some (tt, sample_world [] [7]%positive) ∧
  (∃ w', al_register_event_source 8 (sample_world [] [7]%positive) = Some (tt, w') ∧
         trace w' = [(Call_on_registration_to_queue 8, mkQueue [] [7]%positive false)] ∧
         sources (queue w') = [7; 8]%positive).
Proof.
  split.
  - apply (proj1 (register_notifies_then_adds 7 (sample_world [] [7]%positive))).
    apply (bool_decide_unpack _). vm_compute. exact I.
  - destruct (proj2 (register_notifies_then_adds 8 (sample_world [] [7]%positive)))
      as (w' & Hrun & Htr & Hsrc & _).
    + apply (bool_decide_unpack _). vm_compute. exact I.
    + exists w'. split; [exact Hrun|]. split; [exact Htr|exact Hsrc].
Defined.

(** C6.  On an empty queue [al_get_next_event] and [al_peek_next_event]
    return false and [al_drop_next_event] returns, all three without a
    failure and with the buffer, the membership list and the records as
    they were.  On a queue whose head record exists [al_get_next_event]
    returns true, leaves the contents of the head in the caller's record and
    the rest of the buffer in the queue. *)
Theorem get_peek_drop_on_empty_and_get_on_nonempty (ret_event : ALLEGRO_EVENT) (w : world) :
  (events (queue w) = [] →
   ∃ w1 w2 w3,
     al_get_next_event ret_event w = Some ((false, Some ret_event), w1) ∧
     al_peek_next_event ret_event w = Some ((false, Some ret_event), w2) ∧
     al_drop_next_event w = Some (tt, w3) ∧
     Forall (λ w', events (queue w') = [] ∧
                   sources (queue w') = sources (queue w) ∧
                   heap w' = heap w) [w1; w2; w3]) ∧
  (∀ e rest ev,
     events (queue w) = e :: rest → heap w !! e = Some ev →
     ∃ w', al_get_next_event ret_event w =
             Some ((true, Some (_al_copy_event ret_event ev)), w') ∧
           events (queue w') = rest ∧
           sources (queue w') = sources (queue w)).
Proof.
  split.
  - intros He.
    destruct (get_empty_spec ret_event w He) as (w1 & H1 & Hq1 & Hh1 & _).
    destruct (peek_empty_spec ret_event w He) as (w2 & H2 & Hq2 & Hh2 & _).
    destruct (drop_empty_spec w He) as (w3 & H3 & Hq3 & Hh3 & _).
    exists w1, w2, w3. split; [done|]. split; [done|]. split; [done|].
    repeat constructor; try done; by rewrite ?Hq1, ?Hq2, ?Hq3.
  - intros e rest ev He Hev.
    destruct (get_cons_spec ret_event w e rest ev He Hev) as (w' & Hrun & Hq & _).
    exists w'. by rewrite Hq.
Qed.

Lemma get_peek_drop_on_empty_and_get_on_nonempty_witness :
  (∃ w1, al_get_next_event (sample_event 1 0) (sample_world [] [7]%positive) =
           Some ((false, Some (sample_event 1 0)), w1)) ∧
  (∃ w', al_get_next_event (sample_event 1 0) (sample_world [2; 1]%positive [7]%positive) =
           Some ((true, Some (sample_event 8 20)), w') ∧
         events (queue w') = [1]%positive).
Proof.
  split.
  - destruct (proj1 (get_peek_drop_on_empty_and_get_on_nonempty (sample_event 1 0)
                       (sample_world [] [7]%positive)))
      as (w1 & w2 & w3 & Hget & _).
    + reflexivity.
    + exists w1. exact Hget.
  - destruct (proj2 (get_peek_drop_on_empty_and_get_on_nonempty (sample_event 1 0)
                       (sample_world [2; 1]%positive [7]%positive))
                    2%positive [1]%positive (sample_event 8 20))
      as (w' & Hget & Hevs & _).
    + reflexivity.
    + reflexivity.
    + exists w'. split; [exact Hget|exact Hevs].
Defined.

(** C7.  Two calls of [al_peek_next_event] in a row give the same result and,
    when it is true, the same contents; each leaves the buffer, the
    membership list and every record (so every reference count) as it was,
    and [al_event_queue_is_empty] answers the same before, between and
    after. *)
Theorem peek_twice_same (ret_event ret_event' : ALLEGRO_EVENT) (w : world) :
  head_allocated w = true →
  ∃ b r r' w1 w2 empty,
    al_peek_next_event ret_event w = Some ((b, r), w1) ∧
    al_peek_next_event ret_event' w1 = Some ((b, r'), w2) ∧
    (b = true → r = r') ∧
    b = negb empty ∧
    Forall (λ w', events (queue w') = events (queue w) ∧
                  sources (queue w') = sources (queue w) ∧
                  heap w' = heap w ∧
                  al_event_queue_is_empty w' = Some (empty, w')) [w; w1; w2].
Proof.
  unfold head_allocated, allocated. intros Hhead.
  destruct (events (queue w)) as [|e rest] eqn:He.
  - destruct (peek_empty_spec ret_event w He) as (w1 & H1 & Hq1 & Hh1 & _).
    destruct (peek_empty_spec ret_event' w1) as (w2 & H2 & Hq2 & Hh2 & _);
      [by rewrite Hq1|].
    exists false, (Some ret_event), (Some ret_event'), w1, w2, true.
    split; [done|]. split; [done|]. split; [done|]. split; [done|].
    repeat (apply Forall_cons; split); [| | |apply Forall_nil];
      try exact I;
      cbv beta; unfold al_event_queue_is_empty; rewrite is_empty_run; simpl;
      rewrite ?Hq2, ?Hq1, ?Hh2, ?Hh1, ?He; simpl; rewrite ?He; done.
  - destruct (heap w !! e) as [ev|] eqn:Hev; [|done].
    destruct (peek_cons_spec ret_event w e rest ev He Hev) as (w1 & H1 & Hq1 & Hh1 & _).
    destruct (peek_cons_spec ret_event' w1 e rest ev) as (w2 & H2 & Hq2 & Hh2 & _);
      [by rewrite Hq1|by rewrite Hh1|].
    exists true, (Some (_al_copy_event ret_event ev)),
      (Some (_al_copy_event ret_event' ev)), w1, w2, false.
    split; [done|]. split; [done|]. split; [done|]. split; [done|].
    repeat (apply Forall_cons; split); [| | |apply Forall_nil];
      try exact I;
      cbv beta; unfold al_event_queue_is_empty; rewrite is_empty_run; simpl;
      rewrite ?Hq2, ?Hq1, ?Hh2, ?Hh1, ?He; simpl; rewrite ?He; done.
Qed.

Lemma peek_twice_same_witness :
  ∃ w1 w2,
    al_peek_next_event (sample_event 1 0) (sample_world [2; 1]%positive []) =
      Some ((true, Some (sample_event 8 20)), w1) ∧
    al_peek_next_event (sample_event 1 1) w1 =
      Some ((true, Some (sample_event 8 20)), w2) ∧
    events (queue w2) = [2; 1]%positive.
Proof.
  destruct (peek_twice_same (sample_event 1 0) (sample_event 1 1)
              (sample_world [2; 1]%positive []))
    as (b & r & r' & w1 & w2 & empty & H1 & H2 & Hb & _ & Hall).
  - reflexivity.
  - assert (b = true ∧ r = Some (sample_event 8 20)) as [-> ->].
    { revert H1. vm_compute. intros [= <- <- _]. done. }
    rewrite <- (Hb eq_refl) in H2. exists w1, w2.
    split; [exact H1|]. split; [exact H2|].
    apply Forall_cons in Hall as [_ Hall]. apply Forall_cons in Hall as [_ Hall].
    apply Forall_cons in Hall as [(Hevs & _) _]. exact Hevs.
Defined.


(** C8.  A queue as [al_create_event_queue] makes it holds no event, and no
    operation takes a queue that holds at most [MAX_QUEUE_SIZE] = 512 events to
    one that holds more: push, get, peek, drop, flush, register, unregister
    and destroy (and the emptiness test and the wait besides). *)
Theorem buffer_bound_invariant :
  (∀ (h : gmap event_ptr ALLEGRO_EVENT) (now : Z) (w0 : world),
     al_create_event_queue true h now = Some w0 →
     events (queue w0) = [] ∧ buffer_bounded w0) ∧
  (∀ (ulong_bits forever : Z) (o : op) (w w' : world),
     buffer_bounded w →
     run_op ulong_bits forever o w = Some (tt, w') →
     buffer_bounded w').
Proof.
  split.
  - intros h now w0 [= <-]. split; [done|]. unfold buffer_bounded. simpl. lia.
  - intros bits forever o w w' Hb Hrun.
    by apply (run_op_keeps_bound bits forever o w tt w' Hrun).
Qed.

Lemma buffer_bound_invariant_witness :
  buffer_bounded (mkWorld new_queue sample_heap 0 [(Call_register_destructor, new_queue)]) ∧
  (∃ w', run_op 32 (-1) (Op_push 3) (sample_world [1; 2]%positive []) = Some (tt, w') ∧
         buffer_bounded w') ∧
  (∃ w', run_op 32 (-1) Op_destroy (sample_world [1; 3]%positive [7]%positive) = Some (tt, w') ∧
         buffer_bounded w').
Proof.
  destruct buffer_bound_invariant as [H1 H2].
  split; [|split].
  - apply (H1 sample_heap 0). reflexivity.
  - destruct (run_op 32 (-1) (Op_push 3) (sample_world [1; 2]%positive []))
      as [[[] w']|] eqn:Hrun; [|vm_compute in Hrun; discriminate Hrun].
    exists w'. split; [reflexivity|].
    apply (H2 32 (-1) (Op_push 3) (sample_world [1; 2]%positive []) w').
    + vm_compute. lia.
    + exact Hrun.
  - destruct (run_op 32 (-1) Op_destroy (sample_world [1; 3]%positive [7]%positive))
      as [[[] w']|] eqn:Hrun; [|vm_compute in Hrun; discriminate Hrun].
    exists w'. split; [reflexivity|].
    apply (H2 32 (-1) Op_destroy (sample_world [1; 3]%positive [7]%positive) w').
    + vm_compute. lia.
    + exact Hrun.
Defined.

(** C9.  [al_flush_event_queue] on a queue whose buffered records exist
    leaves the buffer empty, so that [al_event_queue_is_empty] answers true;
    it hands every buffered record to [_al_release_event] once, last record
    first, and the mutex is not held at any of these calls. *)
Theorem flush_releases_all_unlocked (w : world) :
  forallb (allocated (heap w)) (events (queue w)) = true →
  ∃ w' new,
    al_flush_event_queue w = Some (tt, w') ∧
    events (queue w') = [] ∧
    al_event_queue_is_empty w' = Some (true, w') ∧
    trace w' = trace w ++ new ∧
    released new = reverse (events (queue w)) ∧
    released new ≡ₚ events (queue w) ∧
    Forall (λ x, release_or_hook x.1 = true → mutex x.2 = false) new.
Proof.
  intros Hal.
  destruct (flush_spec w Hal) as (w' & new & Hrun & Hevs & _ & _ & _ & _ & Htr & Hrel & Hnew).
  exists w', new. split; [done|]. split; [done|].
  split. { unfold al_event_queue_is_empty. rewrite is_empty_run. simpl. by rewrite Hevs. }
  split; [done|]. split; [done|]. split; [|done].
  rewrite Hrel. apply reverse_Permutation.
Qed.

Lemma flush_releases_all_unlocked_witness :
  ∃ w' new,
    al_flush_event_queue (sample_world [1; 2; 3]%positive []) = Some (tt, w') ∧
    events (queue w') = [] ∧
    trace w' = new ∧
    released new = [3; 2; 1]%positive.
Proof.
  destruct (flush_releases_all_unlocked (sample_world [1; 2; 3]%positive []))
    as (w' & new & Hrun & Hevs & _ & Htr & Hrel & _).
  - vm_compute. reflexivity.
  - exists w', new. split; [exact Hrun|]. split; [exact Hevs|].
    split; [exact Htr|exact Hrel].
Defined.

(** C10.  Push, get, peek, drop and flush (and the emptiness test and the
    wait) leave the membership list of the queue as it was: an operation
    that changes it is a register, an unregister or a destroy, and each of
    these three can change it. *)
Theorem sources_frame :
  (∀ (ulong_bits forever : Z) (o : op) (w w' : world),
     modifies_sources o = false →
     run_op ulong_bits forever o w = Some (tt, w') →
     sources (queue w') = sources (queue w)) ∧
  (∀ (o : op), modifies_sources o = false ↔
     ¬ ((∃ s, o = Op_register s) ∨ (∃ s, o = Op_unregister s) ∨ o = Op_destroy)) ∧
  (∀ (ulong_bits forever : Z),
     Forall (λ o, ∃ w w', run_op ulong_bits forever o w = Some (tt, w') ∧
                          sources (queue w') ≠ sources (queue w))
            [Op_register 7; Op_unregister 7; Op_destroy]).
Proof.
  split; [|split].
  - intros bits forever o w w' Hm Hrun.
    by apply (run_op_keeps_sources bits forever o Hm w tt w' Hrun).
  - intros o. destruct o; simpl; split; try done.
    all: try (intros _ [[s Hs]|[[s Hs]|Hs]]; discriminate Hs).
    all: intros H; exfalso; apply H; eauto.
  - intros bits forever. repeat (apply Forall_cons; split); try exact I.
    + exists (sample_world [] []),
        (mkWorld (mkQueue [] [7%positive] false) sample_heap 100
           [(Call_on_registration_to_queue 7, mkQueue [] [] false)]).
      split; [vm_compute; reflexivity|discriminate].
    + exists (sample_world [] [7]%positive),
        (mkWorld (mkQueue [] [] false) sample_heap 100
           [(Call_on_unregistration_from_queue 7, mkQueue [] [] false)]).
      split; [vm_compute; reflexivity|discriminate].
    + exists (sample_world [] [7]%positive),
        (mkWorld (mkQueue [] [] false) sample_heap 100
           [(Call_unregister_destructor, mkQueue [] [7%positive] false);
            (Call_on_unregistration_from_queue 7, mkQueue [] [] false);
            (Call_free_queue, mkQueue [] [] false)]).
      split; [vm_compute; reflexivity|discriminate].
    + by apply Forall_nil.
Qed.

Lemma sources_frame_witness :
  (∃ w', run_op 32 (-1) (Op_push 3) (sample_world [1; 2]%positive [7]%positive) = Some (tt, w') ∧
         sources (queue w') = [7]%positive) ∧
  (∃ w', run_op 32 (-1) Op_flush (sample_world [1; 2]%positive [7]%positive) = Some (tt, w') ∧
         sources (queue w') = [7]%positive).
Proof.
  destruct sources_frame as (H1 & _ & _).
  split.
  - destruct (run_op 32 (-1) (Op_push 3) (sample_world [1; 2]%positive [7]%positive))
      as [[[] w']|] eqn:Hrun; [|vm_compute in Hrun; discriminate Hrun].
    exists w'. split; [reflexivity|].
    apply (H1 32 (-1) (Op_push 3) (sample_world [1; 2]%positive [7]%positive) w').
    + reflexivity.
    + exact Hrun.
  - destruct (run_op 32 (-1) Op_flush (sample_world [1; 2]%positive [7]%positive))
      as [[[] w']|] eqn:Hrun; [|vm_compute in Hrun; discriminate Hrun].
    exists w'. split; [reflexivity|].
    apply (H1 32 (-1) Op_flush (sample_world [1; 2]%positive [7]%positive) w').
    + reflexivity.
    + exact Hrun.
Defined.


(** ** Get as peek followed by drop *)

Lemma released_lock_unlock q evs : released (lock_unlock q evs) = [].
Proof. reflexivity. Qed.

(** X1.  [al_get_next_event] is [al_peek_next_event] followed by
    [al_drop_next_event]. *)
Theorem get_is_peek_then_drop (ret_event : ALLEGRO_EVENT) (w : world) :
  head_allocated w = true →
  ∃ b r w_get w_peek w_drop,
    al_get_next_event ret_event w = Some ((b, r), w_get) ∧
    al_peek_next_event ret_event w = Some ((b, r), w_peek) ∧
    al_drop_next_event w_peek = Some (tt, w_drop) ∧
    queue w_drop = queue w_get ∧
    heap w_drop = heap w_get ∧
    released (trace w_drop) = released (trace w_get).
Proof.
  unfold head_allocated, allocated. intros Hhead.
  destruct (events (queue w)) as [|e rest] eqn:He.
  - destruct (get_empty_spec ret_event w He) as (wg & Hg & Hqg & Hhg & _ & Htg).
    destruct (peek_empty_spec ret_event w He) as (wp & Hp & Hqp & Hhp & _ & Htp).
    destruct (drop_empty_spec wp) as (wd & Hd & Hqd & Hhd & _ & Htd); [by rewrite Hqp|].
    exists false, (Some ret_event), wg, wp, wd.
    split; [done|]. split; [done|]. split; [done|].
    split; [by rewrite Hqd, Hqp, Hqg|]. split; [by rewrite Hhd, Hhp, Hhg|].
    by rewrite Htd, Htp, Htg, !released_app, !released_lock_unlock, !app_nil_r.
  - destruct (heap w !! e) as [ev|] eqn:Hev; [|done].
    destruct (get_cons_spec ret_event w e rest ev He Hev) as (wg & Hg & Hqg & Hhg & _ & Htg).
    destruct (peek_cons_spec ret_event w e rest ev He Hev) as (wp & Hp & Hqp & Hhp & _ & Htp).
    destruct (drop_cons_spec wp e rest ev) as (wd & Hd & Hqd & Hhd & _ & Htd);
      [by rewrite Hqp|by rewrite Hhp|].
    exists true, (Some (_al_copy_event ret_event ev)), wg, wp, wd.
    split; [done|]. split; [done|]. split; [done|].
    split; [by rewrite Hqd, Hqp, Hqg|]. split; [by rewrite Hhd, Hhp, Hhg|].
    by rewrite Htd, Htp, Htg, !released_app, !released_lock_unlock,
      !released_release_calls, !app_nil_r.
Qed.

Lemma get_is_peek_then_drop_witness :
  ∃ b r w_get w_peek w_drop,
    al_get_next_event (sample_event 1 0) (sample_world [2; 1]%positive []) = Some ((b, r), w_get) ∧
    al_peek_next_event (sample_event 1 0) (sample_world [2; 1]%positive []) = Some ((b, r), w_peek) ∧
    al_drop_next_event w_peek = Some (tt, w_drop) ∧
    queue w_drop = queue w_get ∧ heap w_drop = heap w_get.
Proof.
  destruct (get_is_peek_then_drop (sample_event 1 0) (sample_world [2; 1]%positive []))
    as (b & r & wg & wp & wd & Hg & Hp & Hd & Hq & Hh & _).
  - reflexivity.
  - exists b, r, wg, wp, wd. repeat split; assumption.
Defined.

(** ** Pushing onto a queue with room *)

Lemma push_count_out_of_range e ev w :
  (length (events (queue w)) < MAX_QUEUE_SIZE)%nat →
  heap w !! e = Some ev →
  INT_MIN ≤ any_refcount ev < 0 ∨ any_refcount ev = INT_MAX →
  _al_event_queue_push_event e w = None.
Proof.
  intros H He Hrc. unfold _al_event_queue_push_event. mrun.
  rewrite bool_decide_eq_true_2 by lia. simpl. rewrite He.
  destruct Hrc as [Hrc| ->].
  - rewrite to_int_small by (unfold INT_MIN, INT_MAX in *; lia).
    by rewrite bool_decide_eq_false_2 by lia.
  - by vm_compute.
Qed.

(** X2.  A push onto a queue with room, of a record whose count is not
    negative and below [INT_MAX], appends the event at the back, takes one
    more hold on the record and signals the condition variable once, with
    the event already in the buffer; nothing is released.  With a negative
    count, or with the count at [INT_MAX], where the increment overflows,
    the push fails its assertion on the count. *)
Theorem push_with_room_appends_and_signals (e : event_ptr) (w : world) :
  (length (events (queue w)) < MAX_QUEUE_SIZE)%nat →
  (∀ ev, heap w !! e = Some ev → 0 ≤ any_refcount ev < INT_MAX →
     ∃ w' new,
       _al_event_queue_push_event e w = Some (tt, w') ∧
       events (queue w') = events (queue w) ++ [e] ∧
       sources (queue w') = sources (queue w) ∧
       heap w' = <[e := set_refcount (any_refcount ev + 1) ev]> (heap w) ∧
       trace w' = trace w ++ new ∧
       broadcasts new = [events (queue w) ++ [e]] ∧
       released new = []) ∧
  (∀ ev, heap w !! e = Some ev →
     INT_MIN ≤ any_refcount ev < 0 ∨ any_refcount ev = INT_MAX →
     _al_event_queue_push_event e w = None).
Proof.
  intros Hroom. split.
  - intros ev Hev Hrc.
    destruct (push_room_spec e ev w Hroom Hev Hrc)
      as (w' & Hrun & Hevs & Hsrc & _ & Hheap & _ & Htr).
    exists w'. eexists. split; [done|]. split; [done|]. split; [done|].
    split; [done|]. split; [exact Htr|]. done.
  - intros ev. by apply push_count_out_of_range.
Qed.

Lemma push_with_room_appends_and_signals_witness :
  (∃ w', _al_event_queue_push_event 3 (sample_world [1; 2]%positive []) = Some (tt, w') ∧
         events (queue w') = [1; 2; 3]%positive ∧
         any_refcount <$> heap w' !! 3%positive = Some 1) ∧
  _al_event_queue_push_event 3
    (mkWorld (mkQueue [1; 2]%positive [] false)
             (<[3%positive := set_refcount INT_MAX (sample_event 7 30)]> sample_heap)
             100 []) = None.
Proof.
  split.
  - destruct (push_with_room_appends_and_signals 3 (sample_world [1; 2]%positive []))
      as (Hok & _).
    { vm_compute. lia. }
    destruct (Hok (sample_event 7 30)) as (w' & new & Hrun & Hevs & _ & Hheap & _).
    + vm_compute. reflexivity.
    + unfold INT_MAX. simpl. lia.
    + exists w'. split; [exact Hrun|]. split; [exact Hevs|].
      rewrite Hheap. vm_compute. reflexivity.
  - destruct (push_with_room_appends_and_signals 3
                (mkWorld (mkQueue [1; 2]%positive [] false)
                   (<[3%positive := set_refcount INT_MAX (sample_event 7 30)]> sample_heap)
                   100 []))
      as (_ & Hfail).
    { vm_compute. lia. }
    apply (Hfail (set_refcount INT_MAX (sample_event 7 30))).
    + vm_compute. reflexivity.
    + right. reflexivity.
Defined.

(** ** Relations that every step respects, by primitive *)

Section Stepwise.

Variable R : world → world → Prop.
Hypothesis R_refl : ∀ w, R w w.
Hypothesis R_trans : ∀ w1 w2 w3, R w1 w2 → R w2 w3 → R w1 w3.

(** Steps on the two vectors, notices, and releases. *)
Hypothesis R_write : ∀ v l, respects R (write_vector v l).
Hypothesis R_notice : ∀ c, notice_call c = true → respects R (log c).
Hypothesis R_release : ∀ e, respects R (_al_release_event e).

Lemma stepwise_ret {A : Type} (a : A) : respects R (mret a).
Proof. intros w a' w' [= _ <-]. apply R_refl. Qed.

Lemma stepwise_abort {A : Type} : respects R (@abort A).
Proof. intros w a w' [=]. Qed.

Lemma stepwise_bind {A B : Type} (m : M A) (f : A → M B) :
  respects R m → (∀ a, respects R (f a)) → respects R (m ≫= f).
Proof.
  intros Hm Hf w b w2 H. apply bind_inv in H as (a & w1 & H1 & H2).
  eapply R_trans; [by eapply Hm|by eapply Hf].
Qed.

Lemma stepwise_while fuel cond body :
  respects R cond → respects R body → respects R (while fuel cond body).
Proof.
  intros Hc Hb. induction fuel as [|fuel IH]; simpl.
  - apply stepwise_bind; [done|]. intros [|]; [apply stepwise_abort|apply stepwise_ret].
  - apply stepwise_bind; [done|]. intros [|]; [|apply stepwise_ret].
    apply stepwise_bind; [done|]. intros _. exact IH.
Qed.

Lemma stepwise_load p : respects R (load p).
Proof.
  intros w a w'. unfold load. destruct (heap w !! p); [|done].
  intros [= _ <-]. apply R_refl.
Qed.

Lemma stepwise_read_vector v : respects R (read_vector v).
Proof. intros w a w' [= _ <-]. apply R_refl. Qed.

Lemma stepwise_get_world : respects R get_world.
Proof. intros w a w' [= _ <-]. apply R_refl. Qed.

Local Hint Resolve stepwise_load stepwise_read_vector stepwise_get_world : core.

Ltac stepwise :=
  repeat match goal with
    | |- respects R (mret _) => apply stepwise_ret
    | |- respects R abort => apply stepwise_abort
    | |- respects R (_ ≫= _) => apply stepwise_bind; [|intros ?]
    | |- respects R (if ?b then _ else _) => destruct b
    | |- respects R (match ?x with _ => _ end) => destruct x
    | |- respects R (let _ := _ in _) => progress (cbv zeta)
    | |- respects R (write_vector _ _) => apply R_write
    | |- respects R (log _) => apply R_notice; reflexivity
    | |- respects R (_al_release_event _) => apply R_release
    | |- _ => solve [auto]
    end.

Lemma stepwise_size v : respects R (_al_vector_size v).
Proof. unfold _al_vector_size. stepwise. Qed.

Lemma stepwise_is_empty v : respects R (_al_vector_is_empty v).
Proof. unfold _al_vector_is_empty. stepwise. Qed.

Local Hint Resolve stepwise_size stepwise_is_empty : core.

Lemma stepwise_is_nonempty v : respects R (_al_vector_is_nonempty v).
Proof. unfold _al_vector_is_nonempty. stepwise. Qed.

Lemma stepwise_ref v i : respects R (_al_vector_ref v i).
Proof. unfold _al_vector_ref. stepwise. Qed.

Local Hint Resolve stepwise_is_nonempty stepwise_ref : core.

Lemma stepwise_ref_front v : respects R (_al_vector_ref_front v).
Proof. unfold _al_vector_ref_front. stepwise. Qed.

Lemma stepwise_ref_back v : respects R (_al_vector_ref_back v).
Proof. unfold _al_vector_ref_back. stepwise. Qed.

Lemma stepwise_delete_at v i : respects R (_al_vector_delete_at v i).
Proof. unfold _al_vector_delete_at. stepwise. Qed.

Lemma stepwise_alloc_back v x : respects R (_al_vector_alloc_back v x).
Proof. unfold _al_vector_alloc_back. stepwise. Qed.

Lemma stepwise_ASSERT b : respects R (ASSERT b).
Proof. unfold ASSERT. stepwise. Qed.

Local Hint Resolve stepwise_ref_front stepwise_ref_back stepwise_delete_at
  stepwise_alloc_back stepwise_ASSERT : core.

Lemma stepwise_register s : respects R (al_register_event_source s).
Proof.
  unfold al_register_event_source, _al_vector_contains, _al_vector_find,
    _al_event_source_on_registration_to_queue.
  stepwise.
Qed.

Lemma stepwise_unregister_scan fuel s : ∀ i, respects R (unregister_scan fuel s i).
Proof. induction fuel as [|fuel IH]; intros i; simpl; stepwise. Qed.

Lemma stepwise_unregister s : respects R (al_unregister_event_source s).
Proof.
  unfold al_unregister_event_source, _al_vector_find_and_delete, _al_vector_find,
    _al_event_source_on_unregistration_from_queue.
  stepwise. apply stepwise_unregister_scan.
Qed.

Lemma stepwise_destroy : respects R al_destroy_event_queue.
Proof.
  unfold al_destroy_event_queue, _al_vector_free. stepwise.
  apply stepwise_while; [auto|]. unfold destroy_body. stepwise.
  apply stepwise_unregister.
Qed.

(** Steps under the mutex. *)
Hypothesis R_mutex_call : ∀ c, mutex_call c = true → respects R (log c).
Hypothesis R_set_mutex : ∀ b, respects R (set_mutex b).

Lemma stepwise_mutex_lock : respects R _al_mutex_lock.
Proof. unfold _al_mutex_lock. apply stepwise_bind; [by apply R_mutex_call|done]. Qed.

Lemma stepwise_mutex_unlock : respects R _al_mutex_unlock.
Proof. unfold _al_mutex_unlock. apply stepwise_bind; [by apply R_mutex_call|done]. Qed.

Local Hint Resolve stepwise_mutex_lock stepwise_mutex_unlock : core.

Lemma stepwise_get_next_event_if_any b : respects R (get_next_event_if_any b).
Proof. unfold get_next_event_if_any. stepwise. Qed.

Local Hint Resolve stepwise_get_next_event_if_any : core.

Lemma stepwise_get_peek_or_drop c r :
  respects R (get_peek_or_drop_next_event c r).
Proof. unfold get_peek_or_drop_next_event. stepwise. Qed.

Lemma stepwise_drop : respects R al_drop_next_event.
Proof. unfold al_drop_next_event. stepwise. apply stepwise_get_peek_or_drop. Qed.

Lemma stepwise_flush : respects R al_flush_event_queue.
Proof.
  unfold al_flush_event_queue. stepwise. apply stepwise_while; [auto|].
  unfold flush_body. stepwise.
Qed.

(** Steps of a wait and of the producers that end it. *)
Hypothesis R_push : ∀ e, respects R (_al_event_queue_push_event e).
Hypothesis R_signal : ∀ c, signal_call c = true → respects R (log c).
Hypothesis R_clock : ∀ f : world → Z, respects R (modify (λ w, set_clock (f w) w)).

Lemma stepwise_push_all es : respects R (push_all es).
Proof. induction es as [|e es IH]; simpl; stepwise. Qed.

Lemma stepwise_producers wk : respects R (producers wk).
Proof.
  unfold producers. apply stepwise_bind; [|intros _; apply stepwise_push_all].
  apply (R_clock (λ w, clock w + wk_elapsed wk)).
Qed.

Local Hint Resolve stepwise_producers : core.

Lemma stepwise_cond_wait wk : respects R (_al_cond_wait wk).
Proof.
  unfold _al_cond_wait. apply stepwise_bind; [by apply R_signal|]. intros _. stepwise.
Qed.

Lemma stepwise_cond_timedwait wk t : respects R (_al_cond_timedwait wk t).
Proof.
  unfold _al_cond_timedwait. apply stepwise_bind; [by apply R_signal|]. intros _.
  stepwise.
Qed.

Local Hint Resolve stepwise_cond_wait stepwise_cond_timedwait : core.

Lemma stepwise_forever_loop env : respects R (forever_loop env).
Proof. induction env as [|wk env IH]; simpl; stepwise. Qed.

Lemma stepwise_timed_loop env t : ∀ r, respects R (timed_loop env t r).
Proof. induction env as [|wk env IH]; intros r; simpl; stepwise. Qed.

Local Hint Resolve stepwise_forever_loop stepwise_timed_loop : core.

Lemma stepwise_wait_forever env ret : respects R (wait_on_queue_forever env ret).
Proof. unfold wait_on_queue_forever. stepwise. Qed.

Lemma stepwise_wait_timed bits env ret msecs :
  respects R (wait_on_queue_timed bits env ret msecs).
Proof.
  unfold wait_on_queue_timed, al_current_time.
  apply stepwise_bind; [|intros ?; stepwise].
  apply stepwise_bind; [by apply R_signal|]. intros _. stepwise.
Qed.

Lemma stepwise_wait bits forever env ret msecs :
  respects R (al_wait_for_event bits forever env ret msecs).
Proof.
  unfold al_wait_for_event. stepwise.
  - apply stepwise_wait_forever.
  - apply stepwise_wait_timed.
Qed.

End Stepwise.

(** ** What the operations do to the records and the mutex *)

Lemma release_inv e w w' :
  _al_release_event e w = Some (tt, w') →
  ∃ ev, heap w !! e = Some ev ∧
        queue w' = queue w ∧
        heap w' = <[e := set_refcount (any_refcount ev - 1) ev]> (heap w) ∧
        clock w' = clock w ∧
        trace w' = trace w ++ release_calls e ev (queue w).
Proof.
  intros H. destruct (heap w !! e) as [ev|] eqn:Hev.
  - destruct (release_spec e ev w Hev) as (w1 & Hrun & Hrest).
    rewrite Hrun in H. injection H as <-. by exists ev.
  - by rewrite release_None in H.
Qed.

Lemma push_heap_inv e w w' :
  _al_event_queue_push_event e w = Some (tt, w') →
  heap w' = heap w ∨
  ∃ ev, heap w !! e = Some ev ∧
        heap w' = <[e := set_refcount (to_int (any_refcount ev + 1)) ev]> (heap w).
Proof.
  unfold _al_event_queue_push_event. mrun.
  destruct (bool_decide (length (events (queue w)) < MAX_QUEUE_SIZE)%nat); simpl.
  - destruct (heap w !! e) as [ev|]; [|done].
    destruct (bool_decide (to_int (any_refcount ev + 1) > 0)); simpl; [|done].
    intros [= <-]. simpl. right. by exists ev.
  - intros [= <-]. simpl. by left.
Qed.

Lemma run_op_keeps_contents bits forever o :
  respects keeps_contents (run_op bits forever o).
Proof.
  assert (∀ w, keeps_contents w w) as Hrefl by (intros w; apply same_contents_refl).
  assert (∀ w1 w2 w3, keeps_contents w1 w2 → keeps_contents w2 w3 → keeps_contents w1 w3)
    as Htrans by (intros ???; apply same_contents_trans).
  assert (∀ f, (∀ w, heap (f w) = heap w) → respects keeps_contents (modify f)) as Hmod.
  { intros f Hf w [] w' [= <-]. unfold keeps_contents. rewrite Hf.
    apply same_contents_refl. }
  assert (∀ v l, respects keeps_contents (write_vector v l)) as Hwrite.
  { intros v l. by apply Hmod. }
  assert (∀ c, respects keeps_contents (log c)) as Hlog.
  { intros c. by apply Hmod. }
  assert (∀ e, respects keeps_contents (_al_release_event e)) as Hrel.
  { intros e w [] w' H. destruct (release_inv e w w' H) as (ev & Hev & _ & Hh & _).
    unfold keeps_contents. rewrite Hh. by apply same_contents_insert. }
  assert (∀ b, respects keeps_contents (set_mutex b)) as Hmx.
  { intros b. by apply Hmod. }
  assert (∀ e, respects keeps_contents (_al_event_queue_push_event e)) as Hpush.
  { intros e w [] w' H. unfold keeps_contents.
    destruct (push_heap_inv e w w' H) as [->|(ev & Hev & ->)].
    - apply same_contents_refl.
    - by apply same_contents_insert. }
  assert (∀ f : world → Z, respects keeps_contents (modify (λ w, set_clock (f w) w))) as Hclk.
  { intros f. by apply Hmod. }
  destruct o; simpl.
  - apply Hpush.
  - apply stepwise_bind; [assumption| |intros ?; by apply stepwise_ret].
    apply stepwise_get_peek_or_drop; auto.
  - apply stepwise_bind; [assumption| |intros ?; by apply stepwise_ret].
    apply stepwise_get_peek_or_drop; auto.
  - apply stepwise_drop; auto.
  - apply stepwise_flush; auto.
  - apply stepwise_bind; [assumption| |intros ?; by apply stepwise_ret].
    apply stepwise_is_empty; auto.
  - apply stepwise_bind; [assumption| |intros ?; by apply stepwise_ret].
    apply stepwise_wait; auto.
  - apply stepwise_register; auto.
  - apply stepwise_unregister; auto.
  - apply stepwise_destroy; auto.
Qed.

Lemma releases_only_refl w : releases_only w w.
Proof. exists []. by rewrite app_nil_r. Qed.

Lemma releases_only_trans w1 w2 w3 :
  releases_only w1 w2 → releases_only w2 w3 → releases_only w1 w3.
Proof.
  intros (n1 & Ht1 & Hh1) (n2 & Ht2 & Hh2). exists (n1 ++ n2).
  rewrite Ht2, Ht1, Hh2, Hh1, released_app, foldl_app, app_assoc. done.
Qed.

Lemma run_op_releases_only bits forever o :
  produces o = false → respects releases_only (run_op bits forever o).
Proof.
  pose proof releases_only_refl as Hrefl.
  pose proof releases_only_trans as Htrans.
  assert (∀ f, (∀ w, heap (f w) = heap w ∧ trace (f w) = trace w) →
               respects releases_only (modify f)) as Hmod.
  { intros f Hf w [] w' [= <-]. exists []. destruct (Hf w) as [-> ->].
    by rewrite app_nil_r. }
  assert (∀ v l, respects releases_only (write_vector v l)) as Hwrite.
  { intros v l. by apply Hmod. }
  assert (∀ c, (∀ e, c ≠ Call_release_event e) → respects releases_only (log c)) as Hlog.
  { intros c Hc w [] w' [= <-]. exists [(c, queue w)]. split; [done|].
    rewrite released_cons. destruct c; try done. by destruct (Hc e). }
  assert (∀ e, respects releases_only (_al_release_event e)) as Hrel.
  { intros e w [] w' H. destruct (release_inv e w w' H) as (ev & Hev & _ & Hh & _ & Ht).
    eexists. split; [exact Ht|]. rewrite released_release_calls. simpl.
    unfold unretain. by rewrite Hev. }
  assert (∀ b, respects releases_only (set_mutex b)) as Hmx.
  { intros b. by apply Hmod. }
  assert (∀ c, notice_call c = true → respects releases_only (log c)) as Hnotice.
  { intros c Hc. apply Hlog. intros e ->. discriminate Hc. }
  assert (∀ c, mutex_call c = true → respects releases_only (log c)) as Hmcall.
  { intros c Hc. apply Hlog. intros e ->. discriminate Hc. }
  destruct o; simpl; intros Hp; try discriminate Hp; clear Hp.
  - apply stepwise_bind; [assumption| |intros ?; by apply stepwise_ret].
    apply stepwise_get_peek_or_drop; auto.
  - apply stepwise_bind; [assumption| |intros ?; by apply stepwise_ret].
    apply stepwise_get_peek_or_drop; auto.
  - apply stepwise_drop; auto.
  - apply stepwise_flush; auto.
  - apply stepwise_bind; [assumption| |intros ?; by apply stepwise_ret].
    apply stepwise_is_empty; auto.
  - apply stepwise_register; auto.
  - apply stepwise_unregister; auto.
  - apply stepwise_destroy; auto.
Qed.

Lemma leaves_mutex_refl w : leaves_mutex w w.
Proof. split; [done|]. exists []. by rewrite app_nil_r. Qed.

Lemma leaves_mutex_trans w1 w2 w3 :
  leaves_mutex w1 w2 → leaves_mutex w2 w3 → leaves_mutex w1 w3.
Proof.
  intros (Hm1 & n1 & Ht1 & Hn1) (Hm2 & n2 & Ht2 & Hn2). split; [congruence|].
  exists (n1 ++ n2). rewrite Ht2, Ht1, app_assoc. split; [done|].
  apply Forall_app. split; [done|]. eapply Forall_impl; [exact Hn2|].
  intros x [? ?]. split; [done|congruence].
Qed.

Lemma run_op_leaves_mutex bits forever o :
  takes_lock o = false → respects leaves_mutex (run_op bits forever o).
Proof.
  pose proof leaves_mutex_refl as Hrefl.
  pose proof leaves_mutex_trans as Htrans.
  assert (∀ v l, respects leaves_mutex (write_vector v l)) as Hwrite.
  { intros v l w [] w' [= <-]. split; [by destruct v|]. exists [].
    by rewrite app_nil_r. }
  assert (∀ c, mutex_call c = false → respects leaves_mutex (log c)) as Hlog.
  { intros c Hc w [] w' [= <-]. split; [done|]. exists [(c, queue w)].
    split; [done|]. by repeat constructor. }
  assert (∀ e, respects leaves_mutex (_al_release_event e)) as Hrel.
  { intros e w [] w' H. destruct (release_inv e w w' H) as (ev & Hev & Hq & _ & _ & Ht).
    split; [by rewrite Hq|]. eexists. split; [exact Ht|].
    unfold release_calls. destruct (decide _); by repeat constructor. }
  assert (∀ c, notice_call c = true → respects leaves_mutex (log c)) as Hnotice.
  { intros c Hc. apply Hlog. by destruct c. }
  destruct o; simpl; intros Hp; try discriminate Hp; clear Hp.
  - apply stepwise_bind; [assumption| |intros ?; by apply stepwise_ret].
    apply stepwise_is_empty; auto.
  - apply stepwise_register; auto.
  - apply stepwise_unregister; auto.
  - apply stepwise_destroy; auto.
Qed.

(** ** Sleeping and waking up *)

Lemma waits_app t1 t2 : waits (t1 ++ t2) = (waits t1 + waits t2)%nat.
Proof. unfold waits. by rewrite filter_app, length_app. Qed.

Lemma waits_cons c q t :
  waits ((c, q) :: t) = if wait_call c then S (waits t) else waits t.
Proof. unfold waits. rewrite filter_cons. simpl. by destruct (wait_call c). Qed.

Lemma waits_nil : waits [] = 0%nat.
Proof. reflexivity. Qed.

Lemma waits_producers new :
  Forall (λ x, producer_call x.1 = true) new → waits new = 0%nat.
Proof.
  induction 1 as [|[c q] new Hc _ IH]; [done|].
  unfold waits in *. rewrite filter_cons. simpl in *.
  destruct c; try discriminate Hc; by rewrite decide_False by done.
Qed.

Lemma released_producers new :
  Forall (λ x, producer_call x.1 = true) new → released new = [].
Proof.
  induction 1 as [|[c q] new Hc _ IH]; [done|].
  rewrite released_cons. by destruct c.
Qed.

Lemma waits_release_calls e ev q : waits (release_calls e ev q) = 0%nat.
Proof. unfold release_calls. by destruct (decide _). Qed.

Lemma forever_loop_unfold env w :
  forever_loop env w =
  if bool_decide (events (queue w) = []) then
    match env with
    | [] => None
    | wk :: env' => (_al_cond_wait wk ;; forever_loop env') w
    end
  else Some (tt, w).
Proof.
  destruct env; simpl; rewrite (bind_Some _ _ _ _ _ (is_empty_run Events w));
    simpl; by destruct (bool_decide _).
Qed.

Lemma cond_wait_spec wk w :
  (length (events (queue w)) ≤ MAX_QUEUE_SIZE)%nat →
  forallb (pushable (heap w)) (wk_pushed wk) = true →
  ∃ w' new,
    _al_cond_wait wk w = Some (tt, w') ∧
    events (queue w') = take MAX_QUEUE_SIZE (events (queue w) ++ wk_pushed wk) ∧
    sources (queue w') = sources (queue w) ∧
    mutex (queue w') = true ∧
    same_contents (heap w) (heap w') ∧
    (∀ p, allocated (heap w) p = true → allocated (heap w') p = true) ∧
    (wk_pushed wk = [] → heap w' = heap w) ∧
    trace w' = trace w ++ (Call_cond_wait, queue w) :: new ∧
    Forall (λ x, producer_call x.1 = true) new.
Proof.
  intros Hlen Hes. unfold _al_cond_wait.
  set (w0 := mkWorld (mkQueue (events (queue w)) (sources (queue w)) false)
                     (heap w) (clock w) (trace w ++ [(Call_cond_wait, queue w)])).
  assert ((log Call_cond_wait ;; set_mutex false) w = Some (tt, w0)) as H0 by done.
  destruct (producers_spec wk w0 w0 (same_state_refl w0) Hlen Hes)
    as (w1 & v' & new & Hw & _ & _ & Hevs & Hsrc & Hsim & Hmono & Hnil & Htr & Hnew).
  exists (mkWorld (mkQueue (events (queue w1)) (sources (queue w1)) true)
                  (heap w1) (clock w1) (trace w1)), new.
  split.
  { change (log Call_cond_wait ;; set_mutex false ;; producers wk ;; set_mutex true)
      with ((log Call_cond_wait ;; set_mutex false) ≫=
            (λ _, producers wk ;; set_mutex true)).
    rewrite (bind_Some _ _ _ _ _ H0), (bind_Some _ _ _ _ _ Hw). done. }
  simpl. rewrite Htr. simpl. rewrite <- app_assoc. done.
Qed.

(** Sleeping through wake-ups without cause. *)
Lemma forever_loop_spurious sp : ∀ w,
  events (queue w) = [] → quiet sp = true →
  ∃ w1 new,
    (∀ env, forever_loop (sp ++ env) w = forever_loop env w1) ∧
    events (queue w1) = [] ∧ sources (queue w1) = sources (queue w) ∧
    heap w1 = heap w ∧
    (mutex (queue w) = true → mutex (queue w1) = true) ∧
    trace w1 = trace w ++ new ∧
    waits new = length sp ∧ released new = [].
Proof.
  induction sp as [|wk sp IH]; intros w Hevs Hsp.
  - exists w, []. by rewrite app_nil_r.
  - simpl in Hsp. apply andb_true_iff in Hsp as [Hq%bool_decide_eq_true Hsp].
    destruct (cond_wait_spec wk w) as (w1 & new & Hrun & Hevs1 & Hsrc1 & Hmx1 & _ & _ & Hh1 & Htr1 & Hnew1).
    { rewrite Hevs. simpl. lia. }
    { by rewrite Hq. }
    rewrite Hevs, Hq in Hevs1. simpl in Hevs1.
    destruct (IH w1 Hevs1 Hsp) as (w2 & new2 & Hloop & Hevs2 & Hsrc2 & Hh2 & Hmx2 & Htr2 & Hw2 & Hr2).
    exists w2. eexists. split.
    { intros env. simpl app. rewrite forever_loop_unfold, Hevs. simpl.
      rewrite (bind_Some _ _ _ _ _ Hrun). apply Hloop. }
    split; [done|]. split; [congruence|]. split; [by rewrite Hh2, (Hh1 Hq)|].
    split; [auto|].
    split. { rewrite Htr2, Htr1, <- app_assoc. reflexivity. }
    split.
    + rewrite waits_app, Hw2. unfold waits at 1. rewrite filter_cons. simpl.
      fold (waits new). by rewrite (waits_producers _ Hnew1).
    + rewrite released_app, Hr2, released_cons. cbv beta iota.
      by rewrite (released_producers _ Hnew1).
Qed.

Lemma timed_loop_spurious t sp : ∀ w r,
  events (queue w) = [] → r ≠ -1 → spurious sp = true →
  ∃ w1 r1 new,
    (∀ env, timed_loop (sp ++ env) t r w = timed_loop env t r1 w1) ∧
    r1 ≠ -1 ∧
    events (queue w1) = [] ∧ sources (queue w1) = sources (queue w) ∧
    heap w1 = heap w ∧
    (mutex (queue w) = true → mutex (queue w1) = true) ∧
    trace w1 = trace w ++ new ∧
    waits new = length sp ∧ released new = [] ∧
    deadlines new = replicate (length sp) t.
Proof.
  induction sp as [|wk sp IH]; intros w r Hevs Hr Hsp.
  - exists w, r, []. by rewrite app_nil_r.
  - simpl in Hsp. apply andb_true_iff in Hsp as [Hwk Hsp].
    apply andb_true_iff in Hwk as [Hq%bool_decide_eq_true Hres%bool_decide_eq_true].
    destruct (cond_timedwait_spec wk t w w (same_state_refl w))
      as (w1 & v1 & new & Hrun & _ & _ & Hevs1 & Hsrc1 & Hmx1 & _ & _ & Hh1 & Htr1 & Hnew1).
    { rewrite Hevs. simpl. lia. }
    { by rewrite Hq. }
    rewrite Hevs, Hq in Hevs1. simpl in Hevs1.
    destruct (IH w1 (wk_result wk) Hevs1 Hres Hsp)
      as (w2 & r2 & new2 & Hloop & Hr2 & Hevs2 & Hsrc2 & Hh2 & Hmx2 & Htr2 & Hw2 & Hrel2 & Hdl2).
    exists w2, r2. eexists. split.
    { intros env. simpl app. rewrite timed_loop_unfold, Hevs. simpl.
      rewrite (bool_decide_eq_true_2 (r ≠ -1)) by done.
      rewrite (bind_Some _ _ _ _ _ Hrun). apply Hloop. }
    split; [done|]. split; [done|]. split; [congruence|].
    split; [by rewrite Hh2, (Hh1 Hq)|]. split; [auto|].
    split. { rewrite Htr2, Htr1, <- app_assoc. reflexivity. }
    split; [|split].
    + rewrite waits_app, Hw2. unfold waits at 1. rewrite filter_cons. simpl.
      fold (waits new). by rewrite (waits_producers _ Hnew1).
    + rewrite released_app, Hrel2, released_cons. cbv beta iota.
      by rewrite (released_producers _ Hnew1).
    + rewrite deadlines_app, deadlines_cons, Hdl2, (deadlines_producers _ Hnew1). done.
Qed.

Lemma forever_loop_nonempty env w :
  events (queue w) ≠ [] → forever_loop env w = Some (tt, w).
Proof.
  intros H. rewrite forever_loop_unfold. by rewrite bool_decide_eq_false_2.
Qed.

Lemma timed_loop_nonempty env t r w :
  events (queue w) ≠ [] → timed_loop env t r w = Some (r, w).
Proof.
  intros H. rewrite timed_loop_unfold. by rewrite bool_decide_eq_false_2.
Qed.

(** What [wait_on_queue_forever] does once the loop is over. *)
Lemma wait_forever_after_loop env dest w w1 e l ev :
  forever_loop env
    (mkWorld (mkQueue (events (queue w)) (sources (queue w)) true)
             (heap w) (clock w) (trace w ++ [(Call_mutex_lock, queue w)]))
    = Some (tt, w1) →
  events (queue w1) = e :: l → heap w1 !! e = Some ev →
  ∃ w', wait_on_queue_forever env (Some dest) w =
          Some (Some (_al_copy_event dest ev), w') ∧
        queue w' = mkQueue l (sources (queue w1)) false ∧
        heap w' = <[e := set_refcount (any_refcount ev - 1) ev]> (heap w1) ∧
        clock w' = clock w1 ∧
        trace w' = trace w1 ++
          (Call_mutex_unlock, mkQueue l (sources (queue w1)) (mutex (queue w1))) ::
          release_calls e ev (mkQueue l (sources (queue w1)) false).
Proof.
  intros Hloop Hevs Hev. unfold wait_on_queue_forever.
  rewrite (bind_Some _ _ _ _ _ (mutex_lock_run w)), (bind_Some _ _ _ _ _ Hloop).
  unfold get_next_event_if_any. mrun.
  repeat (progress (rewrite ?Hevs, ?Hev; simpl)).
  match goal with |- context [_al_release_event e ?w2] =>
    destruct (release_spec e ev w2 Hev) as (w' & -> & Hq' & Hh' & Hc' & Ht') end.
  simpl in *. exists w'. split; [reflexivity|].
  rewrite Hq', Hh', Hc', Ht', <- app_assoc. done.
Qed.

Lemma wait_forever_null_after_loop env w w1 :
  forever_loop env
    (mkWorld (mkQueue (events (queue w)) (sources (queue w)) true)
             (heap w) (clock w) (trace w ++ [(Call_mutex_lock, queue w)]))
    = Some (tt, w1) →
  wait_on_queue_forever env None w =
    Some (None, mkWorld (mkQueue (events (queue w1)) (sources (queue w1)) false)
                        (heap w1) (clock w1)
                        (trace w1 ++ [(Call_mutex_unlock, queue w1)])).
Proof.
  intros Hloop. unfold wait_on_queue_forever.
  rewrite (bind_Some _ _ _ _ _ (mutex_lock_run w)), (bind_Some _ _ _ _ _ Hloop).
  reflexivity.
Qed.

(** What [wait_on_queue_timed] does once the loop is over without a
    time-out. *)
Lemma wait_timed_after_loop bits env dest msecs w w1 r e l ev :
  timed_loop env (to_ulong bits (clock w + msecs)) 0
    (mkWorld (mkQueue (events (queue w)) (sources (queue w)) true)
             (heap w) (clock w)
             ((trace w ++ [(Call_current_time, queue w)]) ++ [(Call_mutex_lock, queue w)]))
    = Some (r, w1) →
  r ≠ -1 →
  events (queue w1) = e :: l → heap w1 !! e = Some ev →
  ∃ w', wait_on_queue_timed bits env (Some dest) msecs w =
          Some ((true, Some (_al_copy_event dest ev)), w') ∧
        queue w' = mkQueue l (sources (queue w1)) false ∧
        heap w' = <[e := set_refcount (any_refcount ev - 1) ev]> (heap w1) ∧
        clock w' = clock w1 ∧
        trace w' = trace w1 ++
          (Call_mutex_unlock, mkQueue l (sources (queue w1)) (mutex (queue w1))) ::
          release_calls e ev (mkQueue l (sources (queue w1)) false).
Proof.
  intros Hloop Hr Hevs Hev. unfold wait_on_queue_timed.
  rewrite (bind_Some _ _ _ _ _ (al_current_time_run w)). cbv zeta.
  rewrite (bind_Some _ _ _ _ _ (mutex_lock_run _)). simpl.
  rewrite (bind_Some _ _ _ _ _ Hloop).
  rewrite (bool_decide_eq_false_2 (r = -1)) by done.
  unfold get_next_event_if_any. mrun.
  repeat (progress (rewrite ?Hevs, ?Hev; simpl)).
  match goal with |- context [_al_release_event e ?w2] =>
    destruct (release_spec e ev w2 Hev) as (w' & -> & Hq' & Hh' & Hc' & Ht') end.
  simpl in *. exists w'. split; [reflexivity|].
  rewrite Hq', Hh', Hc', Ht', <- app_assoc. done.
Qed.

Lemma wait_timed_null_after_loop bits env msecs w w1 r :
  timed_loop env (to_ulong bits (clock w + msecs)) 0
    (mkWorld (mkQueue (events (queue w)) (sources (queue w)) true)
             (heap w) (clock w)
             ((trace w ++ [(Call_current_time, queue w)]) ++ [(Call_mutex_lock, queue w)]))
    = Some (r, w1) →
  r ≠ -1 →
  wait_on_queue_timed bits env None msecs w =
    Some ((true, None),
          mkWorld (mkQueue (events (queue w1)) (sources (queue w1)) false)
                  (heap w1) (clock w1)
                  (trace w1 ++ [(Call_mutex_unlock, queue w1)])).
Proof.
  intros Hloop Hr. unfold wait_on_queue_timed.
  rewrite (bind_Some _ _ _ _ _ (al_current_time_run w)). cbv zeta.
  rewrite (bind_Some _ _ _ _ _ (mutex_lock_run _)). simpl.
  rewrite (bind_Some _ _ _ _ _ Hloop).
  rewrite (bool_decide_eq_false_2 (r = -1)) by done.
  reflexivity.
Qed.

Lemma wait_timed_out_after_loop bits env ret msecs w w1 :
  timed_loop env (to_ulong bits (clock w + msecs)) 0
    (mkWorld (mkQueue (events (queue w)) (sources (queue w)) true)
             (heap w) (clock w)
             ((trace w ++ [(Call_current_time, queue w)]) ++ [(Call_mutex_lock, queue w)]))
    = Some (-1, w1) →
  wait_on_queue_timed bits env ret msecs w =
    Some ((false, ret),
          mkWorld (mkQueue (events (queue w1)) (sources (queue w1)) false)
                  (heap w1) (clock w1)
                  (trace w1 ++ [(Call_mutex_unlock, queue w1)])).
Proof.
  intros Hloop. unfold wait_on_queue_timed.
  rewrite (bind_Some _ _ _ _ _ (al_current_time_run w)). cbv zeta.
  rewrite (bind_Some _ _ _ _ _ (mutex_lock_run _)). simpl.
  rewrite (bind_Some _ _ _ _ _ Hloop).
  reflexivity.
Qed.

Lemma wait_for_event_dispatch bits forever env ret msecs w :
  msecs = forever ∨ 0 ≤ msecs →
  al_wait_for_event bits forever env ret msecs w =
  if bool_decide (msecs = forever) then
    (r ← wait_on_queue_forever env ret; mret (true, r)) w
  else wait_on_queue_timed bits env ret msecs w.
Proof.
  intros H. unfold al_wait_for_event.
  assert (bool_decide (msecs = forever) || bool_decide (msecs >= 0) = true) as ->.
  { destruct H as [->|H].
    - by rewrite bool_decide_eq_true_2.
    - rewrite (bool_decide_eq_true_2 (msecs >= 0)) by lia. apply orb_true_r. }
  simpl. by destruct (bool_decide (msecs = forever)).
Qed.

(** ** Waiting for an event *)

(** X3.  On a queue that is not empty [al_wait_for_event] with a record to
    fill does not wait at all, whatever the time-out: it returns true and is
    an [al_get_next_event], with the same contents delivered and the same
    queue and records left. *)
Theorem wait_on_nonempty_is_get (ulong_bits forever : Z) (env : list wakeup)
    (dest : ALLEGRO_EVENT) (msecs : Z) (w : world) (e : event_ptr)
    (rest : list event_ptr) (ev : ALLEGRO_EVENT) :
  msecs = forever ∨ 0 ≤ msecs →
  events (queue w) = e :: rest →
  heap w !! e = Some ev →
  ∃ w' w_get new,
    al_wait_for_event ulong_bits forever env (Some dest) msecs w =
      Some ((true, Some (_al_copy_event dest ev)), w') ∧
    al_get_next_event dest w =
      Some ((true, Some (_al_copy_event dest ev)), w_get) ∧
    queue w' = queue w_get ∧
    heap w' = heap w_get ∧
    trace w' = trace w ++ new ∧
    waits new = 0%nat ∧
    released new = [e].
Proof.
  intros Hms Hevs Hev.
  destruct (get_cons_spec dest w e rest ev Hevs Hev) as (wg & Hg & Hqg & Hhg & _ & _).
  rewrite (wait_for_event_dispatch _ _ _ _ _ _ Hms).
  destruct (bool_decide (msecs = forever)).
  - set (w0 := mkWorld (mkQueue (events (queue w)) (sources (queue w)) true)
                       (heap w) (clock w) (trace w ++ [(Call_mutex_lock, queue w)])).
    assert (forever_loop env w0 = Some (tt, w0)) as Hloop.
    { apply forever_loop_nonempty. simpl. by rewrite Hevs. }
    destruct (wait_forever_after_loop env dest w w0 e rest ev Hloop Hevs Hev)
      as (w' & Hrun & Hq & Hh & _ & Ht).
    rewrite (bind_Some _ _ _ _ _ Hrun). exists w', wg. eexists.
    split; [done|]. split; [done|]. simpl in *.
    split; [by rewrite Hq, Hqg|]. split; [by rewrite Hh, Hhg|].
    split. { rewrite Ht, <- app_assoc. reflexivity. }
    split.
    + repeat (rewrite waits_release_calls || rewrite waits_app || rewrite waits_cons || rewrite waits_nil); cbn [wait_call]. done.
    + repeat (rewrite released_release_calls || rewrite released_app || rewrite released_cons); cbv beta iota. done.
  - set (w0 := mkWorld (mkQueue (events (queue w)) (sources (queue w)) true)
                       (heap w) (clock w)
                       ((trace w ++ [(Call_current_time, queue w)]) ++
                        [(Call_mutex_lock, queue w)])).
    assert (timed_loop env (to_ulong ulong_bits (clock w + msecs)) 0 w0 = Some (0, w0))
      as Hloop.
    { apply timed_loop_nonempty. simpl. by rewrite Hevs. }
    destruct (wait_timed_after_loop ulong_bits env dest msecs w w0 0 e rest ev Hloop)
      as (w' & Hrun & Hq & Hh & _ & Ht); [done|done|done|].
    exists w', wg. eexists.
    split; [done|]. split; [done|]. simpl in *.
    split; [by rewrite Hq, Hqg|]. split; [by rewrite Hh, Hhg|].
    split. { rewrite Ht, <- !app_assoc. reflexivity. }
    split.
    + repeat (rewrite waits_release_calls || rewrite waits_app || rewrite waits_cons || rewrite waits_nil); cbn [wait_call]. done.
    + repeat (rewrite released_release_calls || rewrite released_app || rewrite released_cons); cbv beta iota. done.
Qed.

Lemma wait_on_nonempty_is_get_witness :
  ∃ w' w_get,
    al_wait_for_event 32 (-1) [mkWakeup 5 [] 0] (Some (sample_event 1 0)) 200
      (sample_world [2; 1]%positive []) =
      Some ((true, Some (sample_event 8 20)), w') ∧
    al_get_next_event (sample_event 1 0) (sample_world [2; 1]%positive []) =
      Some ((true, Some (sample_event 8 20)), w_get) ∧
    queue w' = queue w_get ∧ heap w' = heap w_get.
Proof.
  destruct (wait_on_nonempty_is_get 32 (-1) [mkWakeup 5 [] 0] (sample_event 1 0) 200
              (sample_world [2; 1]%positive []) 2%positive [1%positive]
              (sample_event 8 20))
    as (w' & wg & new & Hw & Hg & Hq & Hh & _).
  - right. lia.
  - reflexivity.
  - reflexivity.
  - exists w', wg. repeat split; assumption.
Defined.

(** X4.  With [NULL] for the record, [al_wait_for_event] on a queue that is
    not empty returns true without waiting and leaves the head where it is:
    the buffer, the membership list and the records are untouched and
    nothing is released. *)
Theorem wait_without_record_leaves_head (ulong_bits forever : Z)
    (env : list wakeup) (msecs : Z) (w : world) :
  msecs = forever ∨ 0 ≤ msecs →
  events (queue w) ≠ [] →
  ∃ w' new,
    al_wait_for_event ulong_bits forever env None msecs w = Some ((true, None), w') ∧
    events (queue w') = events (queue w) ∧
    sources (queue w') = sources (queue w) ∧
    heap w' = heap w ∧
    trace w' = trace w ++ new ∧
    waits new = 0%nat ∧
    released new = [].
Proof.
  intros Hms Hevs.
  rewrite (wait_for_event_dispatch _ _ _ _ _ _ Hms).
  destruct (bool_decide (msecs = forever)).
  - set (w0 := mkWorld (mkQueue (events (queue w)) (sources (queue w)) true)
                       (heap w) (clock w) (trace w ++ [(Call_mutex_lock, queue w)])).
    assert (forever_loop env w0 = Some (tt, w0)) as Hloop.
    { by apply forever_loop_nonempty. }
    rewrite (bind_Some _ _ _ _ _ (wait_forever_null_after_loop env w w0 Hloop)).
    eexists. eexists. split; [reflexivity|]. simpl.
    rewrite <- app_assoc. done.
  - set (w0 := mkWorld (mkQueue (events (queue w)) (sources (queue w)) true)
                       (heap w) (clock w)
                       ((trace w ++ [(Call_current_time, queue w)]) ++
                        [(Call_mutex_lock, queue w)])).
    assert (timed_loop env (to_ulong ulong_bits (clock w + msecs)) 0 w0 = Some (0, w0))
      as Hloop.
    { by apply timed_loop_nonempty. }
    rewrite (wait_timed_null_after_loop ulong_bits env msecs w w0 0 Hloop) by done.
    eexists. eexists. split; [reflexivity|]. simpl.
    rewrite <- !app_assoc. done.
Qed.

Lemma wait_without_record_leaves_head_witness :
  ∃ w',
    al_wait_for_event 32 (-1) [] None (-1) (sample_world [2; 1]%positive []) =
      Some ((true, None), w') ∧
    events (queue w') = [2; 1]%positive ∧ heap w' = sample_heap.
Proof.
  destruct (wait_without_record_leaves_head 32 (-1) [] (-1)
              (sample_world [2; 1]%positive []))
    as (w' & new & Hw & Hevs & _ & Hh & _).
  - left. reflexivity.
  - discriminate.
  - exists w'. repeat split; assumption.
Defined.

(** X5.  A wait without time-out on an empty queue sleeps through the wake-ups
    during which nothing was pushed, one sleep each, and returns at the
    first wake-up that finds events pushed: true, with the contents of the
    first of them, which it takes out of the buffer and releases. *)
Theorem wait_forever_delivers_first_push (ulong_bits forever : Z)
    (sp : list wakeup) (wk : wakeup) (rest : list wakeup)
    (dest : ALLEGRO_EVENT) (w : world) (e : event_ptr) (es : list event_ptr) :
  events (queue w) = [] →
  quiet sp = true →
  wk_pushed wk = e :: es →
  forallb (pushable (heap w)) (e :: es) = true →
  ∃ ev w' new,
    heap w !! e = Some ev ∧
    al_wait_for_event ulong_bits forever (sp ++ wk :: rest) (Some dest) forever w =
      Some ((true, Some (_al_copy_event dest ev)), w') ∧
    events (queue w') = take (MAX_QUEUE_SIZE - 1) es ∧
    sources (queue w') = sources (queue w) ∧
    same_contents (heap w) (heap w') ∧
    trace w' = trace w ++ new ∧
    waits new = S (length sp) ∧
    released new = [e].
Proof.
  intros Hevs Hsp Hwk Hes.
  rewrite (wait_for_event_dispatch _ _ _ _ _ _ (or_introl eq_refl)).
  rewrite bool_decide_eq_true_2 by done.
  set (w0 := mkWorld (mkQueue (events (queue w)) (sources (queue w)) true)
                     (heap w) (clock w) (trace w ++ [(Call_mutex_lock, queue w)])).
  destruct (forever_loop_spurious sp w0 Hevs Hsp)
    as (w1 & new1 & Hloop & Hevs1 & Hsrc1 & Hh1 & _ & Htr1 & Hw1 & Hr1).
  destruct (cond_wait_spec wk w1)
    as (w2 & new2 & Hrun2 & Hevs2 & Hsrc2 & Hmx2 & Hsim2 & Hmono2 & _ & Htr2 & Hnew2).
  { rewrite Hevs1. simpl. lia. }
  { by rewrite Hh1, Hwk. }
  rewrite Hevs1, Hwk in Hevs2. simpl in Hevs2.
  assert (forever_loop (sp ++ wk :: rest) w0 = Some (tt, w2)) as Hfl.
  { rewrite Hloop, forever_loop_unfold, Hevs1. simpl.
    rewrite (bind_Some _ _ _ _ _ Hrun2). apply forever_loop_nonempty.
    by rewrite Hevs2. }
  simpl in Hes. apply andb_true_iff in Hes as [He _].
  destruct (pushable_inv _ _ He) as (ev & Hev & _).
  rewrite Hh1 in Hsim2. simpl in Hsim2.
  pose proof (same_contents_copy _ _ e dest Hsim2) as Hcopy. rewrite Hev in Hcopy.
  destruct (heap w2 !! e) as [ev2|] eqn:Hev2; [|done].
  apply (inj Some) in Hcopy.
  destruct (wait_forever_after_loop _ dest w w2 e _ ev2 Hfl Hevs2 Hev2)
    as (w' & Hrun & Hq & Hh & _ & Ht).
  exists ev, w'. eexists. split; [done|].
  split. { rewrite (bind_Some _ _ _ _ _ Hrun). by rewrite Hcopy. }
  rewrite Hq, Hh, Ht, Htr2, Htr1. simpl.
  split; [done|]. split; [by rewrite Hsrc2, Hsrc1|].
  split. { eapply same_contents_trans; [exact Hsim2|]. by apply same_contents_insert. }
  split. { rewrite <- !app_assoc. reflexivity. }
  split.
  - repeat (rewrite waits_release_calls || rewrite waits_app || rewrite waits_cons || rewrite waits_nil); cbn [wait_call].
    rewrite Hw1, (waits_producers _ Hnew2). lia.
  - repeat (rewrite released_release_calls || rewrite released_app || rewrite released_cons); cbv beta iota.
    by rewrite Hr1, (released_producers _ Hnew2).
Qed.

Lemma wait_forever_delivers_first_push_witness :
  ∃ ev w',
    sample_heap !! 2%positive = Some ev ∧
    al_wait_for_event 32 (-1)
      ([mkWakeup 5 [] 0; mkWakeup 3 [] 0] ++ mkWakeup 4 [2; 1]%positive 0 :: [])
      (Some (sample_event 1 0)) (-1) (sample_world [] []) =
      Some ((true, Some (_al_copy_event (sample_event 1 0) ev)), w') ∧
    events (queue w') = [1]%positive.
Proof.
  destruct (wait_forever_delivers_first_push 32 (-1)
              [mkWakeup 5 [] 0; mkWakeup 3 [] 0] (mkWakeup 4 [2; 1]%positive 0) []
              (sample_event 1 0) (sample_world [] []) 2%positive [1%positive])
    as (ev & w' & new & Hev & Hw & Hevs & _).
  - reflexivity.
  - reflexivity.
  - reflexivity.
  - vm_compute. reflexivity.
  - exists ev, w'. repeat split; assumption.
Defined.

(** The loop of the timed wait up to the first wake-up with events pushed. *)
Lemma timed_loop_arrival t sp wk rest w e es :
  events (queue w) = [] →
  spurious sp = true →
  wk_pushed wk = e :: es →
  forallb (pushable (heap w)) (e :: es) = true →
  ∃ w2 new,
    timed_loop (sp ++ wk :: rest) t 0 w = Some (wk_result wk, w2) ∧
    events (queue w2) = e :: take (MAX_QUEUE_SIZE - 1) es ∧
    sources (queue w2) = sources (queue w) ∧
    same_contents (heap w) (heap w2) ∧
    trace w2 = trace w ++ new ∧
    waits new = S (length sp) ∧
    released new = [] ∧
    deadlines new = replicate (S (length sp)) t.
Proof.
  intros Hevs Hsp Hwk Hes.
  destruct (timed_loop_spurious t sp w 0 Hevs) as
    (w1 & r1 & new1 & Hloop & Hr1 & Hevs1 & Hsrc1 & Hh1 & _ & Htr1 & Hw1 & Hrel1 & Hdl1);
    [done|done|].
  destruct (cond_timedwait_spec wk t w1 w1 (same_state_refl w1))
    as (w2 & v2 & new2 & Hrun2 & _ & _ & Hevs2 & Hsrc2 & _ & Hsim2 & _ & _ & Htr2 & Hnew2).
  { rewrite Hevs1. simpl. lia. }
  { by rewrite Hh1, Hwk. }
  rewrite Hevs1, Hwk in Hevs2. simpl in Hevs2.
  exists w2. eexists. split.
  { rewrite Hloop, timed_loop_unfold, Hevs1. simpl.
    rewrite (bool_decide_eq_true_2 (r1 ≠ -1)) by done.
    rewrite (bind_Some _ _ _ _ _ Hrun2). apply timed_loop_nonempty.
    by rewrite Hevs2. }
  split; [done|]. split; [congruence|]. split; [by rewrite <- Hh1|].
  split. { rewrite Htr2, Htr1, <- app_assoc. reflexivity. }
  split; [|split].
  - rewrite waits_app, waits_cons, Hw1, (waits_producers _ Hnew2). simpl. lia.
  - rewrite released_app, released_cons, Hrel1, (released_producers _ Hnew2). done.
  - rewrite deadlines_app, deadlines_cons, Hdl1, (deadlines_producers _ Hnew2).
    change (t :: []) with (replicate 1 t). rewrite <- replicate_add.
    f_equal. lia.
Qed.

(** X6.  A timed wait on an empty queue sleeps through the wake-ups without
    cause, always with the deadline of the call, and when a wake-up that
    does not report a time-out finds events pushed it returns true with the
    contents of the first of them, taken out of the buffer and released. *)
Theorem timed_wait_delivers_in_time (ulong_bits forever : Z)
    (sp : list wakeup) (wk : wakeup) (rest : list wakeup)
    (dest : ALLEGRO_EVENT) (msecs : Z) (w : world)
    (e : event_ptr) (es : list event_ptr) :
  0 ≤ msecs → msecs ≠ forever →
  events (queue w) = [] →
  spurious sp = true →
  wk_pushed wk = e :: es →
  wk_result wk ≠ -1 →
  forallb (pushable (heap w)) (e :: es) = true →
  ∃ ev w' new,
    heap w !! e = Some ev ∧
    al_wait_for_event ulong_bits forever (sp ++ wk :: rest) (Some dest) msecs w =
      Some ((true, Some (_al_copy_event dest ev)), w') ∧
    events (queue w') = take (MAX_QUEUE_SIZE - 1) es ∧
    sources (queue w') = sources (queue w) ∧
    same_contents (heap w) (heap w') ∧
    trace w' = trace w ++ new ∧
    waits new = S (length sp) ∧
    deadlines new = replicate (S (length sp)) (to_ulong ulong_bits (clock w + msecs)) ∧
    released new = [e].
Proof.
  intros Hms Hnf Hevs Hsp Hwk Hres Hes.
  rewrite (wait_for_event_dispatch _ _ _ _ _ _ (or_intror Hms)).
  rewrite bool_decide_eq_false_2 by done.
  set (w0 := mkWorld (mkQueue (events (queue w)) (sources (queue w)) true)
                     (heap w) (clock w)
                     ((trace w ++ [(Call_current_time, queue w)]) ++
                      [(Call_mutex_lock, queue w)])).
  destruct (timed_loop_arrival (to_ulong ulong_bits (clock w + msecs)) sp wk rest w0 e es
              Hevs Hsp Hwk Hes)
    as (w2 & new2 & Hloop & Hevs2 & Hsrc2 & Hsim2 & Htr2 & Hw2 & Hrel2 & Hdl2).
  simpl in Hes. apply andb_true_iff in Hes as [He _].
  destruct (pushable_inv _ _ He) as (ev & Hev & _).
  simpl in Hsim2, Hsrc2, Htr2.
  pose proof (same_contents_copy _ _ e dest Hsim2) as Hcopy. rewrite Hev in Hcopy.
  destruct (heap w2 !! e) as [ev2|] eqn:Hev2; [|done].
  apply (inj Some) in Hcopy.
  destruct (wait_timed_after_loop ulong_bits _ dest msecs w w2 _ e _ ev2 Hloop Hres Hevs2 Hev2)
    as (w' & Hrun & Hq & Hh & _ & Ht).
  exists ev, w'. eexists. split; [done|].
  split. { by rewrite Hrun, Hcopy. }
  rewrite Hq, Hh, Ht, Htr2. simpl.
  split; [done|]. split; [done|].
  split. { eapply same_contents_trans; [exact Hsim2|]. by apply same_contents_insert. }
  split. { rewrite <- !app_assoc. reflexivity. }
  split; [|split].
  - repeat (rewrite waits_release_calls || rewrite waits_app || rewrite waits_cons
            || rewrite waits_nil); cbn [wait_call].
    rewrite Hw2. lia.
  - repeat (rewrite deadlines_app || rewrite deadlines_cons); cbv beta iota.
    rewrite Hdl2, (proj2 (release_calls_other _ _ _)). by rewrite app_nil_r.
  - repeat (rewrite released_release_calls || rewrite released_app
            || rewrite released_cons); cbv beta iota.
    by rewrite Hrel2.
Qed.

Lemma timed_wait_delivers_in_time_witness :
  ∃ ev w',
    sample_heap !! 2%positive = Some ev ∧
    al_wait_for_event 32 (-1) ([mkWakeup 5 [] 0] ++ mkWakeup 4 [2; 1]%positive 0 :: [])
      (Some (sample_event 1 0)) 50 (sample_world [] []) =
      Some ((true, Some (_al_copy_event (sample_event 1 0) ev)), w') ∧
    events (queue w') = [1]%positive.
Proof.
  destruct (timed_wait_delivers_in_time 32 (-1)
              [mkWakeup 5 [] 0] (mkWakeup 4 [2; 1]%positive 0) []
              (sample_event 1 0) 50 (sample_world [] []) 2%positive [1%positive])
    as (ev & w' & new & Hev & Hw & Hevs & _).
  - lia.
  - lia.
  - reflexivity.
  - reflexivity.
  - reflexivity.
  - simpl. lia.
  - vm_compute. reflexivity.
  - exists ev, w'. repeat split; assumption.
Defined.

(** X7.  When the wake-up that finds events pushed also reports a time-out, the
    timed wait returns false and delivers nothing: the caller's record is
    as it was, nothing is released, and the events pushed stay in the
    buffer, where the next [al_get_next_event] finds the first of them. *)
Theorem timed_wait_timeout_keeps_arrival (ulong_bits forever : Z)
    (sp : list wakeup) (wk : wakeup) (rest : list wakeup)
    (ret_event : option ALLEGRO_EVENT) (dest : ALLEGRO_EVENT)
    (msecs : Z) (w : world) (e : event_ptr) (es : list event_ptr) :
  0 ≤ msecs → msecs ≠ forever →
  events (queue w) = [] →
  spurious sp = true →
  wk_pushed wk = e :: es →
  wk_result wk = -1 →
  forallb (pushable (heap w)) (e :: es) = true →
  ∃ ev w' w'' new,
    heap w !! e = Some ev ∧
    al_wait_for_event ulong_bits forever (sp ++ wk :: rest) ret_event msecs w =
      Some ((false, ret_event), w') ∧
    events (queue w') = e :: take (MAX_QUEUE_SIZE - 1) es ∧
    sources (queue w') = sources (queue w) ∧
    same_contents (heap w) (heap w') ∧
    trace w' = trace w ++ new ∧
    released new = [] ∧
    al_get_next_event dest w' = Some ((true, Some (_al_copy_event dest ev)), w'').
Proof.
  intros Hms Hnf Hevs Hsp Hwk Hres Hes.
  rewrite (wait_for_event_dispatch _ _ _ _ _ _ (or_intror Hms)).
  rewrite bool_decide_eq_false_2 by done.
  set (w0 := mkWorld (mkQueue (events (queue w)) (sources (queue w)) true)
                     (heap w) (clock w)
                     ((trace w ++ [(Call_current_time, queue w)]) ++
                      [(Call_mutex_lock, queue w)])).
  destruct (timed_loop_arrival (to_ulong ulong_bits (clock w + msecs)) sp wk rest w0 e es
              Hevs Hsp Hwk Hes)
    as (w2 & new2 & Hloop & Hevs2 & Hsrc2 & Hsim2 & Htr2 & Hw2 & Hrel2 & Hdl2).
  rewrite Hres in Hloop.
  simpl in Hes. apply andb_true_iff in Hes as [He _].
  destruct (pushable_inv _ _ He) as (ev & Hev & _).
  simpl in Hsim2, Hsrc2, Htr2.
  pose proof (same_contents_copy _ _ e dest Hsim2) as Hcopy. rewrite Hev in Hcopy.
  destruct (heap w2 !! e) as [ev2|] eqn:Hev2; [|done].
  apply (inj Some) in Hcopy.
  rewrite (wait_timed_out_after_loop ulong_bits _ ret_event msecs w w2 Hloop).
  match goal with |- context [Some (_, ?w1)] => set (w' := w1) end.
  destruct (get_cons_spec dest w' e (take (MAX_QUEUE_SIZE - 1) es) ev2)
    as (w'' & Hget & _); [done|done|].
  exists ev, w', w''. eexists. split; [done|]. split; [done|].
  simpl. split; [done|]. split; [done|]. split; [done|].
  split. { rewrite Htr2, <- !app_assoc. reflexivity. }
  split.
  - repeat (rewrite released_release_calls || rewrite released_app
            || rewrite released_cons); cbv beta iota.
    by rewrite Hrel2.
  - by rewrite Hget, Hcopy.
Qed.

Lemma timed_wait_timeout_keeps_arrival_witness :
  ∃ w' w'',
    al_wait_for_event 32 (-1) ([] ++ mkWakeup 50 [2; 1]%positive (-1) :: [])
      (Some (sample_event 1 0)) 50 (sample_world [] []) =
      Some ((false, Some (sample_event 1 0)), w') ∧
    events (queue w') = [2; 1]%positive ∧
    al_get_next_event (sample_event 1 0) w' =
      Some ((true, Some (sample_event 8 20)), w'').
Proof.
  destruct (timed_wait_timeout_keeps_arrival 32 (-1)
              [] (mkWakeup 50 [2; 1]%positive (-1)) []
              (Some (sample_event 1 0)) (sample_event 1 0) 50 (sample_world [] [])
              2%positive [1%positive])
    as (ev & w' & w'' & new & Hev & Hw & Hevs & _ & _ & _ & _ & Hget).
  - lia.
  - lia.
  - reflexivity.
  - reflexivity.
  - reflexivity.
  - reflexivity.
  - vm_compute. reflexivity.
  - exists w', w''. split; [exact Hw|]. split; [exact Hevs|].
    assert (ev = sample_event 8 20) as ->; [|exact Hget].
    revert Hev. vm_compute. by intros [= <-].
Defined.

(** ** The records and the mutex across the operations *)

(** X8.  No operation of the queue writes into an event record anything but
    its reference count, and none creates or removes a record: after any
    operation every address holds what it held, up to the count. *)
Theorem operations_keep_record_contents (ulong_bits forever : Z) (o : op) (w w' : world) :
  run_op ulong_bits forever o w = Some (tt, w') →
  ∀ p, set_refcount 0 <$> heap w !! p = set_refcount 0 <$> heap w' !! p.
Proof.
  intros Hrun. exact (run_op_keeps_contents ulong_bits forever o w tt w' Hrun).
Qed.

Lemma operations_keep_record_contents_witness :
  ∃ w', run_op 32 (-1) Op_flush (sample_world [1; 2; 1]%positive [7]%positive) = Some (tt, w') ∧
        set_refcount 0 <$> sample_heap !! 1%positive = set_refcount 0 <$> heap w' !! 1%positive.
Proof.
  destruct (run_op 32 (-1) Op_flush (sample_world [1; 2; 1]%positive [7]%positive))
    as [[[] w']|] eqn:Hrun; [|vm_compute in Hrun; discriminate Hrun].
  exists w'. split; [reflexivity|].
  exact (operations_keep_record_contents 32 (-1) Op_flush
           (sample_world [1; 2; 1]%positive [7]%positive) w' Hrun 1%positive).
Defined.

(** X9.  Apart from the push and the wait, during which producers push, an
    operation changes the records only through [_al_release_event]: the
    store it leaves is the store it found with one hold taken off a record
    for each release it logged, in the order of the log. *)
Theorem records_change_only_by_release (ulong_bits forever : Z) (o : op) (w w' : world) :
  produces o = false →
  run_op ulong_bits forever o w = Some (tt, w') →
  ∃ new, trace w' = trace w ++ new ∧
         heap w' = foldl unretain (heap w) (released new).
Proof.
  intros Ho Hrun. exact (run_op_releases_only ulong_bits forever o Ho w tt w' Hrun).
Qed.

Lemma records_change_only_by_release_witness :
  ∃ w' new,
    run_op 32 (-1) (Op_unregister 7) (sample_world [1; 2; 3]%positive [7; 8]%positive) =
      Some (tt, w') ∧
    trace w' = new ∧
    heap w' = foldl unretain sample_heap (released new).
Proof.
  destruct (run_op 32 (-1) (Op_unregister 7) (sample_world [1; 2; 3]%positive [7; 8]%positive))
    as [[[] w']|] eqn:Hrun; [|vm_compute in Hrun; discriminate Hrun].
  destruct (records_change_only_by_release 32 (-1) (Op_unregister 7)
              (sample_world [1; 2; 3]%positive [7; 8]%positive) w' eq_refl Hrun)
    as (new & Htr & Hheap).
  exists w', new. split; [reflexivity|]. split; [exact Htr|exact Hheap].
Defined.

(** X10.  Registering, unregistering, destroying and the emptiness test never
    touch the mutex of the queue by themselves: they leave it as it was, log no lock
    and no unlock, and every call they make (the hooks of the sources, the
    releases, the destructor calls) is made with the mutex as it stood on
    entry. *)
Theorem membership_operations_never_lock (ulong_bits forever : Z) (o : op) (w w' : world) :
  takes_lock o = false →
  run_op ulong_bits forever o w = Some (tt, w') →
  mutex (queue w') = mutex (queue w) ∧
  ∃ new, trace w' = trace w ++ new ∧
         Forall (λ x, mutex_call x.1 = false ∧ mutex x.2 = mutex (queue w)) new.
Proof.
  intros Ho Hrun. exact (run_op_leaves_mutex ulong_bits forever o Ho w tt w' Hrun).
Qed.

Lemma membership_operations_never_lock_witness :
  ∃ w', run_op 32 (-1) Op_destroy (sample_world [1; 2]%positive [7; 8]%positive) = Some (tt, w') ∧
        mutex (queue w') = false.
Proof.
  destruct (run_op 32 (-1) Op_destroy (sample_world [1; 2]%positive [7; 8]%positive))
    as [[[] w']|] eqn:Hrun; [|vm_compute in Hrun; discriminate Hrun].
  destruct (membership_operations_never_lock 32 (-1) Op_destroy
              (sample_world [1; 2]%positive [7; 8]%positive) w' eq_refl Hrun)
    as (Hm & _).
  exists w'. split; [reflexivity|exact Hm].
Defined.

(** ** The protocol of the mutex *)

Lemma locks_ret {A : Type} b (a : A) : locks b b (mret a).
Proof.
  intros w a' w' Hb [= _ <-]. split; [done|].
  exists []. split; [by rewrite app_nil_r|constructor].
Qed.

Lemma locks_abort {A : Type} b b' : locks b b' (@abort A).
Proof. intros w a w' _ [=]. Qed.

Lemma locks_bind {A B : Type} b b1 b2 (m : M A) (f : A → M B) :
  locks b b1 m → (∀ a, locks b1 b2 (f a)) → locks b b2 (m ≫= f).
Proof.
  intros Hm Hf w c w2 Hb H. apply bind_inv in H as (a & w1 & H1 & H2).
  destruct (Hm w a w1 Hb H1) as (Hb1 & new1 & Ht1 & Hp1).
  destruct (Hf a w1 c w2 Hb1 H2) as (Hb2 & new2 & Ht2 & Hp2).
  split; [done|]. exists (new1 ++ new2).
  split. { by rewrite Ht2, Ht1, <- app_assoc. }
  by apply Forall_app.
Qed.

(** Steps that touch neither the mutex nor the log. *)
Lemma locks_silent {A : Type} b (m : M A) :
  (∀ w a w', m w = Some (a, w') →
     mutex (queue w') = mutex (queue w) ∧ trace w' = trace w) →
  locks b b m.
Proof.
  intros Hm w a w' Hb H. destruct (Hm w a w' H) as [Hmx Ht].
  split; [congruence|]. exists []. split; [by rewrite app_nil_r|constructor].
Qed.

Lemma locks_read_vector b v : locks b b (read_vector v).
Proof. apply locks_silent. by intros w a w' [= _ <-]. Qed.

Lemma locks_write_vector b v l : locks b b (write_vector v l).
Proof. apply locks_silent. intros w a w' [= _ <-]. by destruct v. Qed.

Lemma locks_load b p : locks b b (load p).
Proof.
  apply locks_silent. intros w a w'. unfold load.
  destruct (heap w !! p); [|done]. by intros [= _ <-].
Qed.

Lemma locks_store b p ev : locks b b (store p ev).
Proof. apply locks_silent. by intros w a w' [= _ <-]. Qed.

Lemma locks_get_world b : locks b b get_world.
Proof. apply locks_silent. by intros w a w' [= _ <-]. Qed.

Lemma locks_clock b (f : world → Z) : locks b b (modify (λ w, set_clock (f w) w)).
Proof. apply locks_silent. by intros w a w' [= _ <-]. Qed.

Lemma locks_set_mutex b b' : locks b b' (set_mutex b').
Proof.
  intros w a w' _ [= _ <-]. split; [done|]. exists []. split; [by rewrite app_nil_r|constructor].
Qed.

Lemma locks_log b c : fits c b = true → locks b b (log c).
Proof.
  intros Hc w a w' Hb [= _ <-]. split; [done|].
  exists [(c, queue w)]. split; [done|].
  constructor; [|constructor]. simpl. by rewrite Hb.
Qed.

Lemma locks_ASSERT b c : locks b b (ASSERT c).
Proof. destruct c; [apply locks_ret|apply locks_abort]. Qed.

Lemma locks_while b fuel cond body :
  locks b b cond → locks b b body → locks b b (while fuel cond body).
Proof.
  intros Hc Hb. induction fuel as [|fuel IH]; simpl.
  - eapply locks_bind; [exact Hc|]. intros [|]; [apply locks_abort|apply locks_ret].
  - eapply locks_bind; [exact Hc|]. intros [|]; [|apply locks_ret].
    eapply locks_bind; [exact Hb|]. intros _. exact IH.
Qed.

Create HintDb locks.

#[local] Hint Resolve locks_read_vector locks_write_vector locks_load locks_store
  locks_get_world locks_clock locks_ASSERT : locks.

(** Break a computation into its steps; the state of the mutex after each
    step is found by the lemma of the step. *)
Ltac locks_steps :=
  repeat first
    [ apply locks_ret
    | apply locks_abort
    | apply locks_log; reflexivity
    | apply locks_set_mutex
    | solve [eauto with locks]
    | eapply locks_bind; [solve [locks_steps]|intros ?]
    | match goal with
      | |- locks _ _ (match ?x with _ => _ end) => destruct x
      | |- locks _ _ (if ?x then _ else _) => destruct x
      | |- locks _ _ ((match ?x with _ => _ end) ≫= _) => destruct x
      | |- locks _ _ ((if ?x then _ else _) ≫= _) => destruct x
      end ].

Lemma locks_size b v : locks b b (_al_vector_size v).
Proof. unfold _al_vector_size. locks_steps. Qed.

Lemma locks_is_empty b v : locks b b (_al_vector_is_empty v).
Proof. unfold _al_vector_is_empty. locks_steps. Qed.

#[local] Hint Resolve locks_size locks_is_empty : locks.

Lemma locks_is_nonempty b v : locks b b (_al_vector_is_nonempty v).
Proof. unfold _al_vector_is_nonempty. locks_steps. Qed.

Lemma locks_ref b v i : locks b b (_al_vector_ref v i).
Proof. unfold _al_vector_ref. locks_steps. Qed.

#[local] Hint Resolve locks_is_nonempty locks_ref : locks.

Lemma locks_ref_front b v : locks b b (_al_vector_ref_front v).
Proof. unfold _al_vector_ref_front. locks_steps. Qed.

Lemma locks_ref_back b v : locks b b (_al_vector_ref_back v).
Proof. unfold _al_vector_ref_back. locks_steps. Qed.

Lemma locks_delete_at b v i : locks b b (_al_vector_delete_at v i).
Proof. unfold _al_vector_delete_at. locks_steps. Qed.

Lemma locks_alloc_back b v x : locks b b (_al_vector_alloc_back v x).
Proof. unfold _al_vector_alloc_back. locks_steps. Qed.

Lemma locks_find b v x : locks b b (_al_vector_find v x).
Proof. unfold _al_vector_find. locks_steps. Qed.

#[local] Hint Resolve locks_ref_front locks_ref_back locks_delete_at
  locks_alloc_back locks_find : locks.

Lemma locks_contains b v x : locks b b (_al_vector_contains v x).
Proof. unfold _al_vector_contains. locks_steps. Qed.

Lemma locks_find_and_delete b v x : locks b b (_al_vector_find_and_delete v x).
Proof. unfold _al_vector_find_and_delete. locks_steps. Qed.

Lemma locks_free b v : locks b b (_al_vector_free v).
Proof. unfold _al_vector_free. locks_steps. Qed.

#[local] Hint Resolve locks_contains locks_find_and_delete locks_free : locks.

(** The mutex is locked when free and unlocked when held. *)
Lemma locks_mutex_lock : locks false true _al_mutex_lock.
Proof. unfold _al_mutex_lock. locks_steps. Qed.

Lemma locks_mutex_unlock : locks true false _al_mutex_unlock.
Proof. unfold _al_mutex_unlock. locks_steps. Qed.

(** Records are released with the mutex free. *)
Lemma locks_release e : locks false false (_al_release_event e).
Proof. unfold _al_release_event. locks_steps. Qed.

#[local] Hint Resolve locks_mutex_lock locks_mutex_unlock locks_release : locks.

Lemma locks_get_next_event_if_any b delete : locks b b (get_next_event_if_any delete).
Proof. unfold get_next_event_if_any. locks_steps. Qed.

#[local] Hint Resolve locks_get_next_event_if_any : locks.

Lemma locks_get_peek_or_drop do_copy do_release :
  locks false false (get_peek_or_drop_next_event do_copy do_release).
Proof. unfold get_peek_or_drop_next_event. locks_steps. Qed.

Lemma locks_flush_body : locks true true flush_body.
Proof. unfold flush_body. locks_steps. Qed.

Lemma locks_flush : locks false false al_flush_event_queue.
Proof.
  unfold al_flush_event_queue. locks_steps.
  eapply locks_bind; [|intros ?; locks_steps].
  apply locks_while; [locks_steps|apply locks_flush_body].
Qed.

(** The condition is signalled with the mutex held. *)
Lemma locks_push e : locks false false (_al_event_queue_push_event e).
Proof. unfold _al_event_queue_push_event, _al_cond_broadcast. locks_steps. Qed.

#[local] Hint Resolve locks_push : locks.

Lemma locks_push_all es : locks false false (push_all es).
Proof. induction es as [|e es IH]; simpl; locks_steps. Qed.

Lemma locks_producers wk : locks false false (producers wk).
Proof. pose proof locks_push_all. unfold producers. locks_steps. Qed.

(** The wait on the condition starts and ends with the mutex held; while the
    consumer sleeps the mutex is free for the producers. *)
Lemma locks_cond_wait wk : locks true true (_al_cond_wait wk).
Proof. pose proof locks_producers. unfold _al_cond_wait. locks_steps. Qed.

Lemma locks_cond_timedwait wk t : locks true true (_al_cond_timedwait wk t).
Proof. pose proof locks_producers. unfold _al_cond_timedwait. locks_steps. Qed.

#[local] Hint Resolve locks_cond_wait locks_cond_timedwait : locks.

Lemma locks_forever_loop env : locks true true (forever_loop env).
Proof. induction env as [|wk env IH]; simpl; locks_steps. Qed.

Lemma locks_timed_loop env t : ∀ r, locks true true (timed_loop env t r).
Proof. induction env as [|wk env IH]; intros r; simpl; locks_steps. Qed.

#[local] Hint Resolve locks_forever_loop locks_timed_loop : locks.

Lemma locks_wait_forever env ret : locks false false (wait_on_queue_forever env ret).
Proof. unfold wait_on_queue_forever. locks_steps. Qed.

Lemma locks_wait_timed bits env ret msecs :
  locks false false (wait_on_queue_timed bits env ret msecs).
Proof. unfold wait_on_queue_timed, al_current_time. locks_steps. Qed.

#[local] Hint Resolve locks_wait_forever locks_wait_timed : locks.

Lemma locks_wait bits forever env ret msecs :
  locks false false (al_wait_for_event bits forever env ret msecs).
Proof. unfold al_wait_for_event. locks_steps. Qed.

Lemma locks_register b s : locks b b (al_register_event_source s).
Proof.
  unfold al_register_event_source, _al_event_source_on_registration_to_queue.
  locks_steps.
Qed.

Lemma locks_unregister_scan fuel s : ∀ i, locks false false (unregister_scan fuel s i).
Proof. induction fuel as [|fuel IH]; intros i; simpl; locks_steps. Qed.

Lemma locks_unregister s : locks false false (al_unregister_event_source s).
Proof.
  unfold al_unregister_event_source, _al_event_source_on_unregistration_from_queue.
  pose proof locks_unregister_scan. locks_steps.
Qed.

Lemma locks_destroy : locks false false al_destroy_event_queue.
Proof.
  unfold al_destroy_event_queue. locks_steps.
  eapply locks_bind; [|intros ?; locks_steps].
  apply locks_while; [locks_steps|].
  pose proof locks_unregister. unfold destroy_body. locks_steps.
Qed.

Lemma run_op_locks bits forever o : locks false false (run_op bits forever o).
Proof.
  destruct o; simpl.
  - apply locks_push.
  - eapply locks_bind; [apply locks_get_peek_or_drop|intros ?; apply locks_ret].
  - eapply locks_bind; [apply locks_get_peek_or_drop|intros ?; apply locks_ret].
  - eapply locks_bind; [apply locks_get_peek_or_drop|intros ?; apply locks_ret].
  - apply locks_flush.
  - eapply locks_bind; [apply locks_is_empty|intros ?; apply locks_ret].
  - eapply locks_bind; [apply locks_wait|intros ?; apply locks_ret].
  - apply locks_register.
  - apply locks_unregister.
  - apply locks_destroy.
Qed.

(** X11.  Every operation on a queue whose mutex is free ends with the mutex
    free and keeps to the protocol of the mutex all along, the pushes of the
    producers during a wait included: it locks the mutex only when it is
    free and unlocks it only when it is held, waits on the condition
    variable and signals it only with the mutex held, and calls
    [_al_release_event], and so a source's release hook, only with the mutex
    free. *)
Theorem operations_keep_mutex_protocol (ulong_bits forever : Z) (o : op) (w w' : world) :
  mutex (queue w) = false →
  run_op ulong_bits forever o w = Some (tt, w') →
  mutex (queue w') = false ∧
  ∃ new, trace w' = trace w ++ new ∧
         Forall (λ x, fits x.1 (mutex x.2) = true) new.
Proof.
  intros Hmx Hrun. exact (run_op_locks ulong_bits forever o w tt w' Hmx Hrun).
Qed.

Lemma operations_keep_mutex_protocol_witness :
  ∃ w' new,
    run_op 32 (-1)
      (Op_wait [mkWakeup 5 [] 0; mkWakeup 4 [2; 1]%positive 0] (Some (sample_event 1 0)) 50)
      (sample_world [] [7]%positive) = Some (tt, w') ∧
    mutex (queue w') = false ∧
    trace w' = new ∧
    Forall (λ x, fits x.1 (mutex x.2) = true) new.
Proof.
  destruct (run_op 32 (-1)
              (Op_wait [mkWakeup 5 [] 0; mkWakeup 4 [2; 1]%positive 0]
                       (Some (sample_event 1 0)) 50)
              (sample_world [] [7]%positive))
    as [[[] w']|] eqn:Hrun; [|vm_compute in Hrun; discriminate Hrun].
  destruct (operations_keep_mutex_protocol 32 (-1)
              (Op_wait [mkWakeup 5 [] 0; mkWakeup 4 [2; 1]%positive 0]
                       (Some (sample_event 1 0)) 50)
              (sample_world [] [7]%positive) w')
    as (Hmx & new & Htr & Hnew).
  { reflexivity. }
  { exact Hrun. }
  exists w', new. split; [reflexivity|]. split; [exact Hmx|]. split; [exact Htr|exact Hnew].
Defined.

(** ** Destroying a queue *)

Lemma filter_keep_all {A} (P : A → Prop) `{∀ x, Decision (P x)} (l : list A) :
  Forall P l → filter P l = l.
Proof.
  induction 1 as [|x l Hx _ IH]; [done|].
  by rewrite filter_cons_True, IH.
Qed.

Lemma filter_drop_all {A} (P : A → Prop) `{∀ x, Decision (P x)} (l : list A) :
  Forall (λ x, ¬ P x) l → filter P l = [].
Proof.
  induction 1 as [|x l Hx _ IH]; [done|].
  by rewrite filter_cons_False.
Qed.

Lemma flat_map_ext_elem {A B} (f g : A → list B) (l : list A) :
  (∀ x, x ∈ l → f x = g x) → flat_map f l = flat_map g l.
Proof.
  induction l as [|x l IH]; [done|]. intros H. simpl.
  rewrite (H x) by apply list_elem_of_here.
  rewrite IH; [done|]. intros y Hy. apply H. by apply list_elem_of_further.
Qed.

Lemma came_from_functional h s1 s2 e :
  came_from h s1 e → came_from h s2 e → s1 = s2.
Proof. unfold came_from. intros H1 H2. rewrite H1 in H2. by injection H2. Qed.

Lemma by_source_purged h h1 s l evs :
  same_contents h h1 → s ∉ l →
  by_source h1 l (filter (λ e, ¬ came_from h s e) evs) = by_source h l evs.
Proof.
  intros Hsim Hs. apply flat_map_ext_elem. intros s' Hs'.
  rewrite list_filter_filter. apply list_filter_iff. intros e.
  rewrite <- (came_from_same_contents _ _ s' e Hsim). split; [tauto|].
  intros H. split; [done|]. intros H2.
  apply Hs. by rewrite (came_from_functional _ _ _ _ H2 H).
Qed.

Lemma by_source_perm h srcs : ∀ evs,
  NoDup srcs →
  Forall (λ e, ¬ foreign h srcs e) evs →
  by_source h srcs evs ≡ₚ evs.
Proof.
  unfold by_source.
  induction srcs as [|s l IH]; intros evs Hnd Hall.
  - destruct evs as [|e evs]; [done|].
    apply Forall_cons in Hall as [He _]. exfalso. apply He. constructor.
  - apply NoDup_cons in Hnd as [Hs Hnd]. simpl.
    fold (by_source h l evs).
    rewrite <- (by_source_purged h h s l evs (same_contents_refl h) Hs).
    unfold by_source. rewrite IH; [apply filter_app_complement|done|].
    apply Forall_forall. intros e [Hnot He]%list_elem_of_filter.
    rewrite Forall_forall in Hall. intros Hf. apply (Hall e He).
    by constructor.
Qed.

Lemma ref_back_run v w l x :
  vec_get v (queue w) = l ++ [x] → _al_vector_ref_back v w = Some (x, w).
Proof.
  intros H. mrun. rewrite H, length_app. simpl.
  by rewrite Nat.add_sub, list_lookup_middle.
Qed.

Lemma destroy_body_spec w l s :
  sources (queue w) = l ++ [s] →
  NoDup (l ++ [s]) →
  forallb (allocated (heap w)) (events (queue w)) = true →
  ∃ w' new,
    destroy_body w = Some (tt, w') ∧
    sources (queue w') = l ∧
    events (queue w') = filter (λ e, ¬ came_from (heap w) s e) (events (queue w)) ∧
    mutex (queue w') = mutex (queue w) ∧
    same_contents (heap w) (heap w') ∧
    (∀ p, allocated (heap w) p = true → allocated (heap w') p = true) ∧
    clock w' = clock w ∧
    trace w' = trace w ++ new ∧
    unregistrations new = [s] ∧
    released new = filter (came_from (heap w) s) (events (queue w)).
Proof.
  intros Hsrc Hnd Hal.
  destruct (unregister_member s w)
    as (w' & l1 & l2 & new & Hrun & Hsplit & Hl1 & Hsrc' & Hevs & Hmx & Hsim & Hmono
        & Hc & Htr & Hrel & Hnew); [|done|].
  { rewrite Hsrc. apply elem_of_app. right. apply list_elem_of_here. }
  exists w'. eexists. unfold destroy_body.
  rewrite (bind_Some _ _ _ _ _ (ref_back_run Sources w l s Hsrc)).
  split; [exact Hrun|].
  split.
  { rewrite Hsrc'. rewrite Hsrc in Hsplit.
    pose proof (filter_remove_NoDup s l [] Hnd) as H1.
    rewrite Hsplit in Hnd, H1.
    rewrite (filter_remove_NoDup s l1 l2 Hnd) in H1. by rewrite app_nil_r in H1. }
  split; [done|]. split; [done|]. split; [done|]. split; [done|]. split; [done|].
  split; [exact Htr|]. split; [|done].
  transitivity (s :: unregistrations new); [reflexivity|].
  by rewrite (unregistrations_release _ Hnew).
Qed.

Lemma unregistrations_app t1 t2 :
  unregistrations (t1 ++ t2) = unregistrations t1 ++ unregistrations t2.
Proof. unfold unregistrations. apply omap_app. Qed.

Lemma destroy_loop_spec srcs : ∀ fuel w,
  sources (queue w) = srcs → (length srcs ≤ fuel)%nat →
  NoDup srcs →
  forallb (allocated (heap w)) (events (queue w)) = true →
  ∃ w' new,
    while fuel (_al_vector_is_nonempty Sources) destroy_body w = Some (tt, w') ∧
    sources (queue w') = [] ∧
    events (queue w') = filter (foreign (heap w) srcs) (events (queue w)) ∧
    mutex (queue w') = mutex (queue w) ∧
    same_contents (heap w) (heap w') ∧
    clock w' = clock w ∧
    trace w' = trace w ++ new ∧
    unregistrations new = reverse srcs ∧
    released new = by_source (heap w) (reverse srcs) (events (queue w)).
Proof.
  induction srcs as [|s l IH] using rev_ind; intros fuel w Hsrc Hfuel Hnd Hal.
  - exists w, []. rewrite (while_false _ _ _ w w) by (mrun; by rewrite Hsrc).
    split; [done|]. split; [done|].
    split. { symmetry. apply filter_keep_all, Forall_forall. intros e _. constructor. }
    rewrite app_nil_r. repeat split; auto using same_contents_refl.
  - rewrite length_app in Hfuel. simpl in Hfuel.
    destruct fuel as [|fuel]; [lia|].
    destruct (destroy_body_spec w l s Hsrc Hnd Hal)
      as (w1 & new1 & Hrun1 & Hsrc1 & Hevs1 & Hmx1 & Hsim1 & Hmono1 & Hc1 & Htr1
          & Hun1 & Hrel1).
    pose proof Hnd as Hnd'.
    apply NoDup_app in Hnd' as (Hl & Hdis & _).
    assert (s ∉ l) as Hsl.
    { intros H. apply (Hdis s H). apply list_elem_of_here. }
    destruct (IH fuel w1)
      as (w' & new & Hrun & Hsrc' & Hevs' & Hmx' & Hsim' & Hc' & Htr' & Hun' & Hrel').
    { done. }
    { lia. }
    { done. }
    { rewrite Hevs1. apply forallb_forall. intros e He.
      apply list_elem_of_In, list_elem_of_filter in He as [_ He].
      apply Hmono1. rewrite forallb_forall in Hal. apply Hal.
      by apply list_elem_of_In. }
    exists w'. eexists.
    rewrite (while_true _ _ _ _ w), (bind_Some _ _ _ _ _ Hrun1)
      by (mrun; rewrite Hsrc; by destruct l).
    split; [exact Hrun|]. split; [done|].
    split.
    { rewrite Hevs', Hevs1, list_filter_filter. apply list_filter_iff. intros e.
      unfold foreign. rewrite Forall_app, Forall_singleton.
      split.
      - intros [H1 H2]. split; [|done].
        eapply Forall_impl; [exact H1|]. intros s' Hs'.
        by rewrite (came_from_same_contents _ _ s' e Hsim1).
      - intros [H1 H2]. split; [|done].
        eapply Forall_impl; [exact H1|]. intros s' Hs'.
        by rewrite <- (came_from_same_contents _ _ s' e Hsim1). }
    split; [congruence|].
    split. { eapply same_contents_trans; [exact Hsim1|exact Hsim']. }
    split; [congruence|].
    split. { rewrite Htr', Htr1, <- app_assoc. reflexivity. }
    split.
    { rewrite unregistrations_app, Hun1, Hun', reverse_snoc. done. }
    rewrite released_app, Hrel1, Hrel', reverse_snoc, Hevs1.
    unfold by_source at 2. simpl. f_equal.
    apply by_source_purged; [done|]. by rewrite elem_of_reverse.
Qed.

Lemma destroy_after_loop w w1 :
  while (length (sources (queue w))) (_al_vector_is_nonempty Sources) destroy_body
    (mkWorld (queue w) (heap w) (clock w)
             (trace w ++ [(Call_unregister_destructor, queue w)])) = Some (tt, w1) →
  sources (queue w1) = [] →
  al_destroy_event_queue w =
    if bool_decide (events (queue w1) = []) then
      Some (tt, mkWorld (mkQueue [] [] (mutex (queue w1))) (heap w1) (clock w1)
                        (trace w1 ++ [(Call_free_queue, mkQueue [] [] (mutex (queue w1)))]))
    else None.
Proof.
  intros Hloop Hsrc. unfold al_destroy_event_queue.
  assert (log Call_unregister_destructor w =
          Some (tt, mkWorld (queue w) (heap w) (clock w)
                  (trace w ++ [(Call_unregister_destructor, queue w)]))) as Hlog.
  { by destruct w as [q h c t]. }
  rewrite (bind_Some _ _ _ _ _ Hlog).
  rewrite (bind_Some _ _ _ _ _ (vector_size_run Sources _)). simpl.
  rewrite (bind_Some _ _ _ _ _ Hloop).
  rewrite (bind_Some _ _ _ _ _ (is_empty_run Events _)). simpl.
  destruct w1 as [[evs srcs mx] h1 c1 t1]. simpl in *. subst srcs.
  destruct evs; simpl; [|done]. reflexivity.
Qed.

Lemma destroy_total (w : world) :
  NoDup (sources (queue w)) →
  forallb (allocated (heap w)) (events (queue w)) = true →
  Forall (λ e, ¬ foreign (heap w) (sources (queue w)) e) (events (queue w)) →
  ∃ w' new,
    al_destroy_event_queue w = Some (tt, w') ∧
    events (queue w') = [] ∧
    sources (queue w') = [] ∧
    same_contents (heap w) (heap w') ∧
    trace w' = trace w ++ (Call_unregister_destructor, queue w) :: new ++
                 [(Call_free_queue, mkQueue [] [] (mutex (queue w)))] ∧
    unregistrations new = reverse (sources (queue w)) ∧
    released new = by_source (heap w) (reverse (sources (queue w))) (events (queue w)) ∧
    released new ≡ₚ events (queue w).
Proof.
  intros Hnd Hal Hall.
  set (w0 := mkWorld (queue w) (heap w) (clock w)
                     (trace w ++ [(Call_unregister_destructor, queue w)])).
  destruct (destroy_loop_spec (sources (queue w)) (length (sources (queue w))) w0)
    as (w1 & new & Hloop & Hsrc1 & Hevs1 & Hmx1 & Hsim1 & Hc1 & Htr1 & Hun1 & Hrel1);
    [done|done|done|done|].
  simpl in Hevs1, Hmx1, Hsim1, Htr1, Hrel1.
  assert (events (queue w1) = []) as Hnil.
  { rewrite Hevs1. by apply filter_drop_all. }
  rewrite (destroy_after_loop w w1 Hloop Hsrc1), Hnil.
  rewrite bool_decide_eq_true_2 by done.
  eexists. exists new. split; [reflexivity|]. simpl.
  split; [done|]. split; [done|]. split; [done|].
  split. { rewrite Htr1, Hmx1, <- !app_assoc. reflexivity. }
  split; [done|]. split; [done|].
  rewrite Hrel1. apply by_source_perm.
  - by rewrite reverse_Permutation.
  - eapply Forall_impl; [exact Hall|]. intros e He Hf. apply He.
    unfold foreign in *. by rewrite Forall_reverse in Hf.
Qed.

(** X12.  [al_destroy_event_queue] on a queue whose sources are distinct and
    whose buffered records all come from registered sources returns, having
    unregistered every source, the one registered last first, and released
    every buffered record once; it gives up the destructor at the start and
    frees the queue at the end, and leaves no source and no event. *)
Theorem destroy_unregisters_and_releases_all (w : world) :
  NoDup (sources (queue w)) →
  forallb (allocated (heap w)) (events (queue w)) = true →
  Forall (λ e, ¬ foreign (heap w) (sources (queue w)) e) (events (queue w)) →
  ∃ w' new,
    al_destroy_event_queue w = Some (tt, w') ∧
    events (queue w') = [] ∧
    sources (queue w') = [] ∧
    same_contents (heap w) (heap w') ∧
    trace w' = trace w ++ (Call_unregister_destructor, queue w) :: new ++
                 [(Call_free_queue, mkQueue [] [] (mutex (queue w)))] ∧
    unregistrations new = reverse (sources (queue w)) ∧
    released new = by_source (heap w) (reverse (sources (queue w))) (events (queue w)) ∧
    released new ≡ₚ events (queue w).
Proof. exact (destroy_total w). Qed.

Lemma destroy_unregisters_and_releases_all_witness :
  ∃ w' new,
    al_destroy_event_queue (sample_world [1; 2; 3; 4]%positive [7; 8]%positive) =
      Some (tt, w') ∧
    events (queue w') = [] ∧
    unregistrations new = [8; 7]%positive ∧
    released new = [2; 4; 1; 3]%positive.
Proof.
  destruct (destroy_unregisters_and_releases_all
              (sample_world [1; 2; 3; 4]%positive [7; 8]%positive))
    as (w' & new & Hrun & Hevs & _ & _ & _ & Hun & Hrel & _).
  - apply (bool_decide_unpack _). vm_compute. exact I.
  - vm_compute. reflexivity.
  - apply (bool_decide_unpack _). vm_compute. exact I.
  - exists w', new. split; [exact Hrun|]. split; [exact Hevs|].
    split; [exact Hun|]. rewrite Hrel. vm_compute. reflexivity.
Defined.

Lemma destroy_foreign_None (w : world) (e : event_ptr) :
  NoDup (sources (queue w)) →
  forallb (allocated (heap w)) (events (queue w)) = true →
  e ∈ events (queue w) →
  foreign (heap w) (sources (queue w)) e →
  al_destroy_event_queue w = None.
Proof.
  intros Hnd Hal He Hf.
  set (w0 := mkWorld (queue w) (heap w) (clock w)
                     (trace w ++ [(Call_unregister_destructor, queue w)])).
  destruct (destroy_loop_spec (sources (queue w)) (length (sources (queue w))) w0)
    as (w1 & new & Hloop & Hsrc1 & Hevs1 & _); [done|done|done|done|].
  simpl in Hevs1.
  rewrite (destroy_after_loop w w1 Hloop Hsrc1).
  rewrite bool_decide_eq_false_2; [done|].
  intros Hnil. rewrite Hnil in Hevs1.
  assert (e ∈ filter (foreign (heap w) (sources (queue w))) (events (queue w))) as Hin.
  { by apply list_elem_of_filter. }
  rewrite <- Hevs1 in Hin. by apply elem_of_nil in Hin.
Qed.

(** X13.  The queue takes events of any source, registered or not, and
    [al_destroy_event_queue] purges only the records of registered sources:
    when the buffer holds a record of a source that is not registered, the
    destruction fails its assertion that the buffer is empty. *)
Theorem destroy_asserts_on_foreign_event (w : world) (e : event_ptr) :
  NoDup (sources (queue w)) →
  forallb (allocated (heap w)) (events (queue w)) = true →
  e ∈ events (queue w) →
  foreign (heap w) (sources (queue w)) e →
  al_destroy_event_queue w = None.
Proof. exact (destroy_foreign_None w e). Qed.

Lemma destroy_asserts_on_foreign_event_witness :
  al_destroy_event_queue (sample_world [1; 2; 3]%positive [7]%positive) = None.
Proof.
  apply (destroy_asserts_on_foreign_event
           (sample_world [1; 2; 3]%positive [7]%positive) 2%positive).
  - apply (bool_decide_unpack _). vm_compute. exact I.
  - vm_compute. reflexivity.
  - apply (bool_decide_unpack _). vm_compute. exact I.
  - apply (bool_decide_unpack _). vm_compute. exact I.
Defined.

(** ** The list of sources *)

Lemma scan_keeps_sources fuel s i :
  respects keeps_sources (unregister_scan fuel s i).
Proof.
  apply respects_unregister_scan; unfold keeps_sources; try done. congruence.
Qed.

Lemma unregister_sources_inv s w w' :
  al_unregister_event_source s w = Some (tt, w') →
  sources (queue w') `sublist_of` sources (queue w).
Proof.
  unfold al_unregister_event_source. mrun.
  destruct (find_index (sources (queue w)) s) as [i|]; simpl.
  - intros H. apply scan_keeps_sources in H. unfold keeps_sources in H.
    rewrite H. simpl. apply sublist_delete.
  - by intros [= <-].
Qed.

Lemma register_sources_inv s w w' :
  al_register_event_source s w = Some (tt, w') →
  NoDup (sources (queue w)) → NoDup (sources (queue w')).
Proof.
  intros Hrun Hnd. destruct (decide (s ∈ sources (queue w))) as [Hs|Hs].
  - rewrite (register_member s w Hs) in Hrun. by injection Hrun as <-.
  - destruct (register_not_member s w Hs) as (w1 & Hrun1 & Hq & _).
    rewrite Hrun1 in Hrun. injection Hrun as <-. rewrite Hq. simpl.
    apply NoDup_app. split; [done|]. split; [|apply NoDup_singleton].
    intros x Hx ->%list_elem_of_singleton. done.
Qed.

Lemma destroy_inv w w' :
  al_destroy_event_queue w = Some (tt, w') →
  events (queue w') = [] ∧ sources (queue w') = [].
Proof.
  unfold al_destroy_event_queue. intros H.
  do 7 (apply bind_inv in H as (? & ? & _ & H)).
  apply bind_inv in H as (? & wa & Hf1 & H).
  apply bind_inv in H as (? & wb & Hf2 & H).
  revert Hf1 Hf2 H. mrun. by intros [= _ <-] [= _ <-] [= <-].
Qed.

Lemma snoc_split {A} (s : A) l : ∀ l1 l2,
  l ++ [s] = l1 ++ s :: l2 → s ∉ l → l1 = l ∧ l2 = [].
Proof.
  induction l as [|a l IH]; intros l1 l2 H Hs.
  - destruct l1 as [|b l1]; simpl in H.
    + by injection H as <-.
    + injection H as _ H. by destruct l1.
  - apply not_elem_of_cons in Hs as [Hne Hs].
    destruct l1 as [|b l1]; simpl in H.
    + injection H as H _. done.
    + injection H as <- H. destruct (IH _ _ H Hs) as [-> ->]. done.
Qed.

Lemma filter_complement_all {A} (P : A → Prop) `{∀ x, Decision (P x)} (l : list A) :
  filter P l = [] → filter (λ x, ¬ P x) l = l.
Proof.
  induction l as [|x l IH]; [done|]. rewrite !filter_cons.
  destruct (decide (P x)); [done|]. intros Hl.
  destruct (decide (¬ P x)); [|done]. by rewrite IH.
Qed.

(** X14.  No source is registered twice: the list of sources of a new queue
    has no duplicate, and no operation takes a list without duplicates to
    one with duplicates. *)
Theorem sources_stay_distinct :
  (∀ (h : gmap event_ptr ALLEGRO_EVENT) (now : Z) (w0 : world),
     al_create_event_queue true h now = Some w0 → NoDup (sources (queue w0))) ∧
  (∀ (ulong_bits forever : Z) (o : op) (w w' : world),
     NoDup (sources (queue w)) →
     run_op ulong_bits forever o w = Some (tt, w') →
     NoDup (sources (queue w'))).
Proof.
  split.
  - intros h now w0 [= <-]. apply NoDup_nil_2.
  - intros bits forever o w w' Hnd Hrun.
    destruct (modifies_sources o) eqn:Hm.
    + destruct o; try discriminate Hm; simpl in Hrun.
      * by apply (register_sources_inv _ _ _ Hrun).
      * exact (sublist_NoDup _ _ Hnd (unregister_sources_inv _ _ _ Hrun)).

      * destruct (destroy_inv _ _ Hrun) as [_ ->]. apply NoDup_nil_2.
    + by rewrite (run_op_keeps_sources bits forever o Hm w tt w' Hrun).
Qed.

Lemma sources_stay_distinct_witness :
  NoDup (sources (queue (mkWorld new_queue sample_heap 0
                           [(Call_register_destructor, new_queue)]))) ∧
  (∃ w', run_op 32 (-1) (Op_register 8) (sample_world [1]%positive [7; 9]%positive) =
           Some (tt, w') ∧
         NoDup (sources (queue w'))) ∧
  (∃ w', run_op 32 (-1) (Op_unregister 7) (sample_world [1]%positive [7; 9]%positive) =
           Some (tt, w') ∧
         NoDup (sources (queue w'))).
Proof.
  destruct sources_stay_distinct as [H1 H2].
  split; [|split].
  - apply (H1 sample_heap 0). reflexivity.
  - destruct (run_op 32 (-1) (Op_register 8) (sample_world [1]%positive [7; 9]%positive))
      as [[[] w']|] eqn:Hrun; [|vm_compute in Hrun; discriminate Hrun].
    exists w'. split; [reflexivity|].
    apply (H2 32 (-1) (Op_register 8) (sample_world [1]%positive [7; 9]%positive) w').
    + apply (bool_decide_unpack _). vm_compute. exact I.
    + exact Hrun.
  - destruct (run_op 32 (-1) (Op_unregister 7) (sample_world [1]%positive [7; 9]%positive))
      as [[[] w']|] eqn:Hrun; [|vm_compute in Hrun; discriminate Hrun].
    exists w'. split; [reflexivity|].
    apply (H2 32 (-1) (Op_unregister 7) (sample_world [1]%positive [7; 9]%positive) w').
    + apply (bool_decide_unpack _). vm_compute. exact I.
    + exact Hrun.
Defined.

(** X15.  Registering a source that is not a member and unregistering it again
    gives back the list of sources as it was; the source is told of the
    registration and then of the unregistration; the records of the buffer
    that name the source are released and taken out, the others stay in
    their order.  When the buffer holds no record of the source, queue and
    records are as before. *)
Theorem register_then_unregister_restores (s : source_ptr) (w : world) :
  s ∉ sources (queue w) →
  forallb (allocated (heap w)) (events (queue w)) = true →
  ∃ w1 w2 new,
    al_register_event_source s w = Some (tt, w1) ∧
    al_unregister_event_source s w1 = Some (tt, w2) ∧
    sources (queue w2) = sources (queue w) ∧
    events (queue w2) = filter (λ e, ¬ came_from (heap w) s e) (events (queue w)) ∧
    same_contents (heap w) (heap w2) ∧
    trace w2 = trace w ++ (Call_on_registration_to_queue s, queue w) ::
                 (Call_on_unregistration_from_queue s, queue w) :: new ∧
    released new = filter (came_from (heap w) s) (events (queue w)) ∧
    (filter (came_from (heap w) s) (events (queue w)) = [] →
     queue w2 = queue w ∧ heap w2 = heap w).
Proof.
  intros Hs Hal.
  destruct (register_not_member s w Hs) as (w1 & Hreg & Hq1 & Hh1 & Hc1 & Htr1).
  destruct (unregister_member s w1)
    as (w2 & l1 & l2 & new & Hrun & Hsplit & Hl1 & Hsrc2 & Hevs2 & Hmx2 & Hsim2 & _
        & _ & Htr2 & Hrel2 & Hnew2).
  { rewrite Hq1. simpl. apply elem_of_app. right. apply list_elem_of_here. }
  { by rewrite Hh1, Hq1. }
  rewrite Hq1 in Hsplit, Hevs2, Hmx2, Htr2, Hrel2.
  simpl in Hsplit, Hevs2, Hmx2, Htr2, Hrel2.
  destruct (snoc_split _ _ _ _ Hsplit Hs) as [-> ->]. rewrite app_nil_r in *.
  rewrite Hh1 in Hevs2, Hsim2, Hrel2.
  exists w1, w2, new. split; [done|]. split; [done|]. split; [done|].
  split; [done|]. split; [exact Hsim2|].
  split. { rewrite Htr2, Htr1, <- app_assoc. simpl. by destruct (queue w). }
  split; [done|].
  intros Hnone. split.
  - destruct (queue w2) as [evs2 srcs2 mx2], (queue w) as [evs srcs mx].
    simpl in *. subst. f_equal.
    by apply filter_complement_all.
  - destruct (run_op_releases_only 0 0 (Op_unregister s) eq_refl w1 tt w2 Hrun)
      as (new' & Htr' & Hheap).
    rewrite Htr2 in Htr'. apply app_inv_head in Htr'. subst new'.
    rewrite Hheap, Hh1. rewrite released_cons. cbv beta iota.
    by rewrite Hrel2, Hnone.
Qed.

Lemma register_then_unregister_restores_witness :
  ∃ w1 w2,
    al_register_event_source 9 (sample_world [1; 2]%positive [7]%positive) = Some (tt, w1) ∧
    al_unregister_event_source 9 w1 = Some (tt, w2) ∧
    queue w2 = queue (sample_world [1; 2]%positive [7]%positive) ∧
    heap w2 = sample_heap.
Proof.
  destruct (register_then_unregister_restores 9 (sample_world [1; 2]%positive [7]%positive))
    as (w1 & w2 & new & Hreg & Hun & _ & _ & _ & _ & _ & Hsame).
  - apply (bool_decide_unpack _). vm_compute. exact I.
  - vm_compute. reflexivity.
  - exists w1, w2. split; [exact Hreg|]. split; [exact Hun|].
    apply Hsame. vm_compute. reflexivity.
Defined.

(** ** Counting the references *)

Lemma add_holds_0 ev : add_holds 0 ev = ev.
Proof. destruct ev. unfold add_holds, set_refcount. simpl. f_equal. lia. Qed.

Lemma add_holds_add j k ev : add_holds k (add_holds j ev) = add_holds (j + k) ev.
Proof. unfold add_holds, set_refcount. simpl. f_equal. lia. Qed.

Lemma occurrences_cons e es p :
  occurrences (e :: es) p = (if decide (e = p) then 1 else 0) + occurrences es p.
Proof.
  unfold occurrences. rewrite filter_cons.
  destruct (decide (e = p)); simpl length; lia.
Qed.

Lemma lookup_retain h e p :
  retain h e !! p = add_holds (if decide (e = p) then 1 else 0) <$> h !! p.
Proof.
  unfold retain. destruct (decide (e = p)) as [->|Hne].
  - destruct (h !! p) as [ev|] eqn:Hev.
    + by rewrite lookup_insert_eq.
    + by rewrite Hev.
  - destruct (h !! e) as [ev|] eqn:Hev.
    + rewrite lookup_insert_ne by done.
      destruct (h !! p) as [ev'|]; simpl; [|done]. by rewrite add_holds_0.
    + destruct (h !! p) as [ev'|]; simpl; [|done]. by rewrite add_holds_0.
Qed.

Lemma lookup_unretain h e p :
  unretain h e !! p = add_holds (- (if decide (e = p) then 1 else 0)) <$> h !! p.
Proof.
  unfold unretain. destruct (decide (e = p)) as [->|Hne].
  - destruct (h !! p) as [ev|] eqn:Hev.
    + by rewrite lookup_insert_eq.
    + by rewrite Hev.
  - destruct (h !! e) as [ev|] eqn:Hev.
    + rewrite lookup_insert_ne by done.
      destruct (h !! p) as [ev'|]; simpl; [|done]. by rewrite add_holds_0.
    + destruct (h !! p) as [ev'|]; simpl; [|done]. by rewrite add_holds_0.
Qed.

Lemma lookup_foldl_retain es : ∀ h p,
  foldl retain h es !! p = add_holds (occurrences es p) <$> h !! p.
Proof.
  induction es as [|e es IH]; intros h p.
  - simpl. destruct (h !! p); simpl; [|done]. by rewrite add_holds_0.
  - simpl. rewrite IH, lookup_retain, occurrences_cons.
    destruct (h !! p); simpl; [|done]. by rewrite add_holds_add.
Qed.

Lemma lookup_foldl_unretain es : ∀ h p,
  foldl unretain h es !! p = add_holds (- occurrences es p) <$> h !! p.
Proof.
  induction es as [|e es IH]; intros h p.
  - simpl. destruct (h !! p); simpl; [|done]. by rewrite add_holds_0.
  - simpl. rewrite IH, lookup_unretain, occurrences_cons.
    destruct (h !! p); simpl; [|done]. rewrite add_holds_add. do 2 f_equal.
    destruct (decide (e = p)); lia.
Qed.

Lemma unretain_all_retained h es : foldl unretain (foldl retain h es) es = h.
Proof.
  apply map_eq. intros p.
  rewrite lookup_foldl_unretain, lookup_foldl_retain.
  destruct (h !! p); simpl; [|done].
  rewrite add_holds_add. rewrite <- (add_holds_0 a) at 2. do 2 f_equal. lia.
Qed.

Lemma headroom_retain k h e p :
  headroom (S k) h p = true → headroom k (retain h e) p = true.
Proof.
  intros Hp. unfold retain. destruct (h !! e) as [ev|] eqn:Hev.
  - by apply headroom_insert.
  - eapply headroom_le; [|exact Hp]. lia.
Qed.

Lemma allocated_foldl_retain h es p :
  allocated (foldl retain h es) p = allocated h p.
Proof.
  unfold allocated. rewrite lookup_foldl_retain. by destruct (h !! p).
Qed.

Lemma push_all_room es : ∀ w,
  (length (events (queue w)) + length es ≤ MAX_QUEUE_SIZE)%nat →
  forallb (headroom (length es) (heap w)) es = true →
  ∃ w', push_all es w = Some (tt, w') ∧
        events (queue w') = events (queue w) ++ es ∧
        sources (queue w') = sources (queue w) ∧
        heap w' = foldl retain (heap w) es.
Proof.
  induction es as [|e es IH]; intros w Hlen Hes.
  - exists w. by rewrite app_nil_r.
  - simpl in Hes, Hlen. apply andb_true_iff in Hes as [He Hes].
    destruct (headroom_inv _ _ _ He) as (ev & Hev & Hrc & Hmax).
    destruct (push_room_spec e ev w) as (w1 & Hrun & Hevs & Hsrc & _ & Hheap & _);
      [lia|done|lia|].
    assert (heap w1 = retain (heap w) e) as Hret.
    { unfold retain. by rewrite Hev. }
    destruct (IH w1) as (w' & Hrun' & Hevs' & Hsrc' & Hheap').
    { rewrite Hevs, length_app. simpl. lia. }
    { rewrite Hret. eapply forallb_impl; [|exact Hes]. intros p. apply headroom_retain. }
    exists w'. simpl. rewrite (bind_Some _ _ _ _ _ Hrun).
    split; [done|]. split. { by rewrite Hevs', Hevs, <- app_assoc. }
    split; [congruence|]. by rewrite Hheap', Hret.
Qed.

Lemma allocated_unretain h e p : allocated h p = true → allocated (unretain h e) p = true.
Proof.
  unfold allocated. rewrite lookup_unretain. by destruct (h !! p).
Qed.

Lemma get_n_heap ret l : ∀ w,
  events (queue w) = l →
  forallb (allocated (heap w)) l = true →
  ∃ rs w', get_n (length l) ret w = Some (rs, w') ∧
           heap w' = foldl unretain (heap w) l.
Proof.
  induction l as [|e l IH]; intros w Hl Hal.
  - by exists [], w.
  - simpl in Hal. apply andb_true_iff in Hal as [He Hal].
    unfold allocated in He. destruct (heap w !! e) as [ev|] eqn:Hev; [|done].
    destruct (get_cons_spec ret w e l ev Hl Hev) as (w1 & Hrun & Hq & Hh & _ & _).
    assert (heap w1 = unretain (heap w) e) as Hun.
    { unfold unretain. by rewrite Hev. }
    destruct (IH w1) as (rs & w' & Hrun' & Hheap').
    { by rewrite Hq. }
    { rewrite Hun. eapply forallb_impl; [|exact Hal]. intros p. apply allocated_unretain. }
    eexists _, w'. simpl.
    rewrite (bind_Some _ _ _ _ _ Hrun), (bind_Some _ _ _ _ _ Hrun').
    split; [reflexivity|]. by rewrite Hheap', Hun.
Qed.

(** X16.  The queue holds one reference for each time a record is buffered:
    pushing [es] onto a queue with room for them, when the count of every
    record pushed is not negative and at least [length es] below [INT_MAX]
    so that no increment overflows, raises the count of every record by the
    number of times it occurs in [es] and changes nothing else in the
    store; and once as many events were taken with [al_get_next_event] from
    a queue that was empty before the pushes, every record is exactly as it
    was before them. *)
Theorem queue_holds_one_reference_per_push (es : list event_ptr)
    (ret_event : ALLEGRO_EVENT) (w : world) :
  (length (events (queue w)) + length es ≤ MAX_QUEUE_SIZE)%nat →
  forallb (headroom (length es) (heap w)) es = true →
  ∃ w1,
    push_all es w = Some (tt, w1) ∧
    (∀ p, heap w1 !! p = add_holds (occurrences es p) <$> heap w !! p) ∧
    (events (queue w) = [] →
     ∃ rs w2, get_n (length es) ret_event w1 = Some (rs, w2) ∧ heap w2 = heap w).
Proof.
  intros Hlen Hes.
  destruct (push_all_room es w Hlen Hes) as (w1 & Hrun & Hevs & _ & Hheap).
  exists w1. split; [done|]. split.
  { intros p. by rewrite Hheap, lookup_foldl_retain. }
  intros Hemp. rewrite Hemp in Hevs. simpl in Hevs.
  destruct (get_n_heap ret_event es w1 Hevs) as (rs & w2 & Hget & Hheap2).
  { rewrite Hheap. eapply forallb_impl; [|exact Hes]. intros p Hp.
    rewrite allocated_foldl_retain. by eapply headroom_allocated. }
  exists rs, w2. split; [done|]. by rewrite Hheap2, Hheap, unretain_all_retained.
Qed.

Lemma queue_holds_one_reference_per_push_witness :
  ∃ w1 rs w2,
    push_all [1; 2; 1]%positive (sample_world [] []) = Some (tt, w1) ∧
    any_refcount <$> heap w1 !! 1%positive = Some 2 ∧
    get_n 3 (sample_event 1 0) w1 = Some (rs, w2) ∧
    heap w2 = sample_heap.
Proof.
  destruct (queue_holds_one_reference_per_push [1; 2; 1]%positive (sample_event 1 0)
              (sample_world [] []))
    as (w1 & Hpush & Hcount & Hget).
  - vm_compute. lia.
  - vm_compute. reflexivity.
  - destruct (Hget eq_refl) as (rs & w2 & Hrun & Hheap).
    exists w1, rs, w2. split; [exact Hpush|]. split; [|split; [exact Hrun|exact Hheap]].
    rewrite Hcount. vm_compute. reflexivity.
Defined.

(** ** Records that leave the buffer *)








(** ** Flushing and dropping *)

Lemma occurrences_reverse l p : occurrences (reverse l) p = occurrences l p.
Proof. unfold occurrences. by rewrite reverse_Permutation. Qed.

Lemma drop_n_spec l : ∀ w,
  events (queue w) = l →
  forallb (allocated (heap w)) l = true →
  ∃ w' new, drop_n (length l) w = Some (tt, w') ∧
            events (queue w') = [] ∧
            sources (queue w') = sources (queue w) ∧
            heap w' = foldl unretain (heap w) l ∧
            trace w' = trace w ++ new ∧
            released new = l.
Proof.
  induction l as [|e l IH]; intros w Hl Hal.
  - exists w, []. by rewrite app_nil_r.
  - simpl in Hal. apply andb_true_iff in Hal as [He Hal].
    unfold allocated in He. destruct (heap w !! e) as [ev|] eqn:Hev; [|done].
    destruct (drop_cons_spec w e l ev Hl Hev) as (w1 & Hrun & Hq & Hh & _ & Htr).
    assert (heap w1 = unretain (heap w) e) as Hun.
    { unfold unretain. by rewrite Hev. }
    destruct (IH w1) as (w' & new & Hrun' & Hevs' & Hsrc' & Hheap' & Htr' & Hrel').
    { by rewrite Hq. }
    { rewrite Hun. eapply forallb_impl; [|exact Hal]. intros p. apply allocated_unretain. }
    exists w'. eexists. simpl. rewrite (bind_Some _ _ _ _ _ Hrun).
    split; [exact Hrun'|]. split; [done|]. split; [by rewrite Hsrc', Hq|].
    split; [by rewrite Hheap', Hun|].
    split. { rewrite Htr', Htr, <- !app_assoc. reflexivity. }
    rewrite !released_app, released_release_calls, Hrel'. done.
Qed.

(** X18.  [al_flush_event_queue] does what as many calls of
    [al_drop_next_event] as the buffer holds events do: both leave the
    buffer empty, the sources as they were and the same records with the
    same counts; the flush releases the events from the newest to the
    oldest, the drops from the oldest to the newest. *)
Theorem flush_is_drop_all (w : world) :
  forallb (allocated (heap w)) (events (queue w)) = true →
  ∃ w1 w2 new1 new2,
    al_flush_event_queue w = Some (tt, w1) ∧
    drop_n (length (events (queue w))) w = Some (tt, w2) ∧
    events (queue w1) = [] ∧ events (queue w2) = [] ∧
    sources (queue w1) = sources (queue w2) ∧
    heap w1 = heap w2 ∧
    trace w1 = trace w ++ new1 ∧ trace w2 = trace w ++ new2 ∧
    released new1 = reverse (events (queue w)) ∧
    released new2 = events (queue w).
Proof.
  intros Hal.
  destruct (flush_spec w Hal)
    as (w1 & new1 & Hrun1 & Hevs1 & Hsrc1 & _ & _ & _ & Htr1 & Hrel1 & _).
  destruct (drop_n_spec (events (queue w)) w eq_refl Hal)
    as (w2 & new2 & Hrun2 & Hevs2 & Hsrc2 & Hheap2 & Htr2 & Hrel2).
  exists w1, w2, new1, new2.
  split; [done|]. split; [done|]. split; [done|]. split; [done|].
  split; [congruence|]. split; [|done].
  destruct (run_op_releases_only 0 0 Op_flush eq_refl w tt w1 Hrun1)
    as (new & Htr & Hheap).
  rewrite Htr1 in Htr. apply app_inv_head in Htr. subst new.
  rewrite Hheap, Hheap2, Hrel1. apply map_eq. intros p.
  by rewrite !lookup_foldl_unretain, occurrences_reverse.
Qed.

Lemma flush_is_drop_all_witness :
  ∃ w1 w2,
    al_flush_event_queue (sample_world [1; 2; 1]%positive [7]%positive) = Some (tt, w1) ∧
    drop_n 3 (sample_world [1; 2; 1]%positive [7]%positive) = Some (tt, w2) ∧
    heap w1 = heap w2.
Proof.
  destruct (flush_is_drop_all (sample_world [1; 2; 1]%positive [7]%positive))
    as (w1 & w2 & new1 & new2 & Hf & Hd & _ & _ & _ & Hheap & _).
  - vm_compute. reflexivity.
  - exists w1, w2. split; [exact Hf|]. split; [exact Hd|exact Hheap].
Defined.
